(** * Clickbait detector: the scoring endpoint of [backend/api.py]

    A shallow embedding of the [/predict] route and of the helpers it calls
    ([extract_id], [get_video_info], [get_transcript], [similarity_score]),
    followed by the properties of the score fusion that the specification
    states, and by further properties of the helpers and of the endpoint:
    what the patterns extract, which signals the rule score counts, which
    services a request calls, and how the scores are ordered and bounded.

    - Python [str] values are lists of Unicode code points.
    - Python [float] values are Rocq's primitive binary64 floats, so every
      product, sum and comparison below is the IEEE 754 operation that
      CPython performs; [round(x, 2)] is [py_round2].
    - The external services (yt-dlp, the transcript API, the classifier
      pipeline, the sentence embedder) are fields of a [World]; calling one
      appends an event to the trace carried by the [Traced] monad. *)

From Stdlib Require Import ZArith NArith Lia List Bool Ascii String Floats.
Import ListNotations.

Set Warnings "-inexact-float".
Open Scope Z_scope.

(** ** Python strings *)

Definition str : Type := list N.

(** An ASCII literal as a Python string. *)
Definition py (s : string) : str := List.map N_of_ascii (list_ascii_of_string s).

Definition len (s : str) : Z := Z.of_nat (List.length s).

Fixpoint str_eqb (a b : str) : bool :=
  match a, b with
  | [], [] => true
  | x :: a', y :: b' => N.eqb x y && str_eqb a' b'
  | _, _ => false
  end.

(** [s.startswith(p)], returning what follows the prefix. *)
Fixpoint strip_prefix (p s : str) : option str :=
  match p, s with
  | [], _ => Some s
  | x :: p', y :: s' => if N.eqb x y then strip_prefix p' s' else None
  | _ :: _, [] => None
  end.

(** [needle in hay] *)
Fixpoint contains (needle hay : str) : bool :=
  match strip_prefix needle hay with
  | Some _ => true
  | None => match hay with
            | [] => false
            | _ :: hay' => contains needle hay'
            end
  end.

(** [s.count(c)] for a one-character [c] *)
Fixpoint count (c : N) (s : str) : Z :=
  match s with
  | [] => 0
  | x :: s' => (if N.eqb x c then 1 else 0) + count c s'
  end.

(** The characters [str.strip()] removes: CPython's [Py_UNICODE_ISSPACE]. *)
Definition is_space (c : N) : bool :=
  ((9 <=? c) && (c <=? 13) || (28 <=? c) && (c <=? 32) || (c =? 133) || (c =? 160)
   || (c =? 5760) || (8192 <=? c) && (c <=? 8202) || (c =? 8232) || (c =? 8233)
   || (c =? 8239) || (c =? 8287) || (c =? 12288))%N.

Fixpoint lstrip (s : str) : str :=
  match s with
  | [] => []
  | c :: s' => if is_space c then lstrip s' else s
  end.

Definition strip (s : str) : str := rev (lstrip (rev (lstrip s))).

(** [sep.join(parts)] *)
Fixpoint join (sep : str) (parts : list str) : str :=
  match parts with
  | [] => []
  | [p] => p
  | p :: rest => p ++ sep ++ join sep rest
  end.

(** [o or ""] *)
Definition or_empty (o : option str) : str :=
  match o with
  | Some s => s
  | None => []
  end.

(** The Unicode character database behind [str.lower], [str.isupper] and the
    regular-expression class [\d].  It is not part of the repository, so the
    embedding takes it as a parameter; [ascii_tables] is its restriction to
    ASCII text. *)
Record Unicode : Type := {
  lower : str -> str;
  isupper : str -> bool;
  is_decimal : N -> bool
}.

Definition ascii_is_upper (c : N) : bool := ((65 <=? c) && (c <=? 90))%N.
Definition ascii_is_lower (c : N) : bool := ((97 <=? c) && (c <=? 122))%N.

Definition ascii_tables : Unicode := {|
  lower := List.map (fun c => if ascii_is_upper c then (c + 32)%N else c);
  isupper := fun s => existsb ascii_is_upper s && negb (existsb ascii_is_lower s);
  is_decimal := fun c => ((48 <=? c) && (c <=? 57))%N
|}.

(** ** Regular expressions of [extract_id]

    Each pattern is a literal followed by one capture group [([^c]+)].
    [re.search] returns the leftmost match; the group is greedy. *)

Fixpoint take_until (stop : N) (s : str) : str :=
  match s with
  | [] => []
  | c :: s' => if N.eqb c stop then [] else c :: take_until stop s'
  end.

Definition match_here (lit : str) (stop : N) (s : str) : option str :=
  match strip_prefix lit s with
  | Some rest => match take_until stop rest with
                 | [] => None
                 | g => Some g
                 end
  | None => None
  end.

Fixpoint re_search (lit : str) (stop : N) (s : str) : option str :=
  match match_here lit stop s with
  | Some g => Some g
  | None => match s with
            | [] => None
            | _ :: s' => re_search lit stop s'
            end
  end.

Definition amp : N := 38.
Definition qmark : N := 63.
Definition bang : N := 33.

(** [patterns = [r"v=([^&]+)", r"youtu\.be/([^?]+)", r"shorts/([^?]+)"]] *)
Definition patterns : list (str * N) :=
  [(py "v=", amp); (py "youtu.be/", qmark); (py "shorts/", qmark)].

Fixpoint first_match (ps : list (str * N)) (url : str) : option str :=
  match ps with
  | [] => None
  | (lit, stop) :: ps' =>
      match re_search lit stop url with
      | Some g => Some g
      | None => first_match ps' url
      end
  end.

Definition extract_id (url : str) : option str := first_match patterns url.

(** ** Python numbers *)

(** The quotient [N / D] rounded to the nearest integer, ties to even. *)
Definition round_half_even (N D : Z) : Z :=
  let q := N / D in
  match 2 * (N mod D) ?= D with
  | Lt => q
  | Gt => q + 1
  | Eq => if Z.even q then q else q + 1
  end.

(** The double nearest to the decimal [n / 100] (what [strtod] returns for
    it): the correctly rounded quotient of the integers [n] and [100], which
    [SFdiv] computes from any two mantissa-exponent pairs. *)
Definition dec2 (s : bool) (n : Z) : spec_float :=
  match n with
  | Zpos p => SFdiv prec emax (S754_finite s p 0) (S754_finite false 100 0)
  | _ => S754_zero s
  end.

(** [round(x, 2)] on a float.  CPython converts [x] to the decimal with two
    fractional digits nearest to its exact binary value (ties to even) and
    reads that decimal back as a double.  Infinities and NaN round to
    themselves; a double whose exponent is non-negative is an integer and is
    returned unchanged. *)
Definition py_round2 (x : float) : float :=
  match Prim2SF x with
  | S754_finite s m e =>
      if 0 <=? e then x else SF2Prim (dec2 s (round_half_even (100 * Zpos m) (2 ^ (- e))))
  | _ => x
  end.

(** [float(z)] for a Python [int]: the nearest double.  (CPython raises
    [OverflowError] beyond the range of doubles; the integers converted here
    are rule scores and the literal 100.) *)
Definition Z2float (z : Z) : float := SF2Prim (binary_normalize prec emax z 0 false).

(** A value that is an [int] on one path and a [float] on another. *)
Inductive pynum : Type :=
| PyInt (z : Z)
| PyFloat (f : float).

Definition to_float (x : pynum) : float :=
  match x with
  | PyInt z => Z2float z
  | PyFloat f => f
  end.

(** [k - x] for an [int] literal [k] *)
Definition int_sub (k : Z) (x : pynum) : pynum :=
  match x with
  | PyInt z => PyInt (k - z)
  | PyFloat f => PyFloat (Z2float k - f)%float
  end.

(** ** External services and the call trace *)

Inductive call : Type :=
| CallMetadata (url : str)       (* yt_dlp.YoutubeDL(...).extract_info(url) *)
| CallTranscript (video_id : str) (* YouTubeTranscriptApi.list_transcripts(video_id) ... fetch() *)
| CallClassifier (text : str)    (* classifier(text) *)
| CallEmbed (text : str).        (* embedder.encode(text) *)

Record World : Type := {
  (* [None]: yt-dlp raised; otherwise [info.get("title")], [info.get("description")] *)
  ydl_extract_info : str -> option (option str * option str);
  (* [None]: the transcript API raised; otherwise the [text] of each segment *)
  fetch_transcript : str -> option (list str);
  (* [classifier(text)[0]["score"]] *)
  classifier_score : str -> float;
  (* [embedder.encode(text, convert_to_tensor=True)] *)
  embedding : Type;
  encode : str -> embedding;
  (* [float(util.cos_sim(a, b)[0][0])] *)
  cos_sim : embedding -> embedding -> float
}.

Definition Traced (A : Type) : Type := (A * list call)%type.

Definition ret {A : Type} (a : A) : Traced A := (a, []).

Definition bind {A B : Type} (m : Traced A) (k : A -> Traced B) : Traced B :=
  let (a, t1) := m in
  let (b, t2) := k a in
  (b, t1 ++ t2).

Notation "x <- m ;; k" := (bind m (fun x => k))
  (at level 61, m at next level, right associativity).
Notation "' p <- m ;; k" := (bind m (fun x => let p := x in k))
  (at level 61, p pattern, m at next level, right associativity).

Definition calling {A : Type} (c : call) (result : A) : Traced A := (result, [c]).

Definition value {A : Type} (m : Traced A) : A := fst m.
Definition trace {A : Type} (m : Traced A) : list call := snd m.

(** ** [api.py] *)

Definition CLICKBAIT_WORDS : list str :=
  List.map py
    ["shocking"; "unbelievable"; "secret"; "exposed"; "you won't believe";
     "insane"; "trick"; "overnight"; "millionaire"; "scam"; "warning";
     "must watch"; "gone wrong"; "leaked"]%string.

Definition get_video_info (W : World) (url : str) : Traced (option str * option str) :=
  info <- calling (CallMetadata url) (ydl_extract_info W url) ;;
  match info with
  | Some (title, description) => ret (title, description)
  | None => ret (None, None)
  end.

Definition get_transcript (W : World) (video_id : str) : Traced (option str) :=
  data <- calling (CallTranscript video_id) (fetch_transcript W video_id) ;;
  match data with
  | Some segments => ret (Some (join (py " ") segments))
  | None => ret None
  end.

Definition similarity_score (W : World) (title content : str) : Traced pynum :=
  match content with
  | [] => (* not content *)
      ret (PyInt 0)
  | _ :: _ =>
      match strip content with
      | [] => (* not content.strip() *)
          ret (PyInt 0)
      | _ :: _ =>
          let content := firstn 3000 content in
          emb1 <- calling (CallEmbed title) (encode W title) ;;
          emb2 <- calling (CallEmbed content) (encode W content) ;;
          let sim := cos_sim W emb1 emb2 in
          ret (PyFloat (py_round2 (sim * 100)%float))
      end
  end.

(** Lines 96-103 of [predict]: the lexical rule score of a title. *)
Definition lexical_rule_score (U : Unicode) (title : str) : Z :=
  let rule_score := 0 in
  let t_lower := lower U title in
  let rule_score :=
    fold_left (fun rule_score word =>
                 if contains word t_lower then rule_score + 8 else rule_score)
              CLICKBAIT_WORDS rule_score in
  let rule_score :=
    rule_score + (Z.min (count bang title * 2) 10 + Z.min (count qmark title * 2) 10) in
  let rule_score :=
    if isupper U title && (10 <? len title) then rule_score + 10 else rule_score in
  let rule_score :=
    if existsb (is_decimal U) title then rule_score + 5 else rule_score in
  Z.min rule_score 40.

(** Lines 111-119 of [predict]: the weighted sum and its rounding. *)
Definition fusion (ai_score : float) (rule_score : Z) (sim_score : pynum)
    (used_transcript : bool) : float :=
  let final :=
    if used_transcript
    then ((ai_score * 0.45) + (Z2float rule_score * 0.25)
          + (to_float (int_sub 100 sim_score) * 0.30))%float
    else ((ai_score * 0.60) + (Z2float rule_score * 0.40))%float in
  py_round2 final.

(** Lines 122-125 of [predict]. *)
Definition risk_level (final : float) : str :=
  if (75 <=? final)%float then py "Very High"
  else if (60 <=? final)%float then py "High"
  else if (45 <=? final)%float then py "Medium"
  else py "Low".

(** The JSON object a successful request returns. *)
Module Response.
Record t : Type := {
  title : str;
  ai_score : float;
  rule_score : Z;
  similarity_score : pynum;
  transcript_used : bool;
  final_score : float;
  risk_level : str;
  clickbait : bool
}.
End Response.

Inductive Reply : Type :=
| Error (error : str)
| Success (body : Response.t).

Record VideoData : Type := { url : str }.

Definition predict (U : Unicode) (W : World) (data : VideoData) : Traced Reply :=
  let video_id := extract_id (url data) in
  match video_id with
  | None | Some [] => (* if not video_id *)
      ret (Error (py "Invalid YouTube URL"))
  | Some ((_ :: _) as video_id) =>
      '(title, desc) <- get_video_info W (url data) ;;
      match title with
      | None | Some [] => (* if not title *)
          ret (Error (py "Could not fetch video info"))
      | Some ((_ :: _) as title) =>
          transcript <- get_transcript W video_id ;;
          let used_transcript := match transcript with Some _ => true | None => false end in
          let full_text := or_empty desc ++ py " " ++ or_empty transcript in
          ai_result <- calling (CallClassifier title) (classifier_score W title) ;;
          let ai_score := py_round2 (ai_result * 100)%float in
          let rule_score := lexical_rule_score U title in
          sim_score <- similarity_score W title full_text ;;
          let final := fusion ai_score rule_score sim_score used_transcript in
          let level := risk_level final in
          ret (Success {|
                 Response.title := title;
                 Response.ai_score := ai_score;
                 Response.rule_score := rule_score;
                 Response.similarity_score := sim_score;
                 Response.transcript_used := used_transcript;
                 Response.final_score := final;
                 Response.risk_level := level;
                 Response.clickbait := (55 <=? final)%float
               |})
      end
  end.

(** ** Sample worlds

    A world whose services answer every request the same way. *)
Definition const_world (title desc : option str) (transcript : option (list str))
    (score sim : float) : World := {|
  ydl_extract_info := fun _ => Some (title, desc);
  fetch_transcript := fun _ => transcript;
  classifier_score := fun _ => score;
  embedding := str;
  encode := fun text => text;
  cos_sim := fun _ _ => sim
|}.

Definition sample_url : VideoData := {| url := py "https://youtu.be/dQw4w9WgXcQ" |}.

Definition sample_world : World :=
  const_world (Some (py "SHOCKING secret: 10 insane tricks EXPOSED!!!"))
              (Some (py "A calm description."))
              (Some [py "hello"; py "world"]) 0.9876543%float 0.25%float.

(** What [sample_world] answers for [sample_url]. *)
Definition sample_response : Response.t := {|
  Response.title := py "SHOCKING secret: 10 insane tricks EXPOSED!!!";
  Response.ai_score := 98.77;
  Response.rule_score := 40;
  Response.similarity_score := PyFloat 25;
  Response.transcript_used := true;
  Response.final_score := 76.95;
  Response.risk_level := py "Very High";
  Response.clickbait := true
|}.

(** A classifier that is certain, and embeddings that point in opposite
    directions (cosine similarity -1). *)
Definition opposite_world : World :=
  const_world (Some (py "shocking secret exposed: insane trick"))
              (Some (py "about"))
              (Some [py "unrelated"; py "words"]) 1%float (-1)%float.

Definition opposite_response : Response.t := {|
  Response.title := py "shocking secret exposed: insane trick";
  Response.ai_score := 100;
  Response.rule_score := 40;
  Response.similarity_score := PyFloat (-100);
  Response.transcript_used := true;
  Response.final_score := 115;
  Response.risk_level := py "Very High";
  Response.clickbait := true
|}.

(** A world whose metadata service fails and is otherwise [W]. *)
Definition without_metadata (W : World) : World := {|
  ydl_extract_info := fun _ => None;
  fetch_transcript := fetch_transcript W;
  classifier_score := classifier_score W;
  embedding := embedding W;
  encode := encode W;
  cos_sim := cos_sim W
|}.

(** The world [W] with another transcript service. *)
Definition with_transcript (W : World) (fetch : str -> option (list str)) : World := {|
  ydl_extract_info := ydl_extract_info W;
  fetch_transcript := fetch;
  classifier_score := classifier_score W;
  embedding := embedding W;
  encode := encode W;
  cos_sim := cos_sim W
|}.

(** The world [W] with another classifier. *)
Definition with_classifier (W : World) (score : str -> float) : World := {|
  ydl_extract_info := ydl_extract_info W;
  fetch_transcript := fetch_transcript W;
  classifier_score := score;
  embedding := embedding W;
  encode := encode W;
  cos_sim := cos_sim W
|}.

(** Three thousand spaces followed by a letter. *)
Definition padded_content : str := repeat 32%N 3000 ++ py "x".

(** Embeddings whose cosine similarity is always 0.5. *)
Definition half_world : World := const_world None None None 0%float 0.5%float.

(** Metadata with an empty title. *)
Definition untitled_world : World :=
  const_world (Some (py "")) (Some (py "A description.")) (Some [py "hello"]) 0.5%float 0.5%float.

(** A video without transcript. *)
Definition silent_world : World :=
  const_world (Some (py "Introduction to Data Structures in Java"))
              (Some (py "Lecture notes.")) None 0.25%float 0.5%float.

(** A similarity score between -50 and 100. *)
Definition sim_in_range (sim_score : pynum) : Prop :=
  match sim_score with
  | PyInt z => -50 <= z <= 100
  | PyFloat f => (-50 <=? f)%float = true /\ (f <=? 100)%float = true
  end.

(** A similarity score between -100 and 100. *)
Definition sim_bounded (sim_score : pynum) : Prop :=
  match sim_score with
  | PyInt z => -100 <= z <= 100
  | PyFloat f => (-100 <=? f)%float = true /\ (f <=? 100)%float = true
  end.

(** ** Exact values of binary64 numbers

    The definitions below are used only in proofs.  A non-negative finite
    double [m * 2^e] is measured by the integer [m * 2^(e + 2200)], so that
    doubles, their exact sums and their exact products are all integers and
    rounding to nearest-even becomes a function on [Z]. *)

Abbreviation scale := 2200 (only parsing).

Definition scaled (m e : Z) : Z := m * 2 ^ (e + scale).

(** The exponent of the last kept bit of a number of magnitude [d]. *)
Definition fexp64 (d : Z) : Z := Z.max (d - 53) (-1074).

Definition ulp_exp (V : Z) : Z := fexp64 (Z.log2 V + 1 - scale) + scale.

(** Rounding of the scaled value [V] to the nearest double, ties to even. *)
Definition nearest64 (V : Z) : Z := round_half_even V (2 ^ ulp_exp V) * 2 ^ ulp_exp V.

(** Rounding of the scaled quotient [N / D] to the nearest double, ties to
    even. *)
Definition nearest_frac (N D : Z) : Z :=
  let u := ulp_exp (N / D) in round_half_even N (D * 2 ^ u) * 2 ^ u.

(** [round(x, 2)] on scaled values: the nearest hundredth, then the nearest
    double. *)
Definition round2_value (V : Z) : Z :=
  nearest_frac (round_half_even (100 * V) (2 ^ scale) * 2 ^ scale) 100.

Definition SFvalue (f : spec_float) : Z :=
  match f with
  | S754_finite false m e => scaled (Zpos m) e
  | _ => 0
  end.

(** Zero or a positive finite number. *)
Definition nonneg_finite (f : spec_float) : bool :=
  match f with
  | S754_zero _ => true
  | S754_finite false _ _ => true
  | _ => false
  end.

Definition value_bound : Z := 2 ^ (scale + 400).

Definition SFbounded (x : spec_float) : Prop := SFvalue x <= value_bound.

Definition fvalue (x : float) : Z := SFvalue (Prim2SF x).

(** [x] is a finite double with [0 <= x <= 2^400]. *)
Definition bounded64 (x : float) : Prop := nonneg_finite (Prim2SF x) = true /\ fvalue x <= value_bound.

Definition bounded64_b (x : float) : bool := nonneg_finite (Prim2SF x) && (fvalue x <=? value_bound).

(** [0 <= x <= y <= 2^400] *)
Definition le64 (x y : float) : Prop := bounded64 x /\ bounded64 y /\ fvalue x <= fvalue y.

(** Position of a float on the extended number line: the infinities lie
    below and above every scaled value. *)
Definition float_rank (x : spec_float) : Z * Z :=
  match x with
  | S754_infinity true => (-1, 0)
  | S754_infinity false => (1, 0)
  | S754_finite true m e => (0, - scaled (Zpos m) e)
  | S754_finite false m e => (0, scaled (Zpos m) e)
  | _ => (0, 0)
  end.

Definition rank_le (a b : Z * Z) : Prop := fst a < fst b \/ (fst a = fst b /\ snd a <= snd b).

(** What a shift register holds after [j - 1] right shifts of [N / 2]. *)
Definition shifted (N j : Z) (mrs : shr_record) : Prop :=
  shr_m mrs = N / 2 ^ j /\
  shr_r mrs = Z.odd (N / 2 ^ (j - 1)) /\
  shr_s mrs = negb (N mod 2 ^ (j - 1) =? 0).

Definition loc_bits (l : location) : Z :=
  match l with
  | loc_Exact => 0
  | loc_Inexact Lt => 1
  | loc_Inexact Eq => 2
  | loc_Inexact Gt => 3
  end.

(** The specification of floats is stated with the kernel's copies of the
    integer operations; [zfold] rewrites them to the library's. *)
Ltac zfold :=
  change IntDef.Z.sub with Z.sub in *; change IntDef.Z.add with Z.add in *;
  change IntDef.Z.mul with Z.mul in *; change IntDef.Z.opp with Z.opp in *;
  change IntDef.Z.leb with Z.leb in *; change IntDef.Z.eqb with Z.eqb in *;
  change IntDef.Z.compare with Z.compare in *; change IntDef.Z.max with Z.max in *;
  change IntDef.Z.min with Z.min in *; change IntDef.Z.even with Z.even in *;
  change IntDef.Z.div_eucl with Z.div_eucl in *; change IntDef.Z.shiftl with Z.shiftl in *;
  change PosDef.Pos.mul with Pos.mul in *; change @PosDef.Pos.iter with @Pos.iter in *;
  change PosDef.Pos.succ with Pos.succ in *;
  change PosDef.Pos.compare_cont with Pos.compare_cont in *.

(** * Binary64 arithmetic

    The float specification of the standard library computes each operation
    by shifting a mantissa and rounding it.  This part shows that the result
    is the exact result rounded to the nearest double, that this rounding is
    monotone, and derives the bounds the score fusion needs. *)

(** ** Rounding a quotient to the nearest integer *)

Lemma round_half_even_scale c N D : 0 < c -> 0 < D -> round_half_even (c * N) (c * D) = round_half_even N D.
Proof.
  intros Hc HD. unfold round_half_even.
  rewrite Z.div_mul_cancel_l by lia. rewrite Z.mul_mod_distr_l by lia.
  replace (2 * (c * (N mod D))) with (c * (2 * (N mod D))) by lia.
  rewrite <- Zmult_compare_compat_l by lia. reflexivity.
Qed.

Lemma round_half_even_exact q D : 0 < D -> round_half_even (q * D) D = q.
Proof.
  intros HD. unfold round_half_even. rewrite Z.div_mul by lia. rewrite Z.mod_mul by lia.
  destruct (Z.compare_spec (2 * 0) D); [lia|reflexivity|lia].
Qed.

Lemma round_half_even_bounds N D : 0 < D -> N / D <= round_half_even N D <= N / D + 1.
Proof.
  intros HD. unfold round_half_even. destruct (2 * (N mod D) ?= D); [destruct (Z.even (N / D))| |]; lia.
Qed.

(** Rounding a quotient is monotone in the numerator. *)
Lemma round_half_even_mono N N' D : 0 < D -> N <= N' -> round_half_even N D <= round_half_even N' D.
Proof.
  intros HD H. 
  assert (Hq : N / D <= N' / D) by (apply Z.div_le_mono; lia).
  destruct (Z.eq_dec (N / D) (N' / D)) as [e|ne].
  - assert (Hr : N mod D <= N' mod D).
    { rewrite (Z.div_mod N D), (Z.div_mod N' D) in H by lia. rewrite e in H. lia. }
    unfold round_half_even. rewrite <- e.
    destruct (Z.compare_spec (2 * (N mod D)) D); destruct (Z.compare_spec (2 * (N' mod D)) D);
      destruct (Z.even (N / D)); lia.
  - pose proof (round_half_even_bounds N D HD). pose proof (round_half_even_bounds N' D HD). lia.
Qed.

(** ** Binary digits *)

(** [digits2_pos p] is the number of binary digits of [p]. *)
Lemma digits2_bounds p :
  2 ^ (Zpos (digits2_pos p) - 1) <= Zpos p < 2 ^ Zpos (digits2_pos p).
Proof.
  induction p as [p IH|p IH|]; cbn [digits2_pos].
  - rewrite Pos2Z.inj_succ. replace (Z.succ (Zpos (digits2_pos p)) - 1) with (Z.succ (Zpos (digits2_pos p) - 1)) by lia.
    rewrite !Z.pow_succ_r by lia. lia.
  - rewrite Pos2Z.inj_succ. replace (Z.succ (Zpos (digits2_pos p)) - 1) with (Z.succ (Zpos (digits2_pos p) - 1)) by lia.
    rewrite !Z.pow_succ_r by lia. lia.
  - cbn. lia.
Qed.

Lemma log2_pos_digits m : Z.log2 (Zpos m) = Zpos (digits2_pos m) - 1.
Proof.
  apply Z.log2_unique; [lia|]. pose proof (digits2_bounds m).
  replace (Z.succ (Zpos (digits2_pos m) - 1)) with (Zpos (digits2_pos m)) by lia. lia.
Qed.

Lemma digits2_le m b : Zpos m < 2 ^ b -> Zpos (digits2_pos m) <= b.
Proof.
  intros H. pose proof (digits2_bounds m) as B.
  destruct (Z_le_gt_dec (Zpos (digits2_pos m)) b) as [l|g]; [exact l|exfalso].
  destruct (Z_lt_le_dec b 0) as [n|n]; [rewrite Z.pow_neg_r in H by lia; lia|].
  assert (2 ^ b <= 2 ^ (Zpos (digits2_pos m) - 1)) by (apply Z.pow_le_mono_r; lia). lia.
Qed.

Lemma digits2_mul a b :
  Zpos (digits2_pos (a * b)) <= Zpos (digits2_pos a) + Zpos (digits2_pos b).
Proof.
  apply digits2_le. pose proof (digits2_bounds a) as Ba. pose proof (digits2_bounds b) as Bb.
  rewrite Pos2Z.inj_mul, Z.pow_add_r by lia. apply Z.mul_lt_mono_nonneg; lia.
Qed.

Lemma digits2_add a b :
  Zpos (digits2_pos (a + b)) <= Z.max (Zpos (digits2_pos a)) (Zpos (digits2_pos b)) + 1.
Proof.
  apply digits2_le. pose proof (digits2_bounds a) as Ba. pose proof (digits2_bounds b) as Bb.
  set (d := Z.max (Zpos (digits2_pos a)) (Zpos (digits2_pos b))).
  assert (Ha : 2 ^ Zpos (digits2_pos a) <= 2 ^ d) by (apply Z.pow_le_mono_r; lia).
  assert (Hb : 2 ^ Zpos (digits2_pos b) <= 2 ^ d) by (apply Z.pow_le_mono_r; lia).
  rewrite Pos2Z.inj_add, Z.pow_add_r by lia. change (2 ^ 1) with 2. lia.
Qed.

Lemma digits2_mono a b : Zpos a <= Zpos b -> Zpos (digits2_pos a) <= Zpos (digits2_pos b).
Proof. intros H. apply digits2_le. pose proof (digits2_bounds b). lia. Qed.

Lemma Zdigits2_small m : 0 < m < 2 ^ 53 -> Zdigits2 m <= 53.
Proof.
  intros H. destruct m as [|p|p]; try lia. cbn [Zdigits2].
  pose proof (digits2_bounds p) as B.
  destruct (Z_le_gt_dec (Zpos (digits2_pos p)) 53) as [l|g]; [exact l|exfalso].
  assert (2 ^ 53 <= 2 ^ (Zpos (digits2_pos p) - 1)) by (apply Z.pow_le_mono_r; lia). lia.
Qed.

Lemma Zdigits2_large m : 2 ^ 52 <= m -> 53 <= Zdigits2 m.
Proof.
  intros H. destruct m as [|p|p]; try lia. cbn [Zdigits2].
  pose proof (digits2_bounds p) as B.
  destruct (Z_le_gt_dec 53 (Zpos (digits2_pos p))) as [l|g]; [exact l|exfalso].
  assert (2 ^ Zpos (digits2_pos p) <= 2 ^ 52) by (apply Z.pow_le_mono_r; lia). lia.
Qed.

Lemma Zdigits2_bounds q : 0 < q -> 2 ^ (Zdigits2 q - 1) <= q < 2 ^ Zdigits2 q.
Proof. intros H. destruct q as [|p|p]; try lia. apply digits2_bounds. Qed.

(** ** The shift register of the float specification *)

Lemma shr_1_nonneg m r s : 0 <= m ->
  shr_1 (Build_shr_record m r s) = Build_shr_record (m / 2) (Z.odd m) (r || s).
Proof.
  intros Hm. destruct m as [|[p|p|]|]; try lia; cbn [shr_1]; f_equal.
  - rewrite Pos2Z.inj_xI. apply Z.div_unique with 1; lia.
  - rewrite Pos2Z.inj_xO. apply Z.div_unique with 0; lia.
Qed.

(** One more right shift keeps the register in step with [N]. *)
Lemma shr_1_ok N j mrs : 0 <= N -> 1 <= j -> shifted N j mrs -> shifted N (j + 1) (shr_1 mrs).
Proof.
  intros HN Hj. destruct mrs as [m r s]. unfold shifted. cbn [shr_m shr_r shr_s].
  intros (Hm & Hr & Hs).
  assert (H0 : 0 <= m) by (subst m; apply Z.div_pos; [lia | apply Z.pow_pos_nonneg; lia]).
  rewrite shr_1_nonneg by assumption. cbn [shr_m shr_r shr_s].
  replace (j + 1 - 1) with j by lia.
  assert (P1 : 0 < 2 ^ (j - 1)) by (apply Z.pow_pos_nonneg; lia).
  assert (E : 2 ^ j = 2 ^ (j - 1) * 2).
  { replace j with (Z.succ (j - 1)) at 1 by lia. rewrite Z.pow_succ_r by lia. lia. }
  split; [|split].
  - subst m. rewrite Z.pow_add_r by lia. rewrite Z.pow_1_r. rewrite Z.div_div by lia. reflexivity.
  - now subst m.
  - subst r s. rewrite E. rewrite Z.rem_mul_r by lia.
    set (a := N / 2 ^ (j - 1)). set (b := N mod 2 ^ (j - 1)).
    assert (Hb : 0 <= b < 2 ^ (j - 1)) by (apply Z.mod_pos_bound; lia).
    rewrite Zodd_mod. 
    assert (Ha : 0 <= a mod 2 < 2) by (apply Z.mod_pos_bound; lia).
    destruct (Z.eqb_spec (a mod 2) 1) as [e|e]; destruct (Z.eqb_spec b 0) as [e'|e']; cbn;
      symmetry; try (apply Z.eqb_neq); try (apply Z.eqb_eq); nia.
Qed.

Lemma iter_shr_ok N p : 0 <= N -> forall j mrs, 1 <= j -> shifted N j mrs ->
  shifted N (j + Zpos p) (iter_pos shr_1 p mrs).
Proof.
  intros HN. induction p as [p IH|p IH|]; intros j mrs Hj H; cbn [iter_pos].
  - replace (j + Zpos p~1) with (((j + 1) + Zpos p) + Zpos p) by lia.
    apply IH; [lia|]. apply IH; [lia|]. now apply shr_1_ok.
  - replace (j + Zpos p~0) with ((j + Zpos p) + Zpos p) by lia.
    apply IH; [lia|]. now apply IH.
  - now apply shr_1_ok.
Qed.

(** The rounding decision read off the register is [round_half_even]. *)
Lemma round_nearest_even_spec N j mrs : 0 <= N -> 1 <= j -> shifted N j mrs ->
  round_nearest_even (shr_m mrs) (loc_of_shr_record mrs) = round_half_even N (2 ^ j).
Proof.
  intros HN Hj (Hm & Hr & Hs). destruct mrs as [m r s]. cbn [shr_m shr_r shr_s] in *.
  assert (P1 : 0 < 2 ^ (j - 1)) by (apply Z.pow_pos_nonneg; lia).
  assert (E : 2 ^ j = 2 ^ (j - 1) * 2).
  { replace j with (Z.succ (j - 1)) at 1 by lia. rewrite Z.pow_succ_r by lia. lia. }
  unfold round_half_even. rewrite <- Hm.
  assert (R : N mod 2 ^ j = N mod 2 ^ (j - 1) + 2 ^ (j - 1) * ((N / 2 ^ (j - 1)) mod 2)).
  { rewrite E. apply Z.rem_mul_r; lia. }
  rewrite R. set (a := N / 2 ^ (j - 1)) in *. set (b := N mod 2 ^ (j - 1)) in *.
  assert (Hb : 0 <= b < 2 ^ (j - 1)) by (apply Z.mod_pos_bound; lia).
  assert (Ha : 0 <= a mod 2 < 2) by (apply Z.mod_pos_bound; lia).
  rewrite Zodd_mod in Hr.
  rewrite E. set (P := 2 ^ (j - 1)) in *.
  assert (Ht : a mod 2 = 1 \/ a mod 2 = 0) by lia.
  destruct Ht as [e|e]; rewrite e in *; destruct (Z.eqb_spec b 0) as [e'|e']; subst r s;
    cbv [loc_of_shr_record round_nearest_even negb Z.eqb Pos.eqb];
    destruct (Z.compare_spec (2 * (b + P * 1)) (P * 2));
    destruct (Z.compare_spec (2 * (b + P * 0)) (P * 2)); try reflexivity; exfalso; lia.
Qed.

Lemma shr_exact m e p : 0 <= m ->
  let r := shr (Build_shr_record m false false) e (Zpos p) in
  snd r = e + Zpos p /\
  round_nearest_even (shr_m (fst r)) (loc_of_shr_record (fst r)) = round_half_even m (2 ^ Zpos p) /\
  shr_m (fst r) = m / 2 ^ Zpos p.
Proof.
  intros Hm. cbn [shr fst snd].
  assert (H : shifted (2 * m) (1 + Zpos p) (iter_pos shr_1 p (Build_shr_record m false false))).
  { apply iter_shr_ok; [lia|lia|]. unfold shifted. cbn [shr_m shr_r shr_s].
    replace (1 - 1) with 0 by lia. rewrite Z.pow_0_r, Z.pow_1_r, Z.div_1_r, Z.mod_1_r.
    rewrite Z.mul_comm, Z.div_mul by lia. rewrite Z.mul_comm, Z.odd_mul. cbn. auto. }
  assert (P : 0 < 2 ^ Zpos p) by (apply Z.pow_pos_nonneg; lia).
  split; [reflexivity|]. split.
  - rewrite (round_nearest_even_spec (2 * m) (1 + Zpos p)); [|lia|lia|exact H].
    rewrite Z.pow_add_r by lia. rewrite Z.pow_1_r. apply round_half_even_scale; lia.
  - destruct H as (H & _). rewrite H. rewrite Z.pow_add_r by lia. rewrite Z.pow_1_r.
    rewrite Z.div_mul_cancel_l by lia. reflexivity.
Qed.

Lemma shifted_loc q l : 0 <= q -> shifted (4 * q + loc_bits l) 2 (shr_record_of_loc q l).
Proof.
  intros Hq. unfold shifted. change (2 ^ 2) with 4. change (2 ^ (2 - 1)) with 2.
  assert (B : 0 <= loc_bits l < 4) by (destruct l as [|[| |]]; cbn; lia).
  assert (D4 : (4 * q + loc_bits l) / 4 = q) by (symmetry; apply Z.div_unique with (loc_bits l); lia).
  destruct l as [|[| |]]; cbn [loc_bits shr_record_of_loc shr_m shr_r shr_s] in *;
    (split; [now rewrite D4|]).
  - replace (4 * q + 0) with ((2 * q) * 2) by lia. rewrite Z.div_mul, Z.mod_mul by lia.
    rewrite Z.odd_mul. split; reflexivity.
  - replace (4 * q + 2) with ((2 * q + 1) * 2) by lia. rewrite Z.div_mul, Z.mod_mul by lia.
    rewrite Z.add_comm, Z.odd_add_mul_2. split; reflexivity.
  - replace ((4 * q + 1) / 2) with (2 * q) by (apply Z.div_unique with 1; lia).
    replace ((4 * q + 1) mod 2) with 1 by (apply Z.mod_unique with (2 * q); lia).
    rewrite Z.odd_mul. split; reflexivity.
  - replace ((4 * q + 3) / 2) with (2 * q + 1) by (apply Z.div_unique with 1; lia).
    replace ((4 * q + 3) mod 2) with 1 by (apply Z.mod_unique with (2 * q + 1); lia).
    rewrite Z.add_comm, Z.odd_add_mul_2. split; reflexivity.
Qed.

Lemma shr_loc q l e n : 0 <= q -> 0 <= n ->
  let r := shr (shr_record_of_loc q l) e n in
  snd r = e + n /\
  round_nearest_even (shr_m (fst r)) (loc_of_shr_record (fst r))
    = round_half_even (4 * q + loc_bits l) (2 ^ (n + 2)).
Proof.
  intros Hq Hn. pose proof (shifted_loc q l Hq) as R0.
  assert (B : 0 <= loc_bits l < 4) by (destruct l as [|[| |]]; cbn; lia).
  destruct n as [|p|p]; [| |lia]; cbn [shr fst snd].
  - split; [lia|]. apply (round_nearest_even_spec _ 2); [lia|lia|exact R0].
  - split; [reflexivity|]. replace (Zpos p + 2) with (2 + Zpos p) by lia.
    apply round_nearest_even_spec; [lia|lia|]. apply iter_shr_ok; [lia|lia|exact R0].
Qed.

(** ** Scaled values *)

Lemma mag_scaled m e : -scale <= e -> Z.log2 (scaled (Zpos m) e) + 1 - scale = Zpos (digits2_pos m) + e.
Proof.
  intros He. unfold scaled. rewrite Z.log2_mul_pow2 by lia. rewrite log2_pos_digits. lia.
Qed.

Lemma scaled_pos m e : -scale <= e -> 0 < scaled (Zpos m) e.
Proof. intros. unfold scaled. apply Z.mul_pos_pos; [lia|apply Z.pow_pos_nonneg; lia]. Qed.

Lemma scaled_small_digits m e b : -scale <= e -> scaled (Zpos m) e <= 2 ^ (scale + b) ->
  Zpos (digits2_pos m) + e <= b + 1.
Proof.
  intros He H. rewrite <- mag_scaled by lia.
  assert (Z.log2 (scaled (Zpos m) e) <= Z.log2 (2 ^ (scale + b))) by (apply Z.log2_le_mono; lia).
  pose proof (scaled_pos m e He) as Pp.
  destruct (Z_lt_le_dec (scale + b) 0) as [n|n].
  - rewrite Z.pow_neg_r in H by lia. lia.
  - rewrite Z.log2_pow2 in H0 by lia. lia.
Qed.

Lemma ulp_exp_eq V : ulp_exp V = Z.max (Z.log2 V - 52) 1126.
Proof. unfold ulp_exp, fexp64. lia. Qed.

Lemma iter_xO m d : Zpos (Pos.iter xO m d) = Zpos m * 2 ^ Zpos d.
Proof.
  induction d as [|d IH] using Pos.peano_ind.
  - cbn [Pos.iter]. rewrite Pos2Z.inj_xO. change (2 ^ 1) with 2. lia.
  - rewrite Pos.iter_succ, Pos2Z.inj_xO, IH, Pos2Z.inj_succ, Z.pow_succ_r by lia. lia.
Qed.

(** Alignment changes the representation, not the value. *)
Lemma shl_align_spec m e e' : -scale <= e' ->
  let r := shl_align m e e' in
  scaled (Zpos (fst r)) (snd r) = scaled (Zpos m) e /\ snd r = Z.min e e'.
Proof.
  intros He'. unfold shl_align. zfold. destruct (e' - e) as [|d|d] eqn:Hd; cbn [fst snd].
  - split; [reflexivity|lia].
  - split; [reflexivity|lia].
  - split; [|lia]. rewrite iter_xO. unfold scaled.
    replace (e + scale) with (Zpos d + (e' + scale)) by lia.
    rewrite (Z.pow_add_r 2 (Zpos d) (e' + scale)) by lia. lia.
Qed.

(** Alignment keeps the magnitude. *)
Lemma shl_align_mag m e e' : -scale <= e -> -scale <= e' ->
  let r := shl_align m e e' in
  Zpos (digits2_pos (fst r)) + snd r = Zpos (digits2_pos m) + e.
Proof.
  intros He He'. destruct (shl_align_spec m e e' He') as [A1 A2]. cbv zeta.
  rewrite <- (mag_scaled (fst (shl_align m e e')) (snd (shl_align m e e'))) by lia.
  rewrite A1. now apply mag_scaled.
Qed.

Lemma scaled_mul mx ex my ey : -1074 <= ex -> -1074 <= ey ->
  scaled (Zpos (mx * my)) (ex + ey) = scaled (Zpos mx) ex * scaled (Zpos my) ey / 2 ^ scale.
Proof.
  intros Hx Hy. unfold scaled. rewrite Pos2Z.inj_mul.
  assert (E : 2 ^ (ex + scale) * 2 ^ (ey + scale) = 2 ^ (ex + ey + scale) * 2 ^ scale).
  { rewrite <- !Z.pow_add_r by lia. f_equal. lia. }
  assert (P : 2 ^ scale <> 0) by (apply Z.pow_nonzero; lia).
  revert E P. generalize (2 ^ scale), (2 ^ (ex + scale)), (2 ^ (ey + scale)), (2 ^ (ex + ey + scale)).
  intros u a b c E P.
  replace (Zpos mx * a * (Zpos my * b)) with (Zpos mx * Zpos my * c * u)
    by (rewrite <- !Z.mul_assoc; rewrite <- E; ring).
  now rewrite Z.div_mul.
Qed.

(** What validity says of a finite double. *)
Lemma valid_finite s m e : valid_binary (S754_finite s m e) = true ->
  Zpos (digits2_pos m) <= 53 /\ -1074 <= e <= 971 /\ (e = -1074 \/ Zpos (digits2_pos m) = 53).
Proof.
  cbn [SpecFloat.valid_binary]. unfold bounded, canonical_mantissa. zfold.
  change (fexp prec emax) with fexp64. unfold fexp64.
  intros H. apply andb_true_iff in H. destruct H as [H1 H2].
  apply Z.eqb_eq in H1. apply Z.leb_le in H2. change (emax - prec) with 971 in H2. lia.
Qed.

Lemma SFbounded_mag m e : -1074 <= e -> scaled (Zpos m) e <= value_bound -> Zpos (digits2_pos m) + e <= 401.
Proof. intros He H. apply (scaled_small_digits m e 400); [lia|exact H]. Qed.

Lemma SFvalue_nonneg x : valid_binary x = true -> 0 <= SFvalue x.
Proof.
  intros V. destruct x as [s|s| |[|] m e]; cbn [SFvalue]; try lia.
  apply valid_finite in V. pose proof (scaled_pos m e ltac:(lia)). lia.
Qed.

(** ** The rounding of the specification is rounding to nearest *)

(** [binary_round_aux] on an exact mantissa rounds its value to the nearest
    double. *)
Lemma round_aux_exact (m : positive) (e : Z) :
  -scale <= e <= 960 -> Zpos (digits2_pos m) + e <= 1020 ->
  let r := binary_round_aux prec emax false (Zpos m) e loc_Exact in
  nonneg_finite r = true /\ SFvalue r = nearest64 (scaled (Zpos m) e).
Proof.
  intros He Hd. cbv zeta.
  unfold nearest64, ulp_exp. rewrite mag_scaled by lia.
  pose proof (digits2_bounds m) as B. remember (Zpos (digits2_pos m)) as d eqn:Hdd.
  unfold binary_round_aux, shr_fexp. cbn [Zdigits2]. zfold.
  change (fexp prec emax) with fexp64. rewrite <- !Hdd.
  remember (fexp64 (d + e)) as E eqn:HEd.
  assert (HE : E = Z.max (d + e - 53) (-1074)) by (now subst E).
  assert (Hcase : E - e <= 0 \/ exists p, E - e = Zpos p).
  { destruct (E - e) as [|p|p]; [left; lia|right; now exists p|left; lia]. }
  destruct Hcase as [Hn|[p Hp]].
  - (* no shift: the mantissa is kept *)
    assert (S1 : shr (shr_record_of_loc (Zpos m) loc_Exact) e (E - e)
                 = (Build_shr_record (Zpos m) false false, e)).
    { destruct (E - e); try reflexivity. lia. }
    rewrite S1. cbn [shr_m loc_of_shr_record round_nearest_even Zdigits2].
    rewrite <- Hdd, <- HEd. rewrite S1. cbn [shr_m].
    replace (e <=? emax - prec) with true by (symmetry; apply Z.leb_le; cbn; lia).
    split; [reflexivity|]. cbn [SFvalue].
    unfold scaled. replace (e + scale) with ((e - E) + (E + scale)) by lia.
    rewrite (Z.pow_add_r 2 (e - E) (E + scale)) by lia. rewrite Z.mul_assoc.
    rewrite round_half_even_exact by (apply Z.pow_pos_nonneg; lia). reflexivity.
  - rewrite Hp.
    destruct (shr_exact (Zpos m) e p ltac:(lia)) as (A1 & A2 & A3).
    cbn [shr_record_of_loc].
    destruct (shr (Build_shr_record (Zpos m) false false) e (Zpos p)) as [mrs' e'] eqn:Hs.
    cbn [fst snd] in A1, A2, A3. rewrite A2. subst e'.
    assert (P : 0 < 2 ^ Zpos p) by (apply Z.pow_pos_nonneg; lia).
    assert (HE' : e + Zpos p = E) by lia. rewrite HE'.
    set (m2 := round_half_even (Zpos m) (2 ^ Zpos p)).
    assert (Hval : round_half_even (scaled (Zpos m) e) (2 ^ (E + scale)) = m2).
    { unfold scaled, m2. replace (E + scale) with ((e + scale) + Zpos p) by lia.
      rewrite (Z.pow_add_r 2 (e + scale) (Zpos p)) by lia.
      rewrite (Z.mul_comm (Zpos m)). apply round_half_even_scale; [apply Z.pow_pos_nonneg; lia|lia]. }
    rewrite Hval.
    assert (Hm2 : 0 <= m2 <= 2 ^ 53).
    { pose proof (round_half_even_bounds (Zpos m) (2 ^ Zpos p) P) as RB. fold m2 in RB.
      assert (0 <= Zpos m / 2 ^ Zpos p) by (apply Z.div_pos; lia).
      assert (Zpos m / 2 ^ Zpos p < 2 ^ 53).
      { apply Z.div_lt_upper_bound; [lia|]. rewrite <- Z.pow_add_r by lia.
        apply Z.lt_le_trans with (2 ^ d); [lia|]. apply Z.pow_le_mono_r; lia. }
      lia. }
    destruct (Z.eq_dec m2 0) as [z|nz]; [|destruct (Z.eq_dec m2 (2 ^ 53)) as [t|nt]].
    + rewrite z. cbn [Zdigits2].
      assert (S2 : shr (Build_shr_record 0 false false) E (fexp64 (0 + E) - E)
                   = (Build_shr_record 0 false false, E)).
      { unfold fexp64. destruct (Z.max (0 + E - 53) (-1074) - E) eqn:Q; try reflexivity. lia. }
      rewrite S2. cbn. split; reflexivity.
    + rewrite t.
      assert (S2 : shr (Build_shr_record (2 ^ 53) false false) E (fexp64 (Zdigits2 (2 ^ 53) + E) - E)
                   = (Build_shr_record (2 ^ 52) false false, E + 1)).
      { replace (Zdigits2 (2 ^ 53)) with 54 by reflexivity. unfold fexp64.
        replace (Z.max (54 + E - 53) (-1074) - E) with 1 by lia. reflexivity. }
      rewrite S2. cbn [shr_m]. change (2 ^ 52) with (Zpos (2 ^ 52)%positive).
      cbv iota. replace (E + 1 <=? emax - prec) with true by (symmetry; apply Z.leb_le; cbn; lia).
      split; [reflexivity|]. cbn [SFvalue]. unfold scaled.
      replace (E + 1 + scale) with (1 + (E + scale)) by lia. rewrite (Z.pow_add_r 2 1 (E + scale)) by lia.
      change (Zpos (2 ^ 52)%positive) with (2 ^ 52). change (2 ^ 53) with (2 ^ 52 * 2 ^ 1). lia.
    + assert (D2 : Zdigits2 m2 <= 53) by (apply Zdigits2_small; lia).
      assert (S2 : shr (Build_shr_record m2 false false) E (fexp64 (Zdigits2 m2 + E) - E)
                   = (Build_shr_record m2 false false, E)).
      { unfold fexp64. destruct (Z.max (Zdigits2 m2 + E - 53) (-1074) - E) eqn:Q; try reflexivity. lia. }
      rewrite S2. cbn [shr_m]. destruct m2 as [|q|q] eqn:Hq; try lia.
      replace (E <=? emax - prec) with true by (symmetry; apply Z.leb_le; cbn; lia).
      split; reflexivity.
Qed.

(** [binary_round_aux] started from a quotient [q] and the location of the
    remainder: the result is a valid double and its value is the rounding of
    [q + loc/4] at the exponent of the format. *)
Lemma round_aux_spec q l e : 0 < q -> -scale <= e ->
  let E := fexp64 (Zdigits2 q + e) in
  e <= E <= 960 ->
  let r := binary_round_aux prec emax false q e l in
  valid_binary r = true /\ nonneg_finite r = true /\
  SFvalue r = round_half_even (4 * q + loc_bits l) (2 ^ (E - e + 2)) * 2 ^ (E + scale).
Proof.
  intros Hq He E HE. cbv zeta.
  unfold binary_round_aux, shr_fexp. zfold. change (fexp prec emax) with fexp64. fold E.
  pose proof (Zdigits2_bounds q Hq) as Bq.
  assert (HEq : E = Z.max (Zdigits2 q + e - 53) (-1074)) by reflexivity.
  clearbody E.
  destruct (shr_loc q l e (E - e) ltac:(lia) ltac:(lia)) as [A1 A2].
  destruct (shr (shr_record_of_loc q l) e (E - e)) as [mrs' e'].
  cbn [fst snd] in A1, A2. rewrite A2. replace e' with E by lia. clear A1 A2 e' mrs'.
  assert (Bl : 0 <= loc_bits l < 4) by (destruct l as [|[| |]]; cbn; lia).
  set (n := E - e) in *. assert (Hn : 0 <= n) by lia.
  assert (Pn : 0 < 2 ^ n) by (apply Z.pow_pos_nonneg; lia).
  set (N := 4 * q + loc_bits l). set (m2 := round_half_even N (2 ^ (n + 2))).
  assert (DN : N / 2 ^ (n + 2) = q / 2 ^ n).
  { rewrite (Z.pow_add_r 2 n 2), (Z.mul_comm (2 ^ n)) by lia. rewrite <- Z.div_div by lia.
    f_equal. unfold N. symmetry. apply Z.div_unique with (loc_bits l); lia. }
  assert (RB : q / 2 ^ n <= m2 <= q / 2 ^ n + 1).
  { rewrite <- DN. apply round_half_even_bounds. apply Z.pow_pos_nonneg; lia. }
  assert (Qu : q / 2 ^ n < 2 ^ 53).
  { apply Z.div_lt_upper_bound; [lia|]. rewrite <- Z.pow_add_r by lia.
    apply Z.lt_le_trans with (2 ^ Zdigits2 q); [lia|]. apply Z.pow_le_mono_r; lia. }
  assert (Ql : -1074 < E -> 2 ^ 52 <= q / 2 ^ n).
  { intros HE1. apply Z.div_le_lower_bound; [lia|]. rewrite <- Z.pow_add_r by lia.
    apply Z.le_trans with (2 ^ (Zdigits2 q - 1)); [|lia]. apply Z.pow_le_mono_r; lia. }
  assert (Q0 : 0 <= q / 2 ^ n) by (apply Z.div_pos; lia).
  destruct (Z.eq_dec m2 0) as [z|nz]; [|destruct (Z.eq_dec m2 (2 ^ 53)) as [t|nt]].
  - rewrite z. cbn [Zdigits2].
    assert (S2 : shr (shr_record_of_loc 0 loc_Exact) E (fexp64 (0 + E) - E)
                 = (Build_shr_record 0 false false, E)).
    { unfold fexp64. destruct (Z.max (0 + E - 53) (-1074) - E) eqn:Q; try reflexivity. lia. }
    rewrite S2. cbn. repeat split.
  - rewrite t.
    assert (S2 : shr (shr_record_of_loc (2 ^ 53) loc_Exact) E (fexp64 (Zdigits2 (2 ^ 53) + E) - E)
                 = (Build_shr_record (2 ^ 52) false false, E + 1)).
    { replace (Zdigits2 (2 ^ 53)) with 54 by reflexivity. unfold fexp64.
      replace (Z.max (54 + E - 53) (-1074) - E) with 1 by lia. reflexivity. }
    rewrite S2. cbn [shr_m]. change (2 ^ 52) with (Zpos (2 ^ 52)%positive).
    cbv iota. replace (E + 1 <=? emax - prec) with true by (symmetry; apply Z.leb_le; cbn; lia).
    split; [|split; [reflexivity|]].
    + cbn [SpecFloat.valid_binary]. unfold bounded, canonical_mantissa. zfold.
      change (fexp prec emax) with fexp64. change (Zpos (digits2_pos (2 ^ 52))) with 53.
      apply andb_true_iff. split; [apply Z.eqb_eq; unfold fexp64; lia|apply Z.leb_le; cbn; lia].
    + cbn [SFvalue]. unfold scaled.
      replace (E + 1 + scale) with (1 + (E + scale)) by lia. rewrite (Z.pow_add_r 2 1 (E + scale)) by lia.
      change (Zpos (2 ^ 52)%positive) with (2 ^ 52). change (2 ^ 53) with (2 ^ 52 * 2 ^ 1). lia.
  - assert (D2 : Zdigits2 m2 <= 53) by (apply Zdigits2_small; lia).
    assert (D3 : -1074 < E -> 53 <= Zdigits2 m2) by (intros; apply Zdigits2_large; lia).
    assert (S2 : shr (shr_record_of_loc m2 loc_Exact) E (fexp64 (Zdigits2 m2 + E) - E)
                 = (Build_shr_record m2 false false, E)).
    { unfold fexp64. destruct (Z.max (Zdigits2 m2 + E - 53) (-1074) - E) eqn:Q; try reflexivity. lia. }
    rewrite S2. cbn [shr_m]. destruct m2 as [|p|p] eqn:Hq2; try lia.
    replace (E <=? emax - prec) with true by (symmetry; apply Z.leb_le; cbn; lia).
    split; [|split; reflexivity].
    cbn [SpecFloat.valid_binary]. unfold bounded, canonical_mantissa. zfold.
    change (fexp prec emax) with fexp64. cbn [Zdigits2] in D2, D3.
    apply andb_true_iff. split; [apply Z.eqb_eq; unfold fexp64; lia|apply Z.leb_le; cbn; lia].
Qed.

Lemma binary_round_spec m e : -1074 <= e <= 971 -> Zpos (digits2_pos m) + e <= 1001 ->
  let r := binary_round prec emax false m e in
  nonneg_finite r = true /\ SFvalue r = nearest64 (scaled (Zpos m) e).
Proof.
  intros He Hd. cbv zeta. unfold binary_round. zfold. change (fexp prec emax) with fexp64.
  pose proof (shl_align_spec m e (fexp64 (Zpos (digits2_pos m) + e)) ltac:(unfold fexp64; lia)) as A.
  pose proof (shl_align_mag m e (fexp64 (Zpos (digits2_pos m) + e)) ltac:(lia)
                ltac:(unfold fexp64; lia)) as M.
  cbv zeta in A, M. destruct (shl_align m e (fexp64 (Zpos (digits2_pos m) + e))) as [mz ez].
  cbn [fst snd] in A, M. destruct A as [A1 A2]. rewrite <- A1.
  assert (-1074 <= ez <= 960) by (unfold fexp64 in A2; lia).
  apply round_aux_exact; lia.
Qed.

Lemma binary_round_valid m e : -1074 <= e <= 971 -> Zpos (digits2_pos m) + e <= 1001 ->
  valid_binary (binary_round prec emax false m e) = true.
Proof.
  intros He Hd. unfold binary_round. zfold. change (fexp prec emax) with fexp64.
  pose proof (shl_align_spec m e (fexp64 (Zpos (digits2_pos m) + e)) ltac:(unfold fexp64; lia)) as A.
  pose proof (shl_align_mag m e (fexp64 (Zpos (digits2_pos m) + e)) ltac:(lia)
                ltac:(unfold fexp64; lia)) as Hmag.
  cbv zeta in A, Hmag. destruct (shl_align m e (fexp64 (Zpos (digits2_pos m) + e))) as [mz ez].
  cbn [fst snd] in A, Hmag. destruct A as [A1 A2].
  pose proof (round_aux_spec (Zpos mz) loc_Exact ez ltac:(lia)) as C.
  cbv zeta in C. cbn [Zdigits2] in C. rewrite Hmag in C.
  apply C; unfold fexp64 in *; lia.
Qed.

Lemma nearest64_canon s m e : valid_binary (S754_finite s m e) = true ->
  nearest64 (scaled (Zpos m) e) = scaled (Zpos m) e.
Proof.
  intros V. apply valid_finite in V. unfold nearest64, ulp_exp. rewrite mag_scaled by lia.
  replace (fexp64 (Zpos (digits2_pos m) + e)) with e by (unfold fexp64; lia).
  unfold scaled. apply (f_equal (fun t => t * 2 ^ (e + scale))).
  apply round_half_even_exact. apply Z.pow_pos_nonneg; lia.
Qed.

Lemma nearest64_SFvalue x : valid_binary x = true -> nearest64 (SFvalue x) = SFvalue x.
Proof.
  intros V. destruct x as [s|s| |[|] m e]; try reflexivity. cbn [SFvalue]. now apply nearest64_canon with false.
Qed.

(** ** Rounding is monotone *)

(** Rounding to the nearest double is monotone. *)
Lemma nearest64_mono V V' : 0 <= V <= V' -> nearest64 V <= nearest64 V'.
Proof.
  intros HV. unfold nearest64.
  pose proof (ulp_exp_eq V) as HL. pose proof (ulp_exp_eq V') as HL'.
  assert (Hlog : Z.log2 V <= Z.log2 V') by (apply Z.log2_le_mono; lia).
  set (L := ulp_exp V) in *. set (L' := ulp_exp V') in *.
  assert (P : 0 < 2 ^ L) by (apply Z.pow_pos_nonneg; lia).
  assert (P' : 0 < 2 ^ L') by (apply Z.pow_pos_nonneg; lia).
  destruct (Z.eq_dec L L') as [e|ne].
  - rewrite <- e. apply Z.mul_le_mono_nonneg_r; [lia|]. apply round_half_even_mono; lia.
  - assert (Hlt : L < L') by lia.
    destruct (Z.eq_dec V 0) as [z|nz].
    { subst V. unfold round_half_even at 1. rewrite Z.div_0_l, Z.mod_0_l by lia.
      destruct (Z.compare_spec (2 * 0) (2 ^ L)); try lia. cbn [Z.mul].
      pose proof (round_half_even_bounds V' _ P'). assert (0 <= V' / 2 ^ L') by (apply Z.div_pos; lia). nia. }
    assert (HVp : 0 < V) by lia. assert (HVp' : 0 < V') by lia.
    pose proof (Z.log2_spec V HVp) as S. pose proof (Z.log2_spec V' HVp') as S'.
    assert (U : V < 2 ^ (L + 53)).
    { apply Z.lt_le_trans with (2 ^ Z.succ (Z.log2 V)); [lia|]. apply Z.pow_le_mono_r; lia. }
    assert (Lw : 2 ^ (L' + 52) <= V').
    { apply Z.le_trans with (2 ^ Z.log2 V'); [|lia]. apply Z.pow_le_mono_r; lia. }
    assert (M : 2 ^ (L + 53) <= 2 ^ (L' + 52)) by (apply Z.pow_le_mono_r; lia).
    rewrite (Z.pow_add_r 2 L 53) in U, M by lia.
    rewrite (Z.pow_add_r 2 L' 52) in Lw, M by lia.
    pose proof (round_half_even_bounds V _ P) as B. pose proof (round_half_even_bounds V' _ P') as B'.
    assert (Q : V / 2 ^ L < 2 ^ 53) by (apply Z.div_lt_upper_bound; lia).
    assert (Q' : 2 ^ 52 <= V' / 2 ^ L') by (apply Z.div_le_lower_bound; lia).
    apply Z.le_trans with (2 ^ 53 * 2 ^ L); [apply Z.mul_le_mono_nonneg_r; lia|].
    apply Z.le_trans with (2 ^ 52 * 2 ^ L'); [lia|apply Z.mul_le_mono_nonneg_r; lia].
Qed.

(** ** Comparisons *)

Lemma scaled_lt_exp s1 s2 m1 e1 m2 e2 :
  valid_binary (S754_finite s1 m1 e1) = true -> valid_binary (S754_finite s2 m2 e2) = true ->
  e1 < e2 -> scaled (Zpos m1) e1 < scaled (Zpos m2) e2.
Proof.
  intros V1 V2 H. apply valid_finite in V1, V2.
  pose proof (digits2_bounds m1) as B1. pose proof (digits2_bounds m2) as B2.
  destruct V1 as (D1 & E1 & _). destruct V2 as (D2 & E2 & [C2|C2]); [lia|].
  rewrite C2 in B2. change (53 - 1) with 52 in B2.
  assert (U1 : Zpos m1 < 2 ^ 53).
  { apply Z.lt_le_trans with (2 ^ Zpos (digits2_pos m1)); [lia|]. apply Z.pow_le_mono_r; lia. }
  unfold scaled.
  assert (P1 : 0 < 2 ^ (e1 + scale)) by (apply Z.pow_pos_nonneg; lia).
  assert (P2 : 0 < 2 ^ (e2 + scale)) by (apply Z.pow_pos_nonneg; lia).
  assert (M : 2 ^ (e1 + scale + 53) <= 2 ^ (e2 + scale + 52)) by (apply Z.pow_le_mono_r; lia).
  rewrite (Z.pow_add_r 2 (e1 + scale) 53) in M by lia.
  rewrite (Z.pow_add_r 2 (e2 + scale) 52) in M by lia.
  apply Z.lt_le_trans with (2 ^ (e1 + scale) * 2 ^ 53); [nia|].
  apply Z.le_trans with (2 ^ (e2 + scale) * 2 ^ 52); [lia|]. nia.
Qed.

(** On valid non-negative doubles [SFleb] is the order of the values. *)
Lemma SFleb_SFvalue x y :
  valid_binary x = true -> valid_binary y = true -> nonneg_finite x = true -> nonneg_finite y = true ->
  SFleb x y = (SFvalue x <=? SFvalue y).
Proof.
  intros Vx Vy Nx Ny.
  destruct x as [sx|sx| |sx mx ex]; try discriminate Nx;
  destruct y as [sy|sy| |sy my ey]; try discriminate Ny.
  - reflexivity.
  - destruct sy; [discriminate Ny|]. cbn [SFvalue]. apply valid_finite in Vy.
    pose proof (scaled_pos my ey ltac:(lia)). change (true = (0 <=? scaled (Zpos my) ey)).
    symmetry. apply Z.leb_le. lia.
  - destruct sx; [discriminate Nx|]. cbn [SFvalue]. apply valid_finite in Vx.
    pose proof (scaled_pos mx ex ltac:(lia)). change (false = (scaled (Zpos mx) ex <=? 0)).
    symmetry. apply Z.leb_gt. lia.
  - destruct sx; [discriminate Nx|]. destruct sy; [discriminate Ny|]. cbn [SFvalue].
    unfold SFleb, SFcompare. zfold.
    destruct (Z.compare_spec ex ey) as [e|l|g].
    + subst ey. rewrite Pos.compare_cont_spec. cbn [Pos.switch_Eq].
      apply valid_finite in Vx.
      assert (P : 0 < 2 ^ (ex + scale)) by (apply Z.pow_pos_nonneg; lia). unfold scaled.
      destruct (Pos.compare_spec mx my) as [e|l|g]; symmetry.
      * subst. apply Z.leb_le. lia.
      * apply Z.leb_le. apply Z.mul_le_mono_nonneg_r; lia.
      * apply Z.leb_gt. apply Z.mul_lt_mono_pos_r; lia.
    + symmetry. apply Z.leb_le. pose proof (scaled_lt_exp _ _ _ _ _ _ Vx Vy l). lia.
    + symmetry. apply Z.leb_gt. apply (scaled_lt_exp _ _ _ _ _ _ Vy Vx). lia.
Qed.

Lemma SFltb_SFvalue x y :
  valid_binary x = true -> valid_binary y = true -> nonneg_finite x = true -> nonneg_finite y = true ->
  SFltb x y = (SFvalue x <? SFvalue y).
Proof.
  intros Vx Vy Nx Ny.
  destruct x as [sx|sx| |sx mx ex]; try discriminate Nx;
  destruct y as [sy|sy| |sy my ey]; try discriminate Ny.
  - reflexivity.
  - destruct sy; [discriminate Ny|]. cbn [SFvalue]. apply valid_finite in Vy.
    pose proof (scaled_pos my ey ltac:(lia)). change (true = (0 <? scaled (Zpos my) ey)).
    symmetry. apply Z.ltb_lt. lia.
  - destruct sx; [discriminate Nx|]. cbn [SFvalue]. apply valid_finite in Vx.
    pose proof (scaled_pos mx ex ltac:(lia)). change (false = (scaled (Zpos mx) ex <? 0)).
    symmetry. apply Z.ltb_ge. lia.
  - destruct sx; [discriminate Nx|]. destruct sy; [discriminate Ny|]. cbn [SFvalue].
    unfold SFltb, SFcompare. zfold.
    destruct (Z.compare_spec ex ey) as [e|l|g].
    + subst ey. rewrite Pos.compare_cont_spec. cbn [Pos.switch_Eq].
      apply valid_finite in Vx.
      assert (P : 0 < 2 ^ (ex + scale)) by (apply Z.pow_pos_nonneg; lia). unfold scaled.
      destruct (Pos.compare_spec mx my) as [e|l|g]; symmetry.
      * subst. apply Z.ltb_ge. lia.
      * apply Z.ltb_lt. apply Z.mul_lt_mono_pos_r; lia.
      * apply Z.ltb_ge. apply Z.mul_le_mono_nonneg_r; lia.
    + symmetry. apply Z.ltb_lt. apply (scaled_lt_exp _ _ _ _ _ _ Vx Vy l).
    + symmetry. apply Z.ltb_ge. pose proof (scaled_lt_exp _ _ _ _ _ _ Vy Vx ltac:(lia)). lia.
Qed.

Lemma SFleb_neg m1 e1 m2 e2 :
  SFleb (S754_finite true m1 e1) (S754_finite true m2 e2)
  = SFleb (S754_finite false m2 e2) (S754_finite false m1 e1).
Proof.
  unfold SFleb, SFcompare. zfold. rewrite (Z.compare_antisym e1 e2).
  destruct (e1 ?= e2); cbn [CompOpp]; try reflexivity.
  rewrite !Pos.compare_cont_spec. cbn [Pos.switch_Eq]. rewrite (Pos.compare_antisym m1 m2).
  now destruct (m1 ?= m2)%positive.
Qed.

(** ** Products, sums and differences *)

(** The product of two doubles is the rounding of the exact product. *)
Lemma SFmul_spec x y :
  valid_binary x = true -> valid_binary y = true -> nonneg_finite x = true -> nonneg_finite y = true ->
  SFbounded x -> SFbounded y ->
  nonneg_finite (SF64mul x y) = true /\ SFvalue (SF64mul x y) = nearest64 (SFvalue x * SFvalue y / 2 ^ scale).
Proof.
  intros Vx Vy Nx Ny Sx Sy.
  destruct x as [sx|sx| |sx mx ex]; try discriminate Nx;
  destruct y as [sy|sy| |sy my ey]; try discriminate Ny.
  - split; reflexivity.
  - split; reflexivity.
  - destruct sx; [discriminate Nx|]. split; [reflexivity|].
    cbn [SFvalue SF64mul SFmul]. rewrite Z.mul_0_r, Z.div_0_l by (apply Z.pow_nonzero; lia). reflexivity.
  - destruct sx; [discriminate Nx|]. destruct sy; [discriminate Ny|].
    unfold SFbounded in *. cbn [SFvalue] in *. unfold SF64mul, SFmul. zfold. cbn [xorb].
    pose proof (valid_finite _ _ _ Vx) as (Dx & Ex & _).
    pose proof (valid_finite _ _ _ Vy) as (Dy & Ey & _).
    pose proof (SFbounded_mag mx ex ltac:(lia) Sx) as Mx.
    pose proof (SFbounded_mag my ey ltac:(lia) Sy) as My.
    pose proof (digits2_mul mx my) as Dm.
    rewrite <- scaled_mul by lia. clear Sx Sy. apply round_aux_exact; lia.
Qed.

(** The sum of two doubles is the rounding of the exact sum. *)
Lemma SFadd_spec x y :
  valid_binary x = true -> valid_binary y = true -> nonneg_finite x = true -> nonneg_finite y = true ->
  SFbounded x -> SFbounded y ->
  nonneg_finite (SF64add x y) = true /\ SFvalue (SF64add x y) = nearest64 (SFvalue x + SFvalue y).
Proof.
  intros Vx Vy Nx Ny Sx Sy.
  destruct x as [sx|sx| |sx mx ex]; try discriminate Nx;
  destruct y as [sy|sy| |sy my ey]; try discriminate Ny.
  - destruct sx, sy; split; reflexivity.
  - split; [exact Ny|]. change (SF64add (S754_zero sx) (S754_finite sy my ey)) with (S754_finite sy my ey).
    change (SFvalue (S754_zero sx)) with 0. rewrite Z.add_0_l. symmetry. now apply nearest64_SFvalue.
  - split; [exact Nx|]. change (SF64add (S754_finite sx mx ex) (S754_zero sy)) with (S754_finite sx mx ex).
    change (SFvalue (S754_zero sy)) with 0. rewrite Z.add_0_r. symmetry. now apply nearest64_SFvalue.
  - destruct sx; [discriminate Nx|]. destruct sy; [discriminate Ny|].
    unfold SFbounded in *. cbn [SFvalue] in *. unfold SF64add, SFadd. zfold. cbn [cond_Zopp].
    pose proof (valid_finite _ _ _ Vx) as (Dx & Ex & _).
    pose proof (valid_finite _ _ _ Vy) as (Dy & Ey & _).
    pose proof (SFbounded_mag mx ex ltac:(lia) Sx) as Mx.
    pose proof (SFbounded_mag my ey ltac:(lia) Sy) as My. clear Sx Sy.
    pose proof (shl_align_spec mx ex (Z.min ex ey) ltac:(lia)) as Ax.
    pose proof (shl_align_spec my ey (Z.min ex ey) ltac:(lia)) as Ay.
    pose proof (shl_align_mag mx ex (Z.min ex ey) ltac:(lia) ltac:(lia)) as Gx.
    pose proof (shl_align_mag my ey (Z.min ex ey) ltac:(lia) ltac:(lia)) as Gy.
    cbv zeta in Ax, Ay, Gx, Gy.
    destruct (shl_align mx ex (Z.min ex ey)) as [mx' ex'].
    destruct (shl_align my ey (Z.min ex ey)) as [my' ey'].
    cbn [fst snd] in *. destruct Ax as [Ax1 Ax2]. destruct Ay as [Ay1 Ay2].
    assert (Hx' : ex' = Z.min ex ey) by lia. assert (Hy' : ey' = Z.min ex ey) by lia.
    clear Ax2 Ay2. subst ex' ey'.
    change (Zpos mx' + Zpos my') with (Zpos (mx' + my')). cbn [binary_normalize].
    assert (E : scaled (Zpos (mx' + my')) (Z.min ex ey) = scaled (Zpos mx) ex + scaled (Zpos my) ey).
    { rewrite <- Ax1, <- Ay1. unfold scaled. rewrite Pos2Z.inj_add. ring. }
    rewrite <- E. pose proof (digits2_add mx' my') as Da.
    apply binary_round_spec; lia.
Qed.

(** A non-negative difference of two doubles is the rounding of the exact
    difference. *)
Lemma SFsub_spec x y :
  valid_binary x = true -> valid_binary y = true -> nonneg_finite x = true -> nonneg_finite y = true ->
  SFbounded x -> SFbounded y -> SFvalue y <= SFvalue x ->
  nonneg_finite (SF64sub x y) = true /\ SFvalue (SF64sub x y) = nearest64 (SFvalue x - SFvalue y).
Proof.
  intros Vx Vy Nx Ny Sx Sy Hle.
  destruct x as [sx|sx| |sx mx ex]; try discriminate Nx;
  destruct y as [sy|sy| |sy my ey]; try discriminate Ny.
  - destruct sx, sy; split; reflexivity.
  - exfalso. destruct sy; [discriminate Ny|]. cbn [SFvalue] in Hle.
    pose proof (valid_finite _ _ _ Vy) as (Dy & Ey & _).
    pose proof (scaled_pos my ey ltac:(lia)). lia.
  - split; [exact Nx|]. change (SF64sub (S754_finite sx mx ex) (S754_zero sy)) with (S754_finite sx mx ex).
    change (SFvalue (S754_zero sy)) with 0. rewrite Z.sub_0_r. symmetry. now apply nearest64_SFvalue.
  - destruct sx; [discriminate Nx|]. destruct sy; [discriminate Ny|].
    unfold SFbounded in *. cbn [SFvalue] in *. unfold SF64sub, SFsub. zfold. cbn [cond_Zopp].
    pose proof (valid_finite _ _ _ Vx) as (Dx & Ex & _).
    pose proof (valid_finite _ _ _ Vy) as (Dy & Ey & _).
    pose proof (SFbounded_mag mx ex ltac:(lia) Sx) as Mx. clear Sx Sy.
    pose proof (shl_align_spec mx ex (Z.min ex ey) ltac:(lia)) as Ax.
    pose proof (shl_align_spec my ey (Z.min ex ey) ltac:(lia)) as Ay.
    pose proof (shl_align_mag mx ex (Z.min ex ey) ltac:(lia) ltac:(lia)) as Gx.
    cbv zeta in Ax, Ay, Gx.
    destruct (shl_align mx ex (Z.min ex ey)) as [mx' ex'].
    destruct (shl_align my ey (Z.min ex ey)) as [my' ey'].
    cbn [fst snd] in *. destruct Ax as [Ax1 Ax2]. destruct Ay as [Ay1 Ay2].
    assert (Hx' : ex' = Z.min ex ey) by lia. assert (Hy' : ey' = Z.min ex ey) by lia.
    clear Ax2 Ay2. subst ex' ey'.
    assert (E : scaled (Zpos mx' - Zpos my') (Z.min ex ey) = scaled (Zpos mx) ex - scaled (Zpos my) ey).
    { rewrite <- Ax1, <- Ay1. unfold scaled. ring. }
    assert (P : 0 < 2 ^ (Z.min ex ey + scale)) by (apply Z.pow_pos_nonneg; lia).
    pose proof (scaled_pos my ey ltac:(lia)) as Py.
    destruct (Zpos mx' - Zpos my') as [|d|d] eqn:Hd.
    + cbn [binary_normalize]. split; [reflexivity|]. rewrite <- E. reflexivity.
    + cbn [binary_normalize]. rewrite <- E.
      pose proof (digits2_mono d mx' ltac:(lia)) as Dd.
      apply binary_round_spec; lia.
    + exfalso. unfold scaled in E at 1. nia.
Qed.

(** Subtracting a negative number adds its absolute value. *)
Lemma SFsub_neg x m e : nonneg_finite x = true ->
  SF64sub x (S754_finite true m e) = SF64add x (S754_finite false m e).
Proof.
  intros Nx. destruct x as [sx|sx| |sx mx ex]; try discriminate Nx; [reflexivity|].
  destruct sx; [discriminate Nx|].
  unfold SF64sub, SF64add, SFsub, SFadd. cbn [cond_Zopp]. zfold.
  destruct (shl_align mx ex (Z.min ex e)) as [mx' ex'].
  destruct (shl_align m e (Z.min ex e)) as [m' e']. reflexivity.
Qed.

(** ** Primitive floats *)

Lemma bounded64_b_ok x : bounded64_b x = true -> bounded64 x.
Proof.
  unfold bounded64_b, bounded64. intros H. apply andb_true_iff in H. destruct H as [H1 H2].
  apply Z.leb_le in H2. auto.
Qed.

Lemma leb_fvalue x y : bounded64 x -> bounded64 y -> (x <=? y)%float = (fvalue x <=? fvalue y).
Proof.
  intros [Nx _] [Ny _]. rewrite leb_spec. apply SFleb_SFvalue; auto using Prim2SF_valid.
Qed.

Lemma le64_leb x y : le64 x y -> (x <=? y)%float = true.
Proof. intros (Hx & Hy & H). rewrite leb_fvalue by assumption. now apply Z.leb_le. Qed.

Lemma bounded64_zero_le x : bounded64 x -> (0 <=? x)%float = true.
Proof.
  intros Hx. rewrite leb_fvalue; [|apply bounded64_b_ok; reflexivity|exact Hx].
  apply Z.leb_le. change (fvalue 0) with 0. apply SFvalue_nonneg, Prim2SF_valid.
Qed.

Lemma le64_intro x c : (0 <=? x)%float = true -> (x <=? c)%float = true -> bounded64 c -> le64 x c.
Proof.
  intros H0 Hc Fc. rewrite leb_spec in H0, Hc.
  change (Prim2SF 0) with (S754_zero false) in H0.
  assert (Nx : nonneg_finite (Prim2SF x) = true).
  { destruct Fc as [Nc _]. destruct (Prim2SF x) as [s|s| |s m e]; try reflexivity.
    - destruct s; [discriminate H0|]. destruct (Prim2SF c) as [sc|sc| |[|] mc ec]; discriminate.
    - discriminate H0.
    - destruct s; [discriminate H0|reflexivity]. }
  assert (L : fvalue x <= fvalue c).
  { apply Z.leb_le. unfold fvalue. rewrite <- SFleb_SFvalue; auto using Prim2SF_valid. apply Fc. }
  split; [|split]; auto. split; auto. destruct Fc. eapply Z.le_trans; eassumption.
Qed.

Lemma le64_refl x : bounded64 x -> le64 x x.
Proof. intros H. split; [exact H|split; [exact H|apply Z.le_refl]]. Qed.

Lemma le64_trans x y z : le64 x y -> le64 y z -> le64 x z.
Proof.
  intros (a & b & c) (d & e & f). split; [exact a|split; [exact e|eapply Z.le_trans; eassumption]].
Qed.

Lemma bounded64_1024 : bounded64 1024.
Proof. apply bounded64_b_ok. vm_compute. reflexivity. Qed.

Lemma bounded64_leb x : (0 <=? x)%float = true -> (x <=? 1024)%float = true -> bounded64 x.
Proof. intros H0 H1. apply (le64_intro x 1024 H0 H1 bounded64_1024). Qed.

Ltac bounded64_const := apply bounded64_leb; vm_compute; reflexivity.

Ltac le64_const := apply le64_intro; [vm_compute; reflexivity|vm_compute; reflexivity|bounded64_const].

(** Multiplication by a non-negative constant is monotone. *)
Lemma fmul_mono x x' c : le64 x x' -> bounded64 c -> bounded64 (x' * c) -> le64 (x * c) (x' * c).
Proof.
  intros ([Nx Sx] & [Nx' Sx'] & H) [Nc Sc] F'.
  destruct (SFmul_spec (Prim2SF x) (Prim2SF c)) as [N1 V1]; auto using Prim2SF_valid.
  destruct (SFmul_spec (Prim2SF x') (Prim2SF c)) as [N2 V2]; auto using Prim2SF_valid.
  rewrite <- mul_spec in N1, V1, N2, V2. fold (fvalue (x * c)) in V1. fold (fvalue (x' * c)) in V2.
  fold (fvalue x) in V1. fold (fvalue x') in V2. fold (fvalue c) in V1, V2.
  assert (L : fvalue (x * c) <= fvalue (x' * c)).
  { rewrite V1, V2. 
    pose proof (SFvalue_nonneg _ (Prim2SF_valid x)). pose proof (SFvalue_nonneg _ (Prim2SF_valid c)).
    fold (fvalue x) in *. fold (fvalue c) in *.
    apply nearest64_mono. split.
    - apply Z.div_pos; [|apply Z.pow_pos_nonneg; lia]. apply Z.mul_nonneg_nonneg; lia.
    - apply Z.div_le_mono; [apply Z.pow_pos_nonneg; lia|]. apply Z.mul_le_mono_nonneg_r; lia. }
  split; [|split]; auto. split; auto. destruct F'. eapply Z.le_trans; eassumption.
Qed.

(** Addition of non-negative doubles is monotone in both arguments. *)
Lemma fadd_mono x x' y y' : le64 x x' -> le64 y y' -> bounded64 (x' + y') -> le64 (x + y) (x' + y').
Proof.
  intros ([Nx Sx] & [Nx' Sx'] & Hx) ([Ny Sy] & [Ny' Sy'] & Hy) F'.
  destruct (SFadd_spec (Prim2SF x) (Prim2SF y)) as [N1 V1]; auto using Prim2SF_valid.
  destruct (SFadd_spec (Prim2SF x') (Prim2SF y')) as [N2 V2]; auto using Prim2SF_valid.
  rewrite <- add_spec in N1, V1, N2, V2. fold (fvalue (x + y)) in V1. fold (fvalue (x' + y')) in V2.
  fold (fvalue x) in V1. fold (fvalue x') in V2. fold (fvalue y) in V1. fold (fvalue y') in V2.
  assert (L : fvalue (x + y) <= fvalue (x' + y')).
  { rewrite V1, V2.
    pose proof (SFvalue_nonneg _ (Prim2SF_valid x)). pose proof (SFvalue_nonneg _ (Prim2SF_valid y)).
    fold (fvalue x) in *. fold (fvalue y) in *. apply nearest64_mono. lia. }
  split; [|split]; auto. split; auto. destruct F'. eapply Z.le_trans; eassumption.
Qed.

(** Subtracting a non-negative double from [c] does not exceed [c]. *)
Lemma fsub_le c y : le64 y c -> le64 (c - y) c.
Proof.
  intros ([Ny Sy] & [Nc Sc] & H).
  destruct (SFsub_spec (Prim2SF c) (Prim2SF y)) as [N1 V1]; auto using Prim2SF_valid.
  rewrite <- sub_spec in N1, V1. fold (fvalue (c - y)) in V1. fold (fvalue c) in V1. fold (fvalue y) in V1.
  assert (L : fvalue (c - y) <= fvalue c).
  { rewrite V1. pose proof (SFvalue_nonneg _ (Prim2SF_valid y)). fold (fvalue y) in *.
    unfold fvalue at 3. rewrite <- (nearest64_SFvalue (Prim2SF c)) by apply Prim2SF_valid.
    apply nearest64_mono. fold (fvalue c). lia. }
  split; [split; [exact N1|eapply Z.le_trans; eassumption]|split; [split; assumption|exact L]].
Qed.

Lemma fsub_neg c f m e : bounded64 c -> Prim2SF f = S754_finite true m e ->
  (c - f = c + abs f)%float /\ Prim2SF (abs f) = S754_finite false m e.
Proof.
  intros [Nc _] Ef.
  assert (Ea : Prim2SF (abs f) = S754_finite false m e) by (now rewrite abs_spec, Ef).
  split; [|exact Ea]. apply Prim2SF_inj.
  rewrite sub_spec, add_spec, Ef, Ea. now apply SFsub_neg.
Qed.

(** Below [c] means not at or above any [c' >= c], for every float: NaN and
    the infinities included. *)
Lemma ltb_leb_false f c c' :
  le64 c c' -> 0 < fvalue c' -> (f <? c)%float = true -> (c' <=? f)%float = false.
Proof.
  intros ([Nc Sc] & [Nc' Sc'] & L) Hpos Hlt.
  rewrite ltb_spec in Hlt. rewrite leb_spec.
  pose proof (Prim2SF_valid f) as Vf. pose proof (Prim2SF_valid c) as Vc.
  pose proof (Prim2SF_valid c') as Vc'. unfold fvalue in *.
  destruct (Prim2SF c') as [sc'|sc'| |sc' mc' ec'] eqn:Ec'; try discriminate Nc'.
  { cbn [SFvalue] in Hpos. lia. }
  destruct sc'; [discriminate Nc'|].
  destruct (Prim2SF f) as [s|s| |s m e] eqn:Ef.
  - reflexivity.
  - destruct s; [reflexivity|].
    destruct (Prim2SF c) as [sc|sc| |[|] mc ec]; discriminate.
  - destruct (Prim2SF c) as [sc|sc| |[|] mc ec]; discriminate.
  - destruct s; [reflexivity|].
    rewrite SFleb_SFvalue by (auto; reflexivity).
    rewrite SFltb_SFvalue in Hlt by (auto; reflexivity).
    apply Z.ltb_lt in Hlt. apply Z.leb_gt. lia.
Qed.

(** ** Conversion from integers and decimal rounding *)

(** [float(z)] is the rounding of [z]. *)
Lemma Z2float_spec z : 0 <= z < 2 ^ 53 ->
  nonneg_finite (Prim2SF (Z2float z)) = true /\ fvalue (Z2float z) = nearest64 (z * 2 ^ scale).
Proof.
  intros Hz. unfold Z2float, fvalue. destruct z as [|p|p]; [split; reflexivity| |lia].
  cbn [binary_normalize].
  pose proof (digits2_le p 53 ltac:(lia)) as D.
  rewrite Prim2SF_SF2Prim by (apply binary_round_valid; lia).
  apply (binary_round_spec p 0); lia.
Qed.

Lemma Z2float_mono a b : 0 <= a <= b -> b < 2 ^ 53 -> bounded64 (Z2float b) ->
  le64 (Z2float a) (Z2float b).
Proof.
  intros Hab Hb Fb.
  destruct (Z2float_spec a ltac:(lia)) as [Na Va]. destruct (Z2float_spec b ltac:(lia)) as [Nb Vb].
  assert (L : fvalue (Z2float a) <= fvalue (Z2float b)).
  { rewrite Va, Vb. apply nearest64_mono.
    split; [apply Z.mul_nonneg_nonneg; [lia|apply Z.pow_nonneg; lia]|].
    apply Z.mul_le_mono_nonneg_r; [apply Z.pow_nonneg; lia|lia]. }
  split; [split; [exact Na|destruct Fb; eapply Z.le_trans; eassumption]|split; [exact Fb|exact L]].
Qed.

(** The double nearest to [p / 100] is at most 100 when [p <= 10000]. *)
Lemma dec2_bound p : Zpos p <= 10000 ->
  let y := dec2 false (Zpos p) in
  valid_binary y = true /\ nonneg_finite y = true /\ SFvalue y <= 100 * 2 ^ scale.
Proof.
  intros Hp. cbv zeta. cbn [dec2]. unfold SFdiv, SFdiv_core_binary. zfold.
  change (fexp prec emax) with fexp64. cbn [Zdigits2 xorb].
  change (Zpos (digits2_pos 100)) with 7.
  pose proof (digits2_bounds p) as B. remember (Zpos (digits2_pos p)) as d eqn:Hd.
  assert (Hd14 : 1 <= d <= 14).
  { split; [lia|]. destruct (Z_le_gt_dec d 14) as [l|g]; [exact l|exfalso].
    assert (2 ^ 14 <= 2 ^ (d - 1)) by (apply Z.pow_le_mono_r; lia). lia. }
  replace (Z.min (fexp64 (d + 0 - (7 + 0))) (0 - 0)) with (d - 60) by (unfold fexp64; lia).
  replace (0 - 0 - (d - 60)) with (60 - d) by lia.
  remember (60 - d) as s eqn:Hs.
  assert (Hm' : match s with Zpos _ => Z.shiftl (Zpos p) s | 0 => Zpos p | Zneg _ => 0 end
                = Zpos p * 2 ^ s).
  { destruct s as [|s'|s'] eqn:Q; try lia. rewrite Z.shiftl_mul_pow2 by lia. reflexivity. }
  rewrite Hm'. clear Hm'.
  assert (Ps : 0 < 2 ^ s) by (apply Z.pow_pos_nonneg; lia).
  assert (L59 : 2 ^ 59 <= Zpos p * 2 ^ s).
  { replace 59 with ((d - 1) + s) by lia. rewrite Z.pow_add_r by lia.
    apply Z.mul_le_mono_nonneg_r; lia. }
  assert (U60 : Zpos p * 2 ^ s < 2 ^ 60).
  { replace 60 with (d + s) by lia. rewrite Z.pow_add_r by lia.
    apply Z.mul_lt_mono_pos_r; lia. }
  pose proof (Z.div_eucl_eq (Zpos p * 2 ^ s) 100 ltac:(lia)) as DE.
  pose proof (Z.mod_pos_bound (Zpos p * 2 ^ s) 100 ltac:(lia)) as MB.
  unfold Z.modulo in MB. destruct (Z.div_eucl (Zpos p * 2 ^ s) 100) as [q r].
  assert (Q52 : 2 ^ 52 <= q) by (change (2 ^ 59) with (2 ^ 52 * 128) in L59; lia).
  assert (Q54 : q < 2 ^ 54) by (change (2 ^ 60) with (2 ^ 54 * 64) in U60; lia).
  assert (Dq : 53 <= Zdigits2 q <= 54).
  { split; [now apply Zdigits2_large|]. pose proof (Zdigits2_bounds q ltac:(lia)) as Bq.
    destruct (Z_le_gt_dec (Zdigits2 q) 54) as [l|g]; [exact l|exfalso].
    assert (2 ^ 54 <= 2 ^ (Zdigits2 q - 1)) by (apply Z.pow_le_mono_r; lia). lia. }
  pose proof (round_aux_spec q (new_location 100 r) (d - 60) ltac:(lia) ltac:(lia)) as C.
  cbv zeta in C. unfold fexp64 in C.
  replace (Z.max (Zdigits2 q + (d - 60) - 53) (-1074)) with (Zdigits2 q + (d - 60) - 53) in C by lia.
  specialize (C ltac:(lia)). destruct C as (V & N & S). split; [exact V|split; [exact N|]].
  rewrite S. clear S V N.
  remember (Zdigits2 q + (d - 60) - 53) as E eqn:HE.
  replace (E - (d - 60) + 2) with ((Zdigits2 q - 53) + 2) by lia.
  remember (Zdigits2 q - 53) as n eqn:Hn.
  assert (Hbits : 4 * q + loc_bits (new_location 100 r) <= 400 * 2 ^ s).
  { assert (q <= 100 * 2 ^ s) by nia.
    unfold new_location. change (Z.even 100) with true. cbv iota. unfold new_location_even.
    zfold. destruct (Z.eqb_spec r 0) as [z|nz]; [cbn [loc_bits]; lia|].
    assert (q < 100 * 2 ^ s) by nia.
    destruct (2 * r ?= 100); cbn [loc_bits]; lia. }
  assert (Pn : 0 < 2 ^ (n + 2)) by (apply Z.pow_pos_nonneg; lia).
  assert (R : round_half_even (4 * q + loc_bits (new_location 100 r)) (2 ^ (n + 2)) <= 100 * 2 ^ (s - n - 2 + 2)).
  { replace (s - n - 2 + 2) with (s - n) by lia.
    rewrite <- (round_half_even_exact (100 * 2 ^ (s - n)) (2 ^ (n + 2))) by lia.
    apply round_half_even_mono; [lia|]. rewrite <- Z.mul_assoc, <- Z.pow_add_r by lia.
    replace (s - n + (n + 2)) with (s + 2) by lia. rewrite Z.pow_add_r by lia.
    change (2 ^ 2) with 4. lia. }
  replace (s - n - 2 + 2) with (s - n) in R by lia.
  assert (PE : 0 < 2 ^ (E + scale)) by (apply Z.pow_pos_nonneg; lia).
  apply Z.le_trans with (100 * 2 ^ (s - n) * 2 ^ (E + scale)); [apply Z.mul_le_mono_nonneg_r; lia|].
  rewrite <- Z.mul_assoc, <- Z.pow_add_r by lia. replace (s - n + (E + scale)) with scale by lia.
  apply Z.le_refl.
Qed.

Lemma fvalue_100 : fvalue 100 = 100 * 2 ^ scale.
Proof. vm_compute. reflexivity. Qed.

(** [round(t, 2)] stays in [0, 100]. *)
Lemma py_round2_le t : le64 t 100 -> le64 (py_round2 t) 100.
Proof.
  intros H. pose proof H as ([Nt St] & F100 & L). unfold py_round2.
  unfold fvalue in L. fold (fvalue 100) in L. rewrite fvalue_100 in L.
  pose proof (Prim2SF_valid t) as Vt.
  destruct (Prim2SF t) as [s|s| |s m e] eqn:E; try exact H.
  destruct s; [discriminate Nt|].
  destruct (Z.leb_spec 0 e) as [He|He]; [exact H|].
  apply valid_finite in Vt. destruct Vt as (_ & Ee & _). cbn [SFvalue] in L. unfold scaled in L.
  set (D := 2 ^ (- e)). assert (PD : 0 < D) by (apply Z.pow_pos_nonneg; lia).
  assert (Hm : 100 * Zpos m <= 10000 * D).
  { assert (P1 : 0 < 2 ^ (e + scale)) by (apply Z.pow_pos_nonneg; lia).
    assert (E2 : 2 ^ scale = D * 2 ^ (e + scale)).
    { unfold D. rewrite <- Z.pow_add_r by lia. f_equal. lia. }
    rewrite E2 in L. clear E2. revert L P1. generalize (2 ^ (e + scale)). intros u L P1. nia. }
  assert (Hn : 0 <= round_half_even (100 * Zpos m) D <= 10000).
  { split.
    - pose proof (round_half_even_bounds (100 * Zpos m) D PD).
      assert (0 <= 100 * Zpos m / D) by (apply Z.div_pos; lia). lia.
    - rewrite <- (round_half_even_exact 10000 D PD). apply round_half_even_mono; lia. }
  destruct (round_half_even (100 * Zpos m) D) as [|p|p] eqn:Hr; [| |lia].
  - cbn [dec2]. change (SF2Prim (S754_zero false)) with 0%float.
    split; [|split; [exact F100|]].
    + split; [reflexivity|]. change (fvalue 0) with 0. unfold value_bound. apply Z.pow_nonneg. lia.
    + change (fvalue 0) with 0. rewrite fvalue_100. apply Z.mul_nonneg_nonneg; [lia|apply Z.pow_nonneg; lia].
  - destruct (dec2_bound p ltac:(lia)) as (V & N & S). cbv zeta in *.
    assert (P : Prim2SF (SF2Prim (dec2 false (Zpos p))) = dec2 false (Zpos p))
      by (apply Prim2SF_SF2Prim; exact V).
    assert (L2 : fvalue (SF2Prim (dec2 false (Zpos p))) <= fvalue 100).
    { unfold fvalue at 1. rewrite P, fvalue_100. exact S. }
    split; [split|split; [exact F100|exact L2]].
    + rewrite P. exact N.
    + destruct F100. eapply Z.le_trans; eassumption.
Qed.

(** ** The range of the fused score *)

(** The weighted sum of the full-data mode. *)
Lemma full_mode_bound a r s :
  le64 a 100 -> 0 <= r <= 40 -> le64 s 150 ->
  le64 (a * 0.45 + Z2float r * 0.25 + s * 0.30)%float 100.
Proof.
  intros Ha Hr Hs.
  assert (H1 : le64 (a * 0.45) (100 * 0.45)%float) by (apply fmul_mono; [exact Ha|bounded64_const|bounded64_const]).
  assert (H2 : le64 (Z2float r * 0.25) (Z2float 40 * 0.25)%float).
  { apply fmul_mono; [|bounded64_const|bounded64_const].
    apply Z2float_mono; [lia|lia|bounded64_const]. }
  assert (H3 : le64 (s * 0.30) (150 * 0.30)%float) by (apply fmul_mono; [exact Hs|bounded64_const|bounded64_const]).
  assert (H4 : le64 (a * 0.45 + Z2float r * 0.25) (100 * 0.45 + Z2float 40 * 0.25)%float)
    by (apply fadd_mono; [exact H1|exact H2|bounded64_const]).
  change 100%float with (100 * 0.45 + Z2float 40 * 0.25 + 150 * 0.30)%float.
  apply fadd_mono; [exact H4|exact H3|bounded64_const].
Qed.

(** The weighted sum of the degraded mode. *)
Lemma degraded_mode_bound a r :
  le64 a 100 -> 0 <= r <= 40 ->
  le64 (a * 0.60 + Z2float r * 0.40)%float 76.
Proof.
  intros Ha Hr.
  assert (H1 : le64 (a * 0.60) (100 * 0.60)%float) by (apply fmul_mono; [exact Ha|bounded64_const|bounded64_const]).
  assert (H2 : le64 (Z2float r * 0.40) (Z2float 40 * 0.40)%float).
  { apply fmul_mono; [|bounded64_const|bounded64_const].
    apply Z2float_mono; [lia|lia|bounded64_const]. }
  change 76%float with (100 * 0.60 + Z2float 40 * 0.40)%float.
  apply fadd_mono; [exact H1|exact H2|bounded64_const].
Qed.

(** [100 - f] for [-50 <= f <= 100] *)
Lemma penalty_float_bound f :
  (-50 <=? f)%float = true -> (f <=? 100)%float = true -> le64 (100 - f) 150.
Proof.
  intros Hlo Hhi. pose proof (Prim2SF_valid f) as Vf.
  assert (F100 : bounded64 100) by bounded64_const.
  destruct (Prim2SF f) as [s|s| |s m e] eqn:Ef.
  - (* zero *)
    apply le64_trans with 100%float; [|le64_const]. apply fsub_le.
    apply le64_intro; [|exact Hhi|exact F100]. rewrite leb_spec, Ef. reflexivity.
  - exfalso. rewrite leb_spec, Ef in Hlo, Hhi. destruct s; discriminate.
  - exfalso. rewrite leb_spec, Ef in Hlo. discriminate.
  - destruct s.
    + destruct (fsub_neg 100 f m e F100 Ef) as [E Ea]. rewrite E.
      change 150%float with (100 + 50)%float.
      apply fadd_mono; [now apply le64_refl| |bounded64_const].
      assert (F50 : bounded64 50) by bounded64_const.
      rewrite leb_spec, Ef in Hlo. change (Prim2SF (-50)) with (SFopp (Prim2SF 50)) in Hlo.
      destruct (Prim2SF 50) as [s5|s5| |[|] m5 e5] eqn:E5; try discriminate.
      cbn [SFopp negb] in Hlo. rewrite SFleb_neg in Hlo.
      assert (V5 : valid_binary (S754_finite false m5 e5) = true)
        by (rewrite <- E5; apply Prim2SF_valid).
      rewrite SFleb_SFvalue in Hlo by (auto; reflexivity). apply Z.leb_le in Hlo.
      assert (L : fvalue (abs f) <= fvalue 50) by (unfold fvalue; now rewrite Ea, E5).
      split; [split; [now rewrite Ea|]|split; [exact F50|exact L]].
      destruct F50. eapply Z.le_trans; eassumption.
    + apply le64_trans with 100%float; [|le64_const]. apply fsub_le.
      apply le64_intro; [|exact Hhi|exact F100]. rewrite leb_spec, Ef. reflexivity.
Qed.

Lemma penalty_bound sim_score : sim_in_range sim_score ->
  le64 (to_float (int_sub 100 sim_score)) 150.
Proof.
  destruct sim_score as [z|f]; cbn [sim_in_range int_sub to_float].
  - intros Hz. change 150%float with (Z2float 150).
    apply Z2float_mono; [lia|lia|bounded64_const].
  - intros [H0 H1]. change (Z2float 100) with 100%float. now apply penalty_float_bound.
Qed.

(** The fused score is in [0, 100]. *)
Lemma fusion_bound ai_score rule_score sim_score used_transcript :
  (0 <=? ai_score)%float = true -> (ai_score <=? 100)%float = true ->
  0 <= rule_score <= 40 -> sim_in_range sim_score ->
  (0 <=? fusion ai_score rule_score sim_score used_transcript)%float = true /\
  (fusion ai_score rule_score sim_score used_transcript <=? 100)%float = true.
Proof.
  intros A0 A1 Hr Hs.
  assert (Ha : le64 ai_score 100) by (apply le64_intro; [exact A0|exact A1|bounded64_const]).
  assert (F : le64 (fusion ai_score rule_score sim_score used_transcript) 100).
  { unfold fusion. apply py_round2_le. destruct used_transcript.
    - apply full_mode_bound; [exact Ha|exact Hr|now apply penalty_bound].
    - apply le64_trans with 76%float; [|le64_const].
      now apply degraded_mode_bound. }
  split; [apply bounded64_zero_le; apply F|now apply le64_leb].
Qed.

(** * The call trace *)

Lemma value_bind {A B : Type} (m : Traced A) (k : A -> Traced B) :
  value (bind m k) = value (k (value m)).
Proof. unfold value, bind. destruct m as [a t1]. cbn [fst]. now destruct (k a). Qed.

(** * Strings *)

Lemma count_nonneg c s : 0 <= count c s.
Proof. induction s as [|x s IH]; cbn [count]; [lia|]. destruct (N.eqb x c); lia. Qed.

Lemma lstrip_blank s : forallb is_space s = true -> lstrip s = [].
Proof.
  induction s as [|c s IH]; [reflexivity|]. cbn [forallb lstrip].
  intros H. apply andb_true_iff in H. destruct H as [Hc Hs]. rewrite Hc. now apply IH.
Qed.

Lemma lstrip_nil s : lstrip s = [] -> forallb is_space s = true.
Proof.
  induction s as [|c s IH]; [reflexivity|]. cbn [forallb lstrip].
  destruct (is_space c); [exact IH|discriminate].
Qed.

Lemma lstrip_suffix s : exists p, s = p ++ lstrip s /\ forallb is_space p = true.
Proof.
  induction s as [|c s (p & E & B)]; [now exists []|]. cbn [lstrip].
  destruct (is_space c) eqn:Hc.
  - exists (c :: p). cbn [app forallb]. rewrite Hc, B. split; [now f_equal|reflexivity].
  - now exists [].
Qed.

Lemma strip_blank s : forallb is_space s = true -> strip s = [].
Proof. intros H. unfold strip. now rewrite (lstrip_blank s H). Qed.

Lemma strip_nil s : strip s = [] -> forallb is_space s = true.
Proof.
  unfold strip. intros H.
  assert (H1 : lstrip (rev (lstrip s)) = []) by (now rewrite <- (rev_involutive (lstrip _)), H).
  apply lstrip_nil in H1. rewrite forallb_forall in H1.
  destruct (lstrip_suffix s) as (p & E & B). rewrite forallb_forall in B.
  rewrite E. apply forallb_forall. intros x Hx. apply in_app_or in Hx.
  destruct Hx as [Hx|Hx]; [now apply B|]. apply H1. now apply in_rev in Hx.
Qed.

Lemma strip_nonblank s : forallb is_space s = false -> strip s <> [].
Proof. intros H E. apply strip_nil in E. congruence. Qed.

Lemma forallb_firstn {A : Type} (f : A -> bool) n (s : list A) :
  forallb f s = true -> forallb f (firstn n s) = true.
Proof.
  revert n. induction s as [|c s IH]; intros [|n] H; try reflexivity.
  cbn [forallb firstn] in *. apply andb_true_iff in H. destruct H as [Hc Hs].
  rewrite Hc. now apply IH.
Qed.

(** * The identifier extractor *)

Lemma match_here_nonempty lit stop s g : match_here lit stop s = Some g -> g <> [].
Proof.
  unfold match_here. destruct (strip_prefix lit s) as [rest|]; [|discriminate].
  destruct (take_until stop rest); [discriminate|]. intros E. injection E as <-. discriminate.
Qed.

Lemma re_search_nonempty lit stop s g : re_search lit stop s = Some g -> g <> [].
Proof.
  induction s as [|c s IH]; cbn [re_search].
  - destruct (match_here lit stop []) eqn:E; [|discriminate].
    intros H. injection H as <-. eapply match_here_nonempty; eauto.
  - destruct (match_here lit stop (c :: s)) eqn:E; [|exact IH].
    intros H. injection H as <-. eapply match_here_nonempty; eauto.
Qed.

Lemma first_match_nonempty ps u g : first_match ps u = Some g -> g <> [].
Proof.
  induction ps as [|[lit stop] ps IH]; cbn [first_match]; [discriminate|].
  destruct (re_search lit stop u) eqn:E; [|exact IH].
  intros H. injection H as <-. eapply re_search_nonempty; eauto.
Qed.

Lemma extract_id_nonempty u : extract_id u <> Some [].
Proof. intros H. now apply first_match_nonempty in H. Qed.

(** [extract_id] fails exactly when none of the patterns is found. *)
Lemma extract_id_None u :
  extract_id u = None <-> forall lit stop, In (lit, stop) patterns -> re_search lit stop u = None.
Proof.
  unfold extract_id. generalize patterns. intros ps.
  induction ps as [|[lit stop] ps IH]; cbn [first_match].
  - split; [intros _ ? ? []|reflexivity].
  - destruct (re_search lit stop u) eqn:E.
    + split; [discriminate|]. intros H. rewrite (H lit stop) in E by (left; reflexivity). discriminate.
    + rewrite IH. split.
      * intros H l s [Hin|Hin]; [injection Hin as <- <-; exact E|now apply H].
      * intros H l s Hin. apply H. now right.
Qed.

(** * The model on known values *)

(** [round(x, 2)] as CPython computes it: 2.675 and 1.005 lie below the
    decimal tie, 0.125 and 0.375 are exact ties. *)
Lemma py_round2_examples :
  List.map py_round2 [2.675; 1.005; 0.125; 0.375; 70; -0.001; 1e16]%float
  = [2.67; 1; 0.12; 0.38; 70; -0; 1e16]%float.
Proof. vm_compute. reflexivity. Qed.

Lemma extract_id_examples :
  extract_id (py "https://www.youtube.com/watch?v=abc123&t=42s") = Some (py "abc123")
  /\ extract_id (py "https://youtu.be/abc123?si=xyz") = Some (py "abc123")
  /\ extract_id (py "https://www.youtube.com/shorts/abc123?feature=share") = Some (py "abc123")
  /\ extract_id (py "https://www.youtube.com/watch?v=&t=42s") = None.
Proof. repeat split; vm_compute; reflexivity. Qed.

(** The bound of 100 is reached at a similarity of -50. *)
Lemma fusion_reaches_100 : fusion 100 40 (PyFloat (-50)) true = 100%float.
Proof. vm_compute. reflexivity. Qed.

(** * The endpoint *)

(** What a successful reply contains. *)
Lemma predict_success U W data r :
  value (predict U W data) = Success r ->
  exists video_id title desc transcript,
    extract_id (url data) = Some video_id /\
    value (get_video_info W (url data)) = (Some title, desc) /\
    title <> [] /\
    value (get_transcript W video_id) = transcript /\
    let used_transcript := match transcript with Some _ => true | None => false end in
    let ai_score := py_round2 (classifier_score W title * 100)%float in
    let rule_score := lexical_rule_score U title in
    let sim_score :=
      value (similarity_score W title (or_empty desc ++ py " " ++ or_empty transcript)) in
    let final := fusion ai_score rule_score sim_score used_transcript in
    r = {| Response.title := title;
           Response.ai_score := ai_score;
           Response.rule_score := rule_score;
           Response.similarity_score := sim_score;
           Response.transcript_used := used_transcript;
           Response.final_score := final;
           Response.risk_level := risk_level final;
           Response.clickbait := (55 <=? final)%float |}.
Proof.
  unfold predict. destruct (extract_id (url data)) as [[|c vid]|] eqn:Eid; try discriminate.
  rewrite value_bind.
  destruct (value (get_video_info W (url data))) as [[[|c' t]|] desc] eqn:Einfo; try discriminate.
  rewrite !value_bind. cbn [value ret fst calling].
  intros H. injection H as <-.
  exists (c :: vid), (c' :: t), desc, (fst (get_transcript W (c :: vid))).
  repeat split; discriminate || reflexivity.
Qed.

(** C1: the final score of a successful reply is the weighted sum of its
    three component scores, rounded to two decimals: weights 0.45, 0.25 and
    0.30 (on 100 minus the similarity) when a transcript was used, weights
    0.60 and 0.40 without it; the same holds of the fusion step on every
    input, and scores 80, 40 and 20 give 70.00 and 64.00 in the two modes. *)
Theorem fusion_weighted_sum (U : Unicode) (W : World) (data : VideoData) (r : Response.t) :
  value (predict U W data) = Success r ->
  Response.final_score r
  = py_round2
      (if Response.transcript_used r
       then Response.ai_score r * 0.45 + Z2float (Response.rule_score r) * 0.25
            + to_float (int_sub 100 (Response.similarity_score r)) * 0.30
       else Response.ai_score r * 0.60 + Z2float (Response.rule_score r) * 0.40)%float
  /\ (forall ai_score rule_score sim_score,
        fusion ai_score rule_score sim_score true
        = py_round2 (ai_score * 0.45 + Z2float rule_score * 0.25
                     + to_float (int_sub 100 sim_score) * 0.30)%float
        /\ fusion ai_score rule_score sim_score false
           = py_round2 (ai_score * 0.60 + Z2float rule_score * 0.40)%float)
  /\ fusion 80 40 (PyFloat 20) true = 70%float
  /\ fusion 80 40 (PyFloat 20) false = 64%float.
Proof.
  intros H. apply predict_success in H.
  destruct H as (video_id & title & desc & transcript & _ & _ & _ & _ & ->).
  cbn [Response.final_score Response.transcript_used Response.ai_score Response.rule_score
       Response.similarity_score].
  split; [|split; [|split]].
  - unfold fusion. now destruct transcript.
  - intros. split; reflexivity.
  - vm_compute. reflexivity.
  - vm_compute. reflexivity.
Qed.

Lemma fusion_weighted_sum_witness :
  value (predict ascii_tables sample_world sample_url) = Success sample_response
  /\ Response.final_score sample_response
     = py_round2 (98.77 * 0.45 + Z2float 40 * 0.25
                  + to_float (int_sub 100 (PyFloat 25)) * 0.30)%float.
Proof.
  assert (H : value (predict ascii_tables sample_world sample_url) = Success sample_response)
    by (vm_compute; reflexivity).
  split; [exact H|]. exact (proj1 (fusion_weighted_sum _ _ _ _ H)).
Defined.

(** C2 (as stated, refuted): with a classifier score of 1, five keywords in
    the title and a cosine similarity of -1, the endpoint answers with
    aiScore 100, ruleScore 40, similarityScore -100 and finalScore 115. *)
Lemma final_score_exceeds_100 :
  value (predict ascii_tables opposite_world sample_url) = Success opposite_response
  /\ (0 <=? Response.ai_score opposite_response)%float = true
  /\ (Response.ai_score opposite_response <=? 100)%float = true
  /\ 0 <= Response.rule_score opposite_response <= 40
  /\ (Response.final_score opposite_response <=? 100)%float = false.
Proof.
  split; [vm_compute; reflexivity|]. cbn [Response.ai_score Response.rule_score
    Response.final_score opposite_response].
  split; [reflexivity|]. split; [reflexivity|]. split; [lia|reflexivity].
Qed.

(** C2 (amended): when aiScore is in [0,100], ruleScore in [0,40] and
    similarityScore in [-50,100], the rounded final score lies in [0,100] in
    both weighting modes. *)
Theorem final_score_in_range (ai_score : float) (rule_score : Z) (sim_score : pynum)
    (used_transcript : bool) :
  (0 <=? ai_score)%float = true -> (ai_score <=? 100)%float = true ->
  0 <= rule_score <= 40 ->
  sim_in_range sim_score ->
  (0 <=? fusion ai_score rule_score sim_score used_transcript)%float = true /\
  (fusion ai_score rule_score sim_score used_transcript <=? 100)%float = true.
Proof. apply fusion_bound. Qed.

Lemma final_score_in_range_witness :
  (0 <=? fusion 98.77 40 (PyFloat 25) true)%float = true /\
  (fusion 98.77 40 (PyFloat 25) true <=? 100)%float = true.
Proof.
  apply (final_score_in_range 98.77 40 (PyFloat 25) true).
  - reflexivity.
  - reflexivity.
  - lia.
  - split; reflexivity.
Defined.

(** C3: the risk level is "Very High" from 75 up, "High" from 60 up to 75,
    "Medium" from 45 up to 60 and "Low" below 45; 75.00 is "Very High",
    74.99 and 60.00 are "High"; the reply's level is that of its final
    score. *)
Theorem risk_level_thresholds (final : float) :
  ((75 <=? final)%float = true -> risk_level final = py "Very High")
  /\ ((60 <=? final)%float = true -> (final <? 75)%float = true -> risk_level final = py "High")
  /\ ((45 <=? final)%float = true -> (final <? 60)%float = true -> risk_level final = py "Medium")
  /\ ((final <? 45)%float = true -> risk_level final = py "Low")
  /\ risk_level 75.00 = py "Very High"
  /\ risk_level 74.99 = py "High"
  /\ risk_level 60.00 = py "High"
  /\ (forall U W data r, value (predict U W data) = Success r ->
        Response.risk_level r = risk_level (Response.final_score r)).
Proof.
  assert (P45 : 0 < fvalue 45) by (vm_compute; reflexivity).
  assert (P60 : 0 < fvalue 60) by (vm_compute; reflexivity).
  assert (P75 : 0 < fvalue 75) by (vm_compute; reflexivity).
  assert (L1 : le64 45 60) by le64_const.
  assert (L2 : le64 60 75) by le64_const.
  assert (L3 : le64 45 75) by (eapply le64_trans; eassumption).
  unfold risk_level. repeat split.
  - intros H. now rewrite H.
  - intros H6 H7. rewrite (ltb_leb_false final 75 75), H6; [reflexivity| |exact P75|exact H7].
    apply le64_refl, L2.
  - intros H4 H6. rewrite (ltb_leb_false final 60 75 L2 P75 H6).
    rewrite (ltb_leb_false final 60 60), H4; [reflexivity| |exact P60|exact H6].
    apply le64_refl, L1.
  - intros H4. rewrite (ltb_leb_false final 45 75 L3 P75 H4).
    rewrite (ltb_leb_false final 45 60 L1 P60 H4).
    rewrite (ltb_leb_false final 45 45); [reflexivity| |exact P45|exact H4].
    apply le64_refl, L1.
  - intros U W data r H. apply predict_success in H.
    destruct H as (video_id & title & desc & transcript & _ & _ & _ & _ & ->). reflexivity.
Qed.

(** C4: the clickbait flag of a reply is set exactly when its final score is
    at least 55, whatever its risk level: 55.00 sets it, 54.99 does not, and
    a score of 57 is flagged although its level is only "Medium". *)
Theorem clickbait_threshold (U : Unicode) (W : World) (data : VideoData) (r : Response.t) :
  value (predict U W data) = Success r ->
  (Response.clickbait r = true <-> (55 <=? Response.final_score r)%float = true)
  /\ (55 <=? 55.00)%float = true
  /\ (55 <=? 54.99)%float = false
  /\ ((55 <=? 57)%float = true /\ risk_level 57 = py "Medium").
Proof.
  intros H. apply predict_success in H.
  destruct H as (video_id & title & desc & transcript & _ & _ & _ & _ & ->).
  cbn [Response.clickbait Response.final_score].
  repeat split; auto.
Qed.

Lemma clickbait_threshold_witness :
  value (predict ascii_tables sample_world sample_url) = Success sample_response
  /\ (Response.clickbait sample_response = true
      <-> (55 <=? Response.final_score sample_response)%float = true).
Proof.
  assert (H : value (predict ascii_tables sample_world sample_url) = Success sample_response)
    by (vm_compute; reflexivity).
  split; [exact H|]. exact (proj1 (clickbait_threshold _ _ _ _ H)).
Defined.

(** * The lexical rule score *)

Lemma keyword_points (found : str -> bool) (words : list str) (start : Z) :
  fold_left (fun rule_score word => if found word then rule_score + 8 else rule_score)
            words start
  = start + 8 * Z.of_nat (List.length (filter found words)).
Proof.
  revert start. induction words as [|w words IH]; intros start; cbn [fold_left filter].
  - cbn. lia.
  - rewrite IH. destruct (found w); cbn [List.length]; lia.
Qed.

Lemma keywords_distinct : NoDup CLICKBAIT_WORDS.
Proof.
  assert (D : forall (l : list str), (fix nodup (l : list str) : bool :=
                match l with
                | [] => true
                | x :: l' => negb (existsb (str_eqb x) l') && nodup l'
                end) l = true -> NoDup l).
  { induction l as [|x l IH]; intros H; constructor.
    - apply andb_true_iff in H. destruct H as [H _]. intros Hin.
      apply negb_true_iff in H. 
      assert (E : existsb (str_eqb x) l = true).
      { apply existsb_exists. exists x. split; [exact Hin|].
        clear. induction x as [|c x IHx]; [reflexivity|]. cbn [str_eqb]. now rewrite N.eqb_refl. }
      congruence.
    - apply andb_true_iff in H. now apply IH. }
  apply D. vm_compute. reflexivity.
Qed.

(** C5: the rule score is 8 points per keyword found in the lower-cased
    title (each keyword counted once), plus two points per exclamation mark
    up to 10, plus two per question mark up to 10, plus 10 for an upper-case
    title longer than 10 characters, plus 5 for a digit, the total capped at
    40; so it is in [0,40] for every title, and 500 exclamation marks score
    10.  With the ASCII tables, "shocking" in three spellings scores 8 and a
    title worth 51 points scores 40. *)
Theorem rule_score_bounded (U : Unicode) (title : str) :
  let found :=
    Z.of_nat (List.length (filter (fun word => contains word (lower U title)) CLICKBAIT_WORDS)) in
  let exclamations := Z.min (count bang title * 2) 10 in
  let questions := Z.min (count qmark title * 2) 10 in
  let upper := if isupper U title && (10 <? len title) then 10 else 0 in
  let digit := if existsb (is_decimal U) title then 5 else 0 in
  lexical_rule_score U title
  = Z.min (0 + 8 * found + exclamations + questions + upper + digit) 40
  /\ 0 <= lexical_rule_score U title <= 40
  /\ 0 <= exclamations <= 10
  /\ 0 <= questions <= 10
  /\ 0 <= found <= 14
  /\ NoDup CLICKBAIT_WORDS
  /\ lexical_rule_score ascii_tables (repeat bang 500) = 10
  /\ lexical_rule_score ascii_tables (py "Shocking, SHOCKING, shocking") = 8
  /\ lexical_rule_score ascii_tables (py "SHOCKING secret: 10 insane tricks EXPOSED!!!") = 40.
Proof.
  cbv zeta.
  pose proof (count_nonneg bang title) as Hb. pose proof (count_nonneg qmark title) as Hq.
  assert (Hf : 0 <= Z.of_nat (List.length
                 (filter (fun word => contains word (lower U title)) CLICKBAIT_WORDS)) <= 14).
  { split; [lia|].
    pose proof (filter_length_le (fun word => contains word (lower U title)) CLICKBAIT_WORDS) as L.
    change (List.length CLICKBAIT_WORDS) with 14%nat in L. lia. }
  assert (E : lexical_rule_score U title
              = Z.min (0 + 8 * Z.of_nat (List.length
                         (filter (fun word => contains word (lower U title)) CLICKBAIT_WORDS))
                       + Z.min (count bang title * 2) 10 + Z.min (count qmark title * 2) 10
                       + (if isupper U title && (10 <? len title) then 10 else 0)
                       + (if existsb (is_decimal U) title then 5 else 0)) 40).
  { unfold lexical_rule_score. rewrite keyword_points.
    destruct (isupper U title && (10 <? len title)); destruct (existsb (is_decimal U) title); f_equal; lia. }
  split; [exact E|]. split.
  { rewrite E.
    destruct (isupper U title && (10 <? len title)); destruct (existsb (is_decimal U) title); lia. }
  split; [lia|]. split; [lia|]. split; [exact Hf|]. split; [exact keywords_distinct|].
  repeat split; vm_compute; reflexivity.
Qed.

(** C6: a URL in which no pattern finds an identifier is answered with the
    error "Invalid YouTube URL" and no service is called. *)
Theorem invalid_url_short_circuits (U : Unicode) (W : World) (data : VideoData) :
  (forall lit stop, In (lit, stop) patterns -> re_search lit stop (url data) = None) ->
  predict U W data = (Error (py "Invalid YouTube URL"), []).
Proof.
  intros H. apply extract_id_None in H. unfold predict. now rewrite H.
Qed.

Lemma invalid_url_short_circuits_witness :
  extract_id (py "https://example.com/watch") = None
  /\ predict ascii_tables sample_world {| url := py "https://example.com/watch" |}
     = (Error (py "Invalid YouTube URL"), []).
Proof.
  assert (H : extract_id (py "https://example.com/watch") = None) by (vm_compute; reflexivity).
  split; [exact H|].
  apply invalid_url_short_circuits. apply extract_id_None. exact H.
Defined.

(** C7: on a content that is empty or made of whitespace only, the
    similarity scorer returns 0 and does not call the embedder, whatever the
    title. *)
Theorem similarity_of_blank_content (W : World) (title content : str) :
  forallb is_space content = true ->
  similarity_score W title content = (PyInt 0, [])
  /\ similarity_score W title (py "") = (PyInt 0, [])
  /\ similarity_score W title (py "   ") = (PyInt 0, []).
Proof.
  intros H. repeat split; try reflexivity.
  unfold similarity_score. destruct content as [|c content]; [reflexivity|].
  now rewrite (strip_blank _ H).
Qed.

Lemma similarity_of_blank_content_witness :
  forallb is_space [9; 32; 10; 160]%N = true
  /\ similarity_score sample_world (py "Any title") [9; 32; 10; 160]%N = (PyInt 0, []).
Proof.
  assert (H : forallb is_space [9; 32; 10; 160]%N = true) by reflexivity.
  split; [exact H|].
  exact (proj1 (similarity_of_blank_content sample_world (py "Any title") _ H)).
Defined.

(** C8 (as stated, refuted): a content of 3000 spaces followed by a letter is
    longer than 3000 characters and not blank; it is scored through the
    embedder, while its first 3000 characters score 0 without it. *)
Lemma truncation_changes_padded_content :
  (3000 <? len padded_content) = true
  /\ forallb is_space padded_content = false
  /\ value (similarity_score half_world (py "title") padded_content) = PyFloat 50
  /\ value (similarity_score half_world (py "title") (firstn 3000 padded_content)) = PyInt 0.
Proof. repeat split; vm_compute; reflexivity. Qed.

(** C8 (amended): when the first 3000 characters of the content are not all
    whitespace, the content and its first 3000 characters get the same score
    through the same calls. *)
Theorem similarity_of_truncated_content (W : World) (title content : str) :
  forallb is_space (firstn 3000 content) = false ->
  similarity_score W title content = similarity_score W title (firstn 3000 content).
Proof.
  intros H.
  assert (Hc : forallb is_space content = false).
  { destruct (forallb is_space content) eqn:E; [|reflexivity].
    rewrite (forallb_firstn _ 3000 _ E) in H. discriminate. }
  pose proof (strip_nonblank _ H) as S1. pose proof (strip_nonblank _ Hc) as S2.
  unfold similarity_score.
  destruct content as [|c content]; [discriminate Hc|].
  destruct (strip (c :: content)) as [|x xs]; [contradiction|].
  destruct (firstn 3000 (c :: content)) as [|c' content'] eqn:F; [discriminate H|].
  destruct (strip (c' :: content')) as [|y ys]; [contradiction|].
  rewrite <- F. rewrite firstn_firstn. reflexivity.
Qed.

Lemma similarity_of_truncated_content_witness :
  similarity_score half_world (py "title") (py "x" ++ padded_content)
  = similarity_score half_world (py "title") (firstn 3000 (py "x" ++ padded_content)).
Proof.
  apply similarity_of_truncated_content. vm_compute. reflexivity.
Defined.

(** C9: metadata whose title is the empty string is treated as the metadata
    failure is: the reply is the error "Could not fetch video info", and the
    metadata request is the only call made. *)
Theorem empty_title_is_metadata_failure (U : Unicode) (W : World) (data : VideoData)
    (desc : option str) :
  extract_id (url data) <> None ->
  ydl_extract_info W (url data) = Some (Some [], desc) ->
  predict U W data = (Error (py "Could not fetch video info"), [CallMetadata (url data)])
  /\ predict U W data = predict U (without_metadata W) data.
Proof.
  intros Hid Hinfo. pose proof (extract_id_nonempty (url data)) as Hne.
  unfold predict, get_video_info, bind, calling, ret.
  destruct (extract_id (url data)) as [[|c video_id]|]; try contradiction.
  cbn [ydl_extract_info without_metadata]. rewrite Hinfo. split; reflexivity.
Qed.

Lemma empty_title_is_metadata_failure_witness :
  extract_id (url sample_url) <> None
  /\ predict ascii_tables untitled_world sample_url
     = (Error (py "Could not fetch video info"), [CallMetadata (url sample_url)]).
Proof.
  assert (H : extract_id (url sample_url) <> None) by (vm_compute; discriminate).
  split; [exact H|].
  exact (proj1 (empty_title_is_metadata_failure ascii_tables untitled_world sample_url
                  (Some (py "A description.")) H eq_refl)).
Defined.

(** C10: without a transcript the endpoint still scores the similarity of
    the title to the text [description + " " + ""] and returns that score;
    when the description is absent or empty too, the score returned is 0. *)
Theorem degraded_mode_similarity (U : Unicode) (W : World) (data : VideoData)
    (video_id title : str) (desc : option str) :
  extract_id (url data) = Some video_id ->
  ydl_extract_info W (url data) = Some (Some title, desc) ->
  title <> [] ->
  fetch_transcript W video_id = None ->
  exists r,
    value (predict U W data) = Success r
    /\ Response.transcript_used r = false
    /\ Response.similarity_score r
       = value (similarity_score W title (or_empty desc ++ py " " ++ py ""))
    /\ trace (predict U W data)
       = [CallMetadata (url data); CallTranscript video_id; CallClassifier title]
         ++ trace (similarity_score W title (or_empty desc ++ py " " ++ py ""))
    /\ (desc = None \/ desc = Some [] -> Response.similarity_score r = PyInt 0).
Proof.
  intros Hid Hinfo Ht Htr. pose proof (extract_id_nonempty (url data)) as Hne.
  unfold predict. rewrite Hid in *.
  destruct video_id as [|c video_id]; [contradiction|].
  destruct title as [|c' title]; [contradiction|].
  unfold get_video_info, get_transcript, calling. rewrite Hinfo, Htr.
  change (py "") with (@nil N). cbn [bind ret app or_empty].
  destruct (similarity_score W (c' :: title) (or_empty desc ++ py " " ++ [])) as [sim t] eqn:Es.
  cbv [bind ret value trace fst snd]. cbn [app].
  eexists. split; [reflexivity|]. cbn [Response.transcript_used Response.similarity_score].
  split; [reflexivity|]. split; [reflexivity|]. split; [now rewrite app_nil_r|].
  intros [-> | ->]; cbn in Es; now injection Es as <- _.
Qed.

Lemma degraded_mode_similarity_witness :
  exists r,
    value (predict ascii_tables silent_world sample_url) = Success r
    /\ Response.transcript_used r = false
    /\ Response.similarity_score r
       = value (similarity_score silent_world (py "Introduction to Data Structures in Java")
                  (py "Lecture notes." ++ py " " ++ py "")).
Proof.
  destruct (degraded_mode_similarity ascii_tables silent_world sample_url
              (py "dQw4w9WgXcQ") (py "Introduction to Data Structures in Java")
              (Some (py "Lecture notes.")) eq_refl eq_refl ltac:(discriminate) eq_refl)
    as (r & H1 & H2 & H3 & _).
  exists r. repeat split; assumption.
Defined.

(** * What the patterns extract *)

Lemma strip_prefix_spec p s r : strip_prefix p s = Some r -> s = p ++ r.
Proof.
  revert s. induction p as [|x p IH]; intros s H; cbn in H.
  - now injection H as <-.
  - destruct s as [|y s]; [discriminate|].
    destruct (N.eqb_spec x y) as [->|]; [|discriminate]. cbn. f_equal. now apply IH.
Qed.

Lemma strip_prefix_app p r : strip_prefix p (p ++ r) = Some r.
Proof.
  induction p as [|x p IH]; cbn; [reflexivity|]. now rewrite N.eqb_refl.
Qed.

Lemma take_until_spec stop s :
  exists post, s = take_until stop s ++ post /\ ~ In stop (take_until stop s)
               /\ (post = [] \/ exists post', post = stop :: post').
Proof.
  induction s as [|c s (post & E & Hn & Hp)]; cbn [take_until].
  - exists []. split; [reflexivity|]. split; [intros []|now left].
  - destruct (N.eqb_spec c stop) as [->|ne].
    + exists (stop :: s). split; [reflexivity|]. split; [intros []|right; now exists s].
    + exists post. split; [cbn; now rewrite <- E|]. split; [|exact Hp].
      intros [e|i]; [now apply ne|now apply Hn].
Qed.

Lemma take_until_app stop g rest : ~ In stop g ->
  take_until stop g = g /\ take_until stop (g ++ stop :: rest) = g.
Proof.
  induction g as [|c g IH]; intros H; cbn [take_until app].
  - now rewrite N.eqb_refl.
  - destruct (N.eqb_spec c stop) as [->|ne]; [exfalso; apply H; now left|].
    destruct IH as [E1 E2]; [intros i; apply H; now right|]. now rewrite E1, E2.
Qed.

Lemma match_here_spec lit stop s g : match_here lit stop s = Some g ->
  exists post, s = lit ++ g ++ post /\ g <> [] /\ ~ In stop g
               /\ (post = [] \/ exists post', post = stop :: post').
Proof.
  intros M. pose proof (match_here_nonempty _ _ _ _ M) as Hg.
  unfold match_here in M. destruct (strip_prefix lit s) as [rest|] eqn:S; [|discriminate].
  apply strip_prefix_spec in S. destruct (take_until_spec stop rest) as (post & E & Hn & Hp).
  assert (Eg : take_until stop rest = g) by (destruct (take_until stop rest); congruence).
  rewrite Eg in E, Hn. exists post. rewrite <- E. auto.
Qed.

Lemma re_search_spec lit stop u g : re_search lit stop u = Some g ->
  exists pre post, u = pre ++ lit ++ g ++ post /\ g <> [] /\ ~ In stop g
                   /\ (post = [] \/ exists post', post = stop :: post').
Proof.
  induction u as [|c u IH]; cbn [re_search].
  - destruct (match_here lit stop []) as [g'|] eqn:M; [|discriminate].
    intros H. injection H as ->. exists []. now apply match_here_spec.
  - destruct (match_here lit stop (c :: u)) as [g'|] eqn:M.
    + intros H. injection H as ->. exists []. now apply match_here_spec.
    + intros H. destruct (IH H) as (pre & post & E & R). exists (c :: pre), post.
      split; [cbn; now rewrite E|exact R].
Qed.

Lemma re_search_found lit stop pre c post : c <> stop ->
  re_search lit stop (pre ++ lit ++ c :: post) <> None.
Proof.
  intros ne.
  assert (M : match_here lit stop (lit ++ c :: post) <> None).
  { unfold match_here. rewrite strip_prefix_app. cbn [take_until].
    destruct (N.eqb_spec c stop); [contradiction|discriminate]. }
  induction pre as [|x pre IH]; cbn [app].
  - destruct (lit ++ c :: post) as [|y s]; cbn [re_search];
      destruct (match_here lit stop _); congruence.
  - cbn [re_search].
    destruct (match_here lit stop (x :: pre ++ lit ++ c :: post)); [discriminate|exact IH].
Qed.

Lemma first_match_In ps u g : first_match ps u = Some g ->
  exists lit stop, In (lit, stop) ps /\ re_search lit stop u = Some g.
Proof.
  induction ps as [|[lit stop] ps IH]; cbn [first_match]; [discriminate|].
  destruct (re_search lit stop u) as [g'|] eqn:E.
  - intros H. injection H as ->. exists lit, stop. split; [now left|exact E].
  - intros H. destruct (IH H) as (l & s & Hin & R). exists l, s. split; [now right|exact R].
Qed.

Lemma contains_re_search lit stop s : contains lit s = false -> re_search lit stop s = None.
Proof.
  induction s as [|c s IH]; cbn [contains re_search]; unfold match_here.
  - destruct (strip_prefix lit []); [discriminate|reflexivity].
  - destruct (strip_prefix lit (c :: s)); [discriminate|exact IH].
Qed.

(** X1: the identifier is a non-empty piece of the URL that directly follows the
    literal text of one of the three patterns, is free of that pattern's
    delimiter, and runs up to the next delimiter or to the end of the URL. *)
Theorem extract_id_delimited (u g : str) :
  extract_id u = Some g ->
  exists lit stop pre post,
    In (lit, stop) patterns /\ u = pre ++ lit ++ g ++ post /\ g <> [] /\ ~ In stop g
    /\ (post = [] \/ exists post', post = stop :: post').
Proof.
  intros H. apply first_match_In in H. destruct H as (lit & stop & Hin & R).
  apply re_search_spec in R. destruct R as (pre & post & R). exists lit, stop, pre, post. auto.
Qed.

Lemma extract_id_delimited_witness :
  exists lit stop pre post,
    In (lit, stop) patterns
    /\ py "https://www.youtube.com/watch?v=abc123&t=42s" = pre ++ lit ++ py "abc123" ++ post
    /\ py "abc123" <> [] /\ ~ In stop (py "abc123")
    /\ (post = [] \/ exists post', post = stop :: post').
Proof.
  apply (extract_id_delimited (py "https://www.youtube.com/watch?v=abc123&t=42s") (py "abc123")).
  vm_compute. reflexivity.
Defined.

(** X2: a URL is accepted exactly when it contains the literal text of a pattern
    followed by a character other than the pattern's delimiter; the host is
    not examined. *)
Theorem extract_id_accepts :
  (forall u : str,
      extract_id u <> None <->
      exists lit stop pre c post,
        In (lit, stop) patterns /\ u = pre ++ lit ++ c :: post /\ c <> stop)
  /\ extract_id (py "https://example.com/?v=x") = Some (py "x")
  /\ extract_id (py "v=&") = None.
Proof.
  split; [|split; vm_compute; reflexivity].
  intros u. split.
  - destruct (extract_id u) as [g|] eqn:E; [intros _|congruence].
    apply first_match_In in E. destruct E as (lit & stop & Hin & R).
    apply re_search_spec in R. destruct R as (pre & post & Eu & Hg & Hn & _).
    destruct g as [|c g]; [contradiction|].
    exists lit, stop, pre, c, (g ++ post). split; [exact Hin|]. split; [exact Eu|].
    intros ->. apply Hn. now left.
  - intros (lit & stop & pre & c & post & Hin & -> & ne) H.
    rewrite extract_id_None in H. apply (re_search_found lit stop pre c post ne). now apply H.
Qed.

(** X3: a watch URL gives back its [v] parameter, alone or followed by
    further parameters. *)
Theorem extract_id_watch_url (id rest : str) :
  id <> [] -> ~ In amp id ->
  extract_id (py "https://www.youtube.com/watch?v=" ++ id) = Some id
  /\ extract_id (py "https://www.youtube.com/watch?v=" ++ id ++ amp :: rest) = Some id.
Proof.
  intros Hne Hamp. destruct (take_until_app amp id rest Hamp) as [E1 E2].
  split; unfold extract_id; cbn [patterns first_match];
    cbn [py List.map list_ascii_of_string app re_search match_here strip_prefix N_of_ascii
         N_of_digits N.eqb Pos.eqb N.add N.mul Pos.add Pos.mul];
    [rewrite E1|rewrite E2]; destruct id; [contradiction|reflexivity|contradiction|reflexivity].
Qed.

Lemma extract_id_watch_url_witness :
  extract_id (py "https://www.youtube.com/watch?v=" ++ py "dQw4w9WgXcQ") = Some (py "dQw4w9WgXcQ")
  /\ extract_id (py "https://www.youtube.com/watch?v=" ++ py "dQw4w9WgXcQ" ++ amp :: py "t=42s")
     = Some (py "dQw4w9WgXcQ").
Proof.
  apply extract_id_watch_url; [discriminate|].
  intros H. repeat (destruct H as [H|H]; [discriminate H|]). exact H.
Defined.

(** X4: a short link gives back the path segment after the host, and so does a
    shorts URL, unless the literal text of an earlier pattern occurs in what
    follows: the patterns are tried in order on the whole URL. *)
Theorem extract_id_short_link (id rest : str) :
  id <> [] -> ~ In qmark id -> contains (py "v=") (id ++ qmark :: rest) = false ->
  extract_id (py "https://youtu.be/" ++ id ++ qmark :: rest) = Some id
  /\ (contains (py "youtu.be/") (id ++ qmark :: rest) = false ->
      extract_id (py "https://www.youtube.com/shorts/" ++ id ++ qmark :: rest) = Some id)
  /\ extract_id (py "https://youtu.be/abc?v=xyz") = Some (py "xyz").
Proof.
  intros Hne Hq Hv. destruct (take_until_app qmark id rest Hq) as [_ E].
  pose proof (contains_re_search _ amp _ Hv) as R1.
  cbn [py List.map list_ascii_of_string app N_of_ascii N_of_digits N.add N.mul Pos.add Pos.mul]
    in R1.
  split; [|split; [intros Hy|vm_compute; reflexivity]]; unfold extract_id;
    cbn [patterns first_match].
  - cbn [py List.map list_ascii_of_string app re_search match_here strip_prefix N_of_ascii
         N_of_digits N.eqb Pos.eqb N.add N.mul Pos.add Pos.mul].
    rewrite R1, E. destruct id; [contradiction|reflexivity].
  - pose proof (contains_re_search _ qmark _ Hy) as R2.
    cbn [py List.map list_ascii_of_string app N_of_ascii N_of_digits N.add N.mul Pos.add Pos.mul]
      in R2.
    cbn [py List.map list_ascii_of_string app re_search match_here strip_prefix N_of_ascii
         N_of_digits N.eqb Pos.eqb N.add N.mul Pos.add Pos.mul].
    rewrite R1.
    cbn [py List.map list_ascii_of_string app re_search match_here strip_prefix N_of_ascii
         N_of_digits N.eqb Pos.eqb N.add N.mul Pos.add Pos.mul].
    rewrite R2, E. destruct id; [contradiction|reflexivity].
Qed.

Lemma extract_id_short_link_witness :
  extract_id (py "https://youtu.be/" ++ py "dQw4w9WgXcQ" ++ qmark :: py "si=abc")
  = Some (py "dQw4w9WgXcQ").
Proof.
  refine (proj1 (extract_id_short_link (py "dQw4w9WgXcQ") (py "si=abc") _ _ _));
    [discriminate| |reflexivity].
  intros H. repeat (destruct H as [H|H]; [discriminate H|]). exact H.
Defined.

(** * The signals of the rule score *)

Lemma contains_app needle pre post : contains needle (pre ++ needle ++ post) = true.
Proof.
  assert (S : forall p r, exists x, strip_prefix p (p ++ r) = Some x).
  { induction p as [|x p IH]; intros r; cbn; [eauto|]. rewrite N.eqb_refl. apply IH. }
  induction pre as [|c pre IH]; cbn [app].
  - destruct (S needle post) as (x & E).
    destruct (needle ++ post); cbn [contains]; now rewrite E.
  - cbn [contains].
    destruct (strip_prefix needle (c :: pre ++ needle ++ post)); [reflexivity|exact IH].
Qed.

(** The score before the cap, as a sum of the five signals. *)
Lemma rule_score_sum U title :
  lexical_rule_score U title
  = Z.min (8 * Z.of_nat (List.length
                 (filter (fun word => contains word (lower U title)) CLICKBAIT_WORDS))
           + Z.min (count bang title * 2) 10 + Z.min (count qmark title * 2) 10
           + (if isupper U title && (10 <? len title) then 10 else 0)
           + (if existsb (is_decimal U) title then 5 else 0)) 40.
Proof.
  unfold lexical_rule_score. rewrite keyword_points.
  destruct (isupper U title && (10 <? len title)); destruct (existsb (is_decimal U) title);
    f_equal; lia.
Qed.

Lemma filter_nil_iff {A : Type} (f : A -> bool) (l : list A) :
  filter f l = [] <-> forall x, In x l -> f x = false.
Proof.
  induction l as [|a l IH]; cbn [filter].
  - split; [intros _ x []|reflexivity].
  - destruct (f a) eqn:E.
    + split; [discriminate|]. intros H. rewrite (H a) in E by (now left). discriminate.
    + rewrite IH. split.
      * intros H x [<-|Hin]; [exact E|now apply H].
      * intros H x Hin. apply H. now right.
Qed.

(** X5: the rule score is 0 exactly when no signal fires: no keyword, no
    exclamation or question mark, no upper-case title of more than 10
    characters, no digit. *)
Theorem rule_score_zero_iff (U : Unicode) (title : str) :
  lexical_rule_score U title = 0 <->
  (forall word, In word CLICKBAIT_WORDS -> contains word (lower U title) = false)
  /\ count bang title = 0 /\ count qmark title = 0
  /\ isupper U title && (10 <? len title) = false
  /\ existsb (is_decimal U) title = false.
Proof.
  rewrite rule_score_sum, <- filter_nil_iff.
  pose proof (count_nonneg bang title) as Hb. pose proof (count_nonneg qmark title) as Hq.
  destruct (filter (fun word => contains word (lower U title)) CLICKBAIT_WORDS) as [|w ws];
    cbn [List.length];
    destruct (isupper U title && (10 <? len title)); destruct (existsb (is_decimal U) title);
    (split; [intros H; try lia; repeat split; lia
            |intros (H1 & H2 & H3 & H4 & H5); try discriminate; lia]).
Qed.

(** X6: without a keyword the score is at most 35, so the cap of 40 is only
    reached by titles that contain a keyword; five keywords reach it
    alone. *)
Theorem rule_score_keywords (U : Unicode) (title : str) :
  ((forall word, In word CLICKBAIT_WORDS -> contains word (lower U title) = false) ->
     lexical_rule_score U title <= 35)
  /\ (lexical_rule_score U title = 40 ->
        exists word, In word CLICKBAIT_WORDS /\ contains word (lower U title) = true)
  /\ (forall found, NoDup found -> (5 <= List.length found)%nat ->
        (forall word, In word found ->
           In word CLICKBAIT_WORDS /\ contains word (lower U title) = true) ->
        lexical_rule_score U title = 40).
Proof.
  pose proof (count_nonneg bang title) as Hb. pose proof (count_nonneg qmark title) as Hq.
  assert (A : (forall word, In word CLICKBAIT_WORDS -> contains word (lower U title) = false) ->
              lexical_rule_score U title <= 35).
  { intros H. apply filter_nil_iff in H. rewrite rule_score_sum, H. cbn [List.length].
    destruct (isupper U title && (10 <? len title)); destruct (existsb (is_decimal U) title); lia. }
  split; [exact A|]. split.
  - intros H40.
    destruct (filter (fun word => contains word (lower U title)) CLICKBAIT_WORDS) as [|w ws] eqn:F.
    + rewrite filter_nil_iff in F. specialize (A F). lia.
    + assert (Hin : In w (filter (fun word => contains word (lower U title)) CLICKBAIT_WORDS))
        by (rewrite F; now left).
      apply filter_In in Hin. now exists w.
  - intros found Hnd Hlen Hall. rewrite rule_score_sum.
    assert (L : (List.length found
                 <= List.length (filter (fun word => contains word (lower U title))
                                        CLICKBAIT_WORDS))%nat).
    { apply NoDup_incl_length; [exact Hnd|]. intros w Hw. apply filter_In. now apply Hall. }
    destruct (isupper U title && (10 <? len title)); destruct (existsb (is_decimal U) title); lia.
Qed.

(** X7: a keyword counts wherever it occurs in the lower-cased title, also
    inside a longer word. *)
Theorem rule_score_substring (U : Unicode) (title word pre post : str) :
  In word CLICKBAIT_WORDS -> lower U title = pre ++ word ++ post ->
  8 <= lexical_rule_score U title.
Proof.
  intros Hin E. rewrite rule_score_sum.
  pose proof (count_nonneg bang title) as Hb. pose proof (count_nonneg qmark title) as Hq.
  assert (F : In word (filter (fun word => contains word (lower U title)) CLICKBAIT_WORDS)).
  { apply filter_In. split; [exact Hin|]. rewrite E. apply contains_app. }
  destruct (filter (fun word => contains word (lower U title)) CLICKBAIT_WORDS) as [|w ws];
    [contradiction|]. cbn [List.length].
  destruct (isupper U title && (10 <? len title)); destruct (existsb (is_decimal U) title); lia.
Qed.

Lemma rule_score_substring_witness :
  8 <= lexical_rule_score ascii_tables (py "Scampi and Tricky Secretaries").
Proof.
  apply (rule_score_substring ascii_tables (py "Scampi and Tricky Secretaries")
           (py "scam") (py "") (py "pi and tricky secretaries")).
  - vm_compute. tauto.
  - reflexivity.
Defined.

(** * The calls of the similarity scorer *)

Lemma forallb_app_false_l {A : Type} (f : A -> bool) (a b : list A) :
  forallb f a = false -> forallb f (a ++ b) = false.
Proof. intros H. rewrite forallb_app, H. reflexivity. Qed.

Lemma len_firstn_le {A : Type} n (s : list A) : (List.length (firstn n s) <= n)%nat.
Proof. rewrite length_firstn. lia. Qed.

Lemma similarity_nonblank W title content : forallb is_space content = false ->
  similarity_score W title content
  = (PyFloat (py_round2 (cos_sim W (encode W title) (encode W (firstn 3000 content)) * 100)%float),
     [CallEmbed title; CallEmbed (firstn 3000 content)]).
Proof.
  intros H. pose proof (strip_nonblank _ H) as S. unfold similarity_score.
  destruct content as [|c content]; [discriminate H|].
  destruct (strip (c :: content)); [contradiction|reflexivity].
Qed.

(** X8: on a content that is not blank the scorer calls the embedder exactly
    twice, on the whole title and on at most 3000 characters of the
    content, and returns a float: the rounded cosine of the two embeddings
    times 100.  The result is the integer 0 only for a blank content. *)
Theorem similarity_of_nonblank_content (W : World) (title content : str) :
  (forallb is_space content = false ->
     similarity_score W title content
     = (PyFloat (py_round2 (cos_sim W (encode W title) (encode W (firstn 3000 content))
                            * 100)%float),
        [CallEmbed title; CallEmbed (firstn 3000 content)])
     /\ len (firstn 3000 content) <= 3000)
  /\ ((exists z, value (similarity_score W title content) = PyInt z)
      <-> forallb is_space content = true)
  /\ (trace (similarity_score W title content) = [] <-> forallb is_space content = true).
Proof.
  split; [|split].
  - intros H. split; [now apply similarity_nonblank|].
    unfold len. pose proof (len_firstn_le 3000 content). lia.
  - destruct (forallb is_space content) eqn:E.
    + split; [reflexivity|intros _].
      unfold similarity_score. destruct content as [|c content]; [now exists 0|].
      rewrite (strip_blank _ E). now exists 0.
    + rewrite (similarity_nonblank _ _ _ E). split; [intros [z Hz]; discriminate Hz|discriminate].
  - destruct (forallb is_space content) eqn:E.
    + split; [reflexivity|intros _].
      unfold similarity_score. destruct content as [|c content]; [reflexivity|].
      now rewrite (strip_blank _ E).
    + rewrite (similarity_nonblank _ _ _ E). split; discriminate.
Qed.

(** * Outcomes and calls of the endpoint *)

(** The endpoint, with its three outcomes side by side. *)
Lemma predict_cases U W data :
  (extract_id (url data) = None /\ predict U W data = (Error (py "Invalid YouTube URL"), []))
  \/ (exists video_id, extract_id (url data) = Some video_id /\
        (ydl_extract_info W (url data) = None
         \/ (exists desc, ydl_extract_info W (url data) = Some (None, desc))
         \/ (exists desc, ydl_extract_info W (url data) = Some (Some [], desc))) /\
        predict U W data = (Error (py "Could not fetch video info"), [CallMetadata (url data)]))
  \/ (exists video_id title desc r,
        extract_id (url data) = Some video_id /\
        ydl_extract_info W (url data) = Some (Some title, desc) /\ title <> [] /\
        value (predict U W data) = Success r /\
        Response.title r = title /\
        Response.transcript_used r
        = match fetch_transcript W video_id with Some _ => true | None => false end /\
        trace (predict U W data)
        = [CallMetadata (url data); CallTranscript video_id; CallClassifier title]
          ++ trace (similarity_score W title
                      (or_empty desc ++ py " "
                       ++ or_empty (option_map (join (py " ")) (fetch_transcript W video_id))))).
Proof.
  pose proof (extract_id_nonempty (url data)) as Hne.
  unfold predict. destruct (extract_id (url data)) as [[|c vid]|] eqn:Eid;
    [contradiction| |left; split; reflexivity].
  right. unfold get_video_info, calling.
  destruct (ydl_extract_info W (url data)) as [[[[|c' t]|] desc]|] eqn:Einfo.
  - left. exists (c :: vid). split; [reflexivity|]. split; [|reflexivity].
    right; right. now exists desc.
  - right. exists (c :: vid), (c' :: t), desc.
    unfold get_transcript, calling.
    destruct (fetch_transcript W (c :: vid)) as [segs|] eqn:Etr; cbn [option_map];
      cbn [bind ret app or_empty];
      match goal with
      | |- context [similarity_score ?w ?a ?b] =>
          destruct (similarity_score w a b) as [sim tr] eqn:Es
      end; cbv [bind ret value trace fst snd]; cbn [app]; rewrite app_nil_r;
      eexists; repeat split; discriminate.
  - left. exists (c :: vid). split; [reflexivity|]. split; [|reflexivity].
    right; left. now exists desc.
  - left. exists (c :: vid). split; [reflexivity|]. split; [|reflexivity]. now left.
Qed.


(** X10: the reply is "Could not fetch video info" exactly when the URL holds an
    identifier and the metadata request raised, returned no title or
    returned an empty one; the metadata request is then the only call. *)
Theorem metadata_failure_iff (U : Unicode) (W : World) (data : VideoData) :
  (value (predict U W data) = Error (py "Could not fetch video info") <->
   extract_id (url data) <> None
   /\ (ydl_extract_info W (url data) = None
       \/ (exists desc, ydl_extract_info W (url data) = Some (None, desc))
       \/ (exists desc, ydl_extract_info W (url data) = Some (Some [], desc))))
  /\ (value (predict U W data) = Error (py "Could not fetch video info") ->
      trace (predict U W data) = [CallMetadata (url data)]).
Proof.
  destruct (predict_cases U W data)
    as [[Eid P]|[(vid & Eid & F & P)|(vid & t & desc & r & Eid & Einfo & Ht & P & _)]].
  - rewrite P. cbn [value fst]. split; [|discriminate].
    split; [discriminate|]. intros [H _]. contradiction.
  - rewrite P. cbn [value trace fst snd]. split; [|reflexivity].
    split; [intros _|reflexivity]. split; [congruence|exact F].
  - rewrite P. split; [|discriminate]. split; [discriminate|].
    intros [_ [F|[[d F]|[d F]]]]; rewrite F in Einfo; try discriminate.
    injection Einfo as <- _. contradiction.
Qed.

(** X11: a successful request calls the services in a fixed order: the metadata
    of the URL, the transcript of the identifier, the classifier on the
    title, and then either nothing or the embedder twice, on the title and
    on a text of at most 3000 characters.  The classifier never sees the
    description or the transcript. *)
Theorem predict_call_order (U : Unicode) (W : World) (data : VideoData) (r : Response.t) :
  value (predict U W data) = Success r ->
  exists video_id,
    extract_id (url data) = Some video_id
    /\ (trace (predict U W data)
        = [CallMetadata (url data); CallTranscript video_id; CallClassifier (Response.title r)]
        \/ exists text,
            len text <= 3000
            /\ trace (predict U W data)
               = [CallMetadata (url data); CallTranscript video_id;
                  CallClassifier (Response.title r);
                  CallEmbed (Response.title r); CallEmbed text]).
Proof.
  intros H.
  destruct (predict_cases U W data)
    as [[Eid P]|[(vid & Eid & F & P)|(vid & t & desc & r' & Eid & Einfo & Ht & P & Et & _ & Tr)]].
  - rewrite P in H. discriminate H.
  - rewrite P in H. discriminate H.
  - rewrite P in H. injection H as ->. exists vid. split; [exact Eid|]. rewrite Tr, Et.
    set (text := or_empty desc ++ py " "
                 ++ or_empty (option_map (join (py " ")) (fetch_transcript W vid))).
    destruct (forallb is_space text) eqn:B.
    + left. unfold similarity_score. destruct text as [|c text]; [reflexivity|].
      now rewrite (strip_blank _ B).
    + right. exists (firstn 3000 text). rewrite (similarity_nonblank _ _ _ B).
      split; [|reflexivity]. unfold len. pose proof (len_firstn_le 3000 text). lia.
Qed.

Lemma predict_call_order_witness :
  exists video_id,
    extract_id (url sample_url) = Some video_id
    /\ (trace (predict ascii_tables sample_world sample_url)
        = [CallMetadata (url sample_url); CallTranscript video_id;
           CallClassifier (Response.title sample_response)]
        \/ exists text,
            len text <= 3000
            /\ trace (predict ascii_tables sample_world sample_url)
               = [CallMetadata (url sample_url); CallTranscript video_id;
                  CallClassifier (Response.title sample_response);
                  CallEmbed (Response.title sample_response); CallEmbed text]).
Proof.
  apply predict_call_order. vm_compute. reflexivity.
Defined.

(** X12: the reply reports a transcript as used exactly when the transcript
    request did not raise, whatever it returned: a transcript without any
    segment counts as used. *)
Theorem transcript_used_iff (U : Unicode) (W : World) (data : VideoData)
    (r : Response.t) (video_id : str) :
  value (predict U W data) = Success r ->
  extract_id (url data) = Some video_id ->
  (Response.transcript_used r = true <-> fetch_transcript W video_id <> None)
  /\ (fetch_transcript W video_id = Some [] -> Response.transcript_used r = true).
Proof.
  intros H Eid.
  destruct (predict_cases U W data)
    as [[Eid' P]|[(vid & Eid' & F & P)|(vid & t & desc & r' & Eid' & _ & _ & P & _ & Tu & _)]].
  - rewrite P in H. discriminate H.
  - rewrite P in H. discriminate H.
  - rewrite P in H. injection H as ->. rewrite Eid in Eid'. injection Eid' as <-.
    rewrite Tu. destruct (fetch_transcript W video_id); split; try (split; congruence); congruence.
Qed.

Lemma transcript_used_iff_witness :
  Response.transcript_used sample_response = true
  <-> fetch_transcript sample_world (py "dQw4w9WgXcQ") <> None.
Proof.
  refine (proj1 (transcript_used_iff ascii_tables sample_world sample_url sample_response
                   (py "dQw4w9WgXcQ") _ _)); vm_compute; reflexivity.
Defined.

(** X13: when the transcript request succeeds but description and transcript are
    blank together, the full-data weights are applied to a similarity of 0:
    the similarity term contributes its full 30 points, and the embedder is
    not called. *)
Theorem blank_transcript_full_mode (U : Unicode) (W : World) (data : VideoData)
    (video_id title : str) (desc : option str) (segments : list str) :
  extract_id (url data) = Some video_id ->
  ydl_extract_info W (url data) = Some (Some title, desc) ->
  title <> [] ->
  fetch_transcript W video_id = Some segments ->
  forallb is_space (or_empty desc ++ py " " ++ join (py " ") segments) = true ->
  exists r,
    predict U W data
    = (Success r, [CallMetadata (url data); CallTranscript video_id; CallClassifier title])
    /\ Response.transcript_used r = true
    /\ Response.similarity_score r = PyInt 0
    /\ Response.final_score r
       = py_round2 (Response.ai_score r * 0.45
                    + Z2float (Response.rule_score r) * 0.25 + 30)%float.
Proof.
  intros Hid Hinfo Ht Htr Hb. pose proof (extract_id_nonempty (url data)) as Hne.
  assert (Es : similarity_score W title (or_empty desc ++ py " " ++ join (py " ") segments)
               = (PyInt 0, [])).
  { unfold similarity_score.
    destruct (or_empty desc ++ py " " ++ join (py " ") segments); [reflexivity|].
    now rewrite (strip_blank _ Hb). }
  unfold predict. rewrite Hid in *.
  destruct video_id as [|c video_id]; [contradiction|].
  destruct title as [|c' title]; [contradiction|].
  unfold get_video_info, get_transcript, calling. rewrite Hinfo, Htr.
  cbn [bind ret app or_empty]. rewrite Es.
  cbv [bind ret value trace fst snd]. cbn [app].
  eexists. split; [reflexivity|]. repeat split.
Qed.

Lemma blank_transcript_full_mode_witness :
  exists r,
    predict ascii_tables
      (const_world (Some (py "Introduction to Data Structures in Java")) None (Some [])
                   0%float 0.5%float)
      sample_url
    = (Success r,
       [CallMetadata (url sample_url); CallTranscript (py "dQw4w9WgXcQ");
        CallClassifier (py "Introduction to Data Structures in Java")])
    /\ Response.transcript_used r = true
    /\ Response.similarity_score r = PyInt 0
    /\ Response.final_score r
       = py_round2 (Response.ai_score r * 0.45
                    + Z2float (Response.rule_score r) * 0.25 + 30)%float.
Proof.
  apply (blank_transcript_full_mode ascii_tables _ sample_url (py "dQw4w9WgXcQ")
           (py "Introduction to Data Structures in Java") None []);
    try reflexivity. discriminate.
Defined.

(** X14: a description of 3000 characters or more that is not blank hides the
    transcript from the similarity score: two worlds that differ only in
    the transcript they return for the video give the same reply through
    the same calls. *)
Theorem long_description_hides_transcript (U : Unicode) (W : World) (data : VideoData)
    (video_id title desc : str) (fetch1 fetch2 : str -> option (list str)) :
  extract_id (url data) = Some video_id ->
  ydl_extract_info W (url data) = Some (Some title, Some desc) ->
  3000 <= len desc ->
  forallb is_space desc = false ->
  fetch1 video_id <> None -> fetch2 video_id <> None ->
  predict U (with_transcript W fetch1) data = predict U (with_transcript W fetch2) data.
Proof.
  intros Hid Hinfo Hlen Hb H1 H2.
  assert (S : forall rest,
             similarity_score W title (desc ++ rest) = similarity_score W title (desc ++ [])).
  { intros rest.
    rewrite (similarity_nonblank W title (desc ++ rest)) by (now apply forallb_app_false_l).
    rewrite (similarity_nonblank W title (desc ++ [])) by (now apply forallb_app_false_l).
    unfold len in Hlen. rewrite !firstn_app.
    replace (3000 - List.length desc)%nat with 0%nat by lia. reflexivity. }
  unfold predict. rewrite Hid.
  destruct video_id as [|c video_id]; [reflexivity|].
  unfold get_video_info, get_transcript, calling.
  cbn [ydl_extract_info fetch_transcript with_transcript].
  rewrite Hinfo.
  destruct title as [|c' title]; [reflexivity|].
  destruct (fetch1 (c :: video_id)) as [s1|]; [|contradiction].
  destruct (fetch2 (c :: video_id)) as [s2|]; [|contradiction].
  cbn [bind ret app or_empty classifier_score with_transcript].
  change (similarity_score (with_transcript W fetch1)) with (similarity_score W).
  change (similarity_score (with_transcript W fetch2)) with (similarity_score W).
  rewrite (S (py " " ++ join (py " ") s1)), (S (py " " ++ join (py " ") s2)). reflexivity.
Qed.

Lemma long_description_hides_transcript_witness :
  predict ascii_tables
    (with_transcript (const_world (Some (py "A title")) (Some (py "x" ++ padded_content))
                                  None 0.5%float 0.5%float)
                     (fun _ => Some [py "one"; py "transcript"]))
    sample_url
  = predict ascii_tables
      (with_transcript (const_world (Some (py "A title")) (Some (py "x" ++ padded_content))
                                    None 0.5%float 0.5%float)
                       (fun _ => Some [py "something"; py "else"; py "entirely"]))
      sample_url.
Proof.
  apply (long_description_hides_transcript ascii_tables _ sample_url (py "dQw4w9WgXcQ")
           (py "A title") (py "x" ++ padded_content)); try reflexivity; discriminate.
Defined.

(** * Decimal rounding in general

    [round(x, 2)] of a non-negative double is the double nearest to the
    hundredth nearest to [x]; it is monotone and commutes with the sign. *)

(** ** Rounding a fraction *)

Lemma nearest_frac_1 V : nearest_frac V 1 = nearest64 V.
Proof. unfold nearest_frac, nearest64. now rewrite Z.div_1_r, Z.mul_1_l. Qed.

Lemma nearest_frac_scale c N D : 0 < c -> 0 < D -> nearest_frac (c * N) (c * D) = nearest_frac N D.
Proof.
  intros Hc HD. unfold nearest_frac. rewrite Z.div_mul_cancel_l by lia.
  rewrite <- Z.mul_assoc. rewrite round_half_even_scale; [reflexivity|exact Hc|].
  apply Z.mul_pos_pos; [exact HD|]. apply Z.pow_pos_nonneg; [lia|].
  rewrite ulp_exp_eq. lia.
Qed.

Lemma nearest_frac_mono N N' D : 0 < D -> 0 <= N <= N' -> nearest_frac N D <= nearest_frac N' D.
Proof.
  intros HD HN. unfold nearest_frac.
  assert (HV : 0 <= N / D <= N' / D).
  { split; [apply Z.div_pos; lia|apply Z.div_le_mono; lia]. }
  set (V := N / D) in *. set (V' := N' / D) in *.
  pose proof (ulp_exp_eq V) as HL. pose proof (ulp_exp_eq V') as HL'.
  assert (Hlog : Z.log2 V <= Z.log2 V') by (apply Z.log2_le_mono; lia).
  set (L := ulp_exp V) in *. set (L' := ulp_exp V') in *.
  assert (P : 0 < 2 ^ L) by (apply Z.pow_pos_nonneg; lia).
  assert (P' : 0 < 2 ^ L') by (apply Z.pow_pos_nonneg; lia).
  assert (PD : 0 < D * 2 ^ L) by (apply Z.mul_pos_pos; assumption).
  assert (PD' : 0 < D * 2 ^ L') by (apply Z.mul_pos_pos; assumption).
  destruct (Z.eq_dec L L') as [e|ne].
  - rewrite <- e. apply Z.mul_le_mono_nonneg_r; [lia|]. apply round_half_even_mono; lia.
  - assert (Hlt : L < L') by lia.
    assert (HVp' : 0 < V').
    { destruct (Z.eq_dec V' 0) as [z|nz]; [|lia]. rewrite z in HL'. cbn in HL'. lia. }
    pose proof (Z.log2_spec V' HVp') as S'.
    assert (U : V < 2 ^ (L + 53)).
    { destruct (Z.eq_dec V 0) as [z|nz]; [rewrite z; apply Z.pow_pos_nonneg; lia|].
      pose proof (Z.log2_spec V ltac:(lia)) as S.
      apply Z.lt_le_trans with (2 ^ Z.succ (Z.log2 V)); [lia|]. apply Z.pow_le_mono_r; lia. }
    assert (Lw : 2 ^ (L' + 52) <= V').
    { apply Z.le_trans with (2 ^ Z.log2 V'); [|lia]. apply Z.pow_le_mono_r; lia. }
    assert (M : 2 ^ (L + 53) <= 2 ^ (L' + 52)) by (apply Z.pow_le_mono_r; lia).
    rewrite (Z.pow_add_r 2 L 53) in U, M by lia.
    rewrite (Z.pow_add_r 2 L' 52) in Lw, M by lia.
    pose proof (round_half_even_bounds N _ PD) as B.
    pose proof (round_half_even_bounds N' _ PD') as B'.
    rewrite <- Z.div_div in B, B' by lia. fold V in B. fold V' in B'.
    assert (Q : V / 2 ^ L < 2 ^ 53) by (apply Z.div_lt_upper_bound; lia).
    assert (Q' : 2 ^ 52 <= V' / 2 ^ L') by (apply Z.div_le_lower_bound; lia).
    apply Z.le_trans with (2 ^ 53 * 2 ^ L); [apply Z.mul_le_mono_nonneg_r; lia|].
    apply Z.le_trans with (2 ^ 52 * 2 ^ L'); [lia|apply Z.mul_le_mono_nonneg_r; lia].
Qed.

(** Rounding a quotient from its integer part and the location of the
    remainder gives the rounding of the exact quotient. *)
Lemma round_located q r n : 0 <= q -> 0 <= r < 100 -> 0 <= n ->
  round_half_even (4 * q + loc_bits (new_location 100 r)) (2 ^ (n + 2))
  = round_half_even (100 * q + r) (100 * 2 ^ n).
Proof.
  intros Hq Hr Hn.
  assert (Hl : let lb := loc_bits (new_location 100 r) in
               (lb = 0 /\ r = 0) \/ (lb = 1 /\ 0 < r < 50) \/ (lb = 2 /\ r = 50)
               \/ (lb = 3 /\ 50 < r)).
  { unfold new_location. change (Z.even 100) with true. cbv iota. unfold new_location_even.
    zfold. destruct (Z.eqb_spec r 0) as [z|nz]; [left; split; [reflexivity|exact z]|].
    right. destruct (Z.compare_spec (2 * r) 100); cbn [loc_bits]; lia. }
  cbv zeta in Hl. remember (loc_bits (new_location 100 r)) as lb eqn:Hlb. clear Hlb.
  rewrite (Z.pow_add_r 2 n 2) by lia. change (2 ^ 2) with 4.
  assert (PM : 0 < 2 ^ n) by (apply Z.pow_pos_nonneg; lia).
  assert (HM : 2 ^ n = 1 \/ exists M', 0 < M' /\ 2 ^ n = 2 * M').
  { destruct (Z.eq_dec n 0) as [->|nz]; [now left|right].
    exists (2 ^ (n - 1)). split; [apply Z.pow_pos_nonneg; lia|].
    rewrite <- (Z.pow_succ_r 2 (n - 1)) by lia. f_equal. lia. }
  remember (2 ^ n) as M eqn:HMdef. clear HMdef n Hn.
  pose proof (Z.div_mod q M ltac:(lia)) as DM. pose proof (Z.mod_pos_bound q M PM) as MB.
  remember (q / M) as Q eqn:HQ. remember (q mod M) as a eqn:Ha. clear HQ Ha.
  unfold round_half_even.
  assert (D1 : (4 * q + lb) / (M * 4) = Q)
    by (symmetry; apply Z.div_unique with (4 * a + lb); lia).
  assert (D2 : (100 * q + r) / (100 * M) = Q)
    by (symmetry; apply Z.div_unique with (100 * a + r); lia).
  assert (M1 : (4 * q + lb) mod (M * 4) = 4 * a + lb)
    by (symmetry; apply Z.mod_unique with Q; lia).
  assert (M2 : (100 * q + r) mod (100 * M) = 100 * a + r)
    by (symmetry; apply Z.mod_unique with Q; lia).
  rewrite D1, D2, M1, M2.
  assert (C : (2 * (4 * a + lb) ?= M * 4) = (2 * (100 * a + r) ?= 100 * M)).
  { destruct HM as [H1|(M' & PM' & H2)].
    - assert (a = 0) by lia. subst a M.
      destruct (Z.compare_spec (2 * (4 * 0 + lb)) (1 * 4));
        destruct (Z.compare_spec (2 * (100 * 0 + r)) (100 * 1)); try reflexivity; lia.
    - subst M.
      destruct (Z.compare_spec (2 * (4 * a + lb)) (2 * M' * 4));
        destruct (Z.compare_spec (2 * (100 * a + r)) (100 * (2 * M'))); try reflexivity; lia. }
  rewrite C. reflexivity.
Qed.

(** ** The double nearest to a decimal *)

(** [dec2] returns the double nearest to [p / 100]. *)
Lemma dec2_spec p : Zpos p < 2 ^ 60 ->
  let y := dec2 false (Zpos p) in
  valid_binary y = true /\ nonneg_finite y = true
  /\ SFvalue y = nearest_frac (Zpos p * 2 ^ scale) 100.
Proof.
  intros Hp. cbv zeta. cbn [dec2]. unfold SFdiv, SFdiv_core_binary. zfold.
  change (fexp prec emax) with fexp64. cbn [Zdigits2 xorb].
  change (Zpos (digits2_pos 100)) with 7.
  pose proof (digits2_bounds p) as B. remember (Zpos (digits2_pos p)) as d eqn:Hd.
  assert (Hd60 : 1 <= d <= 60).
  { split; [lia|]. destruct (Z_le_gt_dec d 60) as [l|g]; [exact l|exfalso].
    assert (2 ^ 60 <= 2 ^ (d - 1)) by (apply Z.pow_le_mono_r; lia). lia. }
  replace (Z.min (fexp64 (d + 0 - (7 + 0))) (0 - 0)) with (d - 60) by (unfold fexp64; lia).
  replace (0 - 0 - (d - 60)) with (60 - d) by lia.
  remember (60 - d) as s eqn:Hs.
  assert (Hm' : match s with Zpos _ => Z.shiftl (Zpos p) s | 0 => Zpos p | Zneg _ => 0 end
                = Zpos p * 2 ^ s).
  { destruct s as [|s'|s'] eqn:Q; try lia. rewrite Z.shiftl_mul_pow2 by lia. reflexivity. }
  rewrite Hm'. clear Hm'.
  assert (Ps : 0 < 2 ^ s) by (apply Z.pow_pos_nonneg; lia).
  assert (L59 : 2 ^ 59 <= Zpos p * 2 ^ s).
  { replace 59 with ((d - 1) + s) by lia. rewrite Z.pow_add_r by lia.
    apply Z.mul_le_mono_nonneg_r; lia. }
  assert (U60 : Zpos p * 2 ^ s < 2 ^ 60).
  { replace 60 with (d + s) by lia. rewrite Z.pow_add_r by lia.
    apply Z.mul_lt_mono_pos_r; lia. }
  assert (EX : Zpos p * 2 ^ scale = 2 ^ (scale - s) * (Zpos p * 2 ^ s)).
  { rewrite Z.mul_assoc, (Z.mul_comm (2 ^ (scale - s))), <- Z.mul_assoc, <- Z.pow_add_r by lia.
    do 2 f_equal. lia. }
  rewrite EX. clear EX.
  remember (Zpos p * 2 ^ s) as X eqn:HX. clear HX.
  pose proof (Z.div_eucl_eq X 100 ltac:(lia)) as DE.
  pose proof (Z.mod_pos_bound X 100 ltac:(lia)) as MB.
  unfold Z.modulo in MB. destruct (Z.div_eucl X 100) as [q r].
  assert (Q52 : 2 ^ 52 <= q) by (change (2 ^ 59) with (2 ^ 52 * 128) in L59; lia).
  assert (Q54 : q < 2 ^ 54) by (change (2 ^ 60) with (2 ^ 54 * 64) in U60; lia).
  pose proof (Zdigits2_bounds q ltac:(lia)) as Bq.
  assert (Dq : 53 <= Zdigits2 q <= 54).
  { split; [now apply Zdigits2_large|].
    destruct (Z_le_gt_dec (Zdigits2 q) 54) as [l|g]; [exact l|exfalso].
    assert (2 ^ 54 <= 2 ^ (Zdigits2 q - 1)) by (apply Z.pow_le_mono_r; lia). lia. }
  pose proof (round_aux_spec q (new_location 100 r) (d - 60) ltac:(lia) ltac:(lia)) as C.
  cbv zeta in C. unfold fexp64 in C.
  replace (Z.max (Zdigits2 q + (d - 60) - 53) (-1074)) with (Zdigits2 q + (d - 60) - 53) in C
    by lia.
  specialize (C ltac:(lia)). destruct C as (V & N & S). split; [exact V|split; [exact N|]].
  rewrite S. clear S V N.
  remember (Zdigits2 q - 53) as n eqn:Hn.
  replace (Zdigits2 q + (d - 60) - 53 - (d - 60) + 2) with (n + 2) by lia.
  replace (Zdigits2 q + (d - 60) - 53 + scale) with (n + (scale - s)) by lia.
  replace (Zdigits2 q - 1) with (n + 52) in Bq by lia.
  replace (Zdigits2 q) with (n + 53) in Bq by lia.
  clear Hn Dq. assert (Hn : 0 <= n <= 1).
  { split.
    - destruct (Z_le_gt_dec 0 n) as [l|g]; [exact l|exfalso].
      assert (2 ^ (n + 53) <= 2 ^ 52) by (apply Z.pow_le_mono_r; lia). lia.
    - destruct (Z_le_gt_dec n 1) as [l|g]; [exact l|exfalso].
      assert (2 ^ 54 <= 2 ^ (n + 52)) by (apply Z.pow_le_mono_r; lia). lia. }
  remember (scale - s) as k eqn:Hk.
  assert (Hk0 : 2000 <= k) by lia. clear Hk Hs Hd B Hp L59 U60 Ps Q52 Q54 Hd60.
  assert (PK : 0 < 2 ^ k) by (apply Z.pow_pos_nonneg; lia).
  assert (Pn : 0 < 2 ^ n) by (apply Z.pow_pos_nonneg; lia).
  rewrite round_located by lia. rewrite <- DE.
  unfold nearest_frac.
  assert (Eu : ulp_exp (2 ^ k * X / 100) = n + k).
  { rewrite ulp_exp_eq.
    assert (Elog : Z.log2 (2 ^ k * X / 100) = n + 52 + k).
    { apply Z.log2_unique; [lia|]. split.
      - apply Z.div_le_lower_bound; [lia|].
        rewrite (Z.pow_add_r 2 (n + 52) k) by lia.
        apply Z.le_trans with (2 ^ k * (100 * q)); [|apply Z.mul_le_mono_nonneg_l; lia].
        rewrite (Z.mul_comm (2 ^ (n + 52))), Z.mul_assoc, (Z.mul_comm 100), <- Z.mul_assoc.
        apply Z.mul_le_mono_nonneg_l; lia.
      - apply Z.div_lt_upper_bound; [lia|].
        replace (Z.succ (n + 52 + k)) with (k + (n + 53)) by lia.
        rewrite (Z.pow_add_r 2 k (n + 53)) by lia.
        rewrite Z.mul_assoc, (Z.mul_comm 100), <- Z.mul_assoc.
        apply Z.mul_lt_mono_pos_l; lia. }
    rewrite Elog. lia. }
  rewrite Eu. rewrite (Z.pow_add_r 2 n k) by lia.
  replace (100 * (2 ^ n * 2 ^ k)) with (2 ^ k * (100 * 2 ^ n)) by ring.
  rewrite round_half_even_scale by lia. reflexivity.
Qed.

(** ** [round(x, 2)] is rounding to the nearest hundredth *)

Lemma round2_hundredths s m e : valid_binary (S754_finite s m e) = true -> e < 0 ->
  0 <= round_half_even (100 * Zpos m) (2 ^ (- e)) < 2 ^ 60.
Proof.
  intros V He. apply valid_finite in V. destruct V as (D & Ee & _).
  pose proof (digits2_bounds m) as B.
  assert (U : Zpos m < 2 ^ 53).
  { apply Z.lt_le_trans with (2 ^ Zpos (digits2_pos m)); [lia|]. apply Z.pow_le_mono_r; lia. }
  assert (P : 2 <= 2 ^ (- e)).
  { change 2 with (2 ^ 1) at 1. apply Z.pow_le_mono_r; lia. }
  pose proof (round_half_even_bounds (100 * Zpos m) (2 ^ (- e)) ltac:(lia)) as R.
  assert (0 <= 100 * Zpos m / 2 ^ (- e)) by (apply Z.div_pos; lia).
  assert (100 * Zpos m / 2 ^ (- e) <= 50 * Zpos m).
  { apply Z.div_le_upper_bound; [lia|]. nia. }
  change (2 ^ 53) with 9007199254740992 in U. change (2 ^ 60) with 1152921504606846976. lia.
Qed.

Lemma round_half_even_0 D : 0 < D -> round_half_even 0 D = 0.
Proof. intros H. exact (round_half_even_exact 0 D H). Qed.

Lemma nearest_frac_0 D : 0 < D -> nearest_frac 0 D = 0.
Proof.
  intros H. unfold nearest_frac. rewrite round_half_even_0; [reflexivity|].
  apply Z.mul_pos_pos; [exact H|]. apply Z.pow_pos_nonneg; [lia|]. rewrite ulp_exp_eq. lia.
Qed.

Lemma round2_value_0 : round2_value 0 = 0.
Proof.
  unfold round2_value. rewrite Z.mul_0_r.
  rewrite round_half_even_0 by (apply Z.pow_pos_nonneg; lia).
  rewrite Z.mul_0_l. apply nearest_frac_0. lia.
Qed.

(** The value of [round(x, 2)] for a non-negative double. *)
Lemma py_round2_value x : nonneg_finite (Prim2SF x) = true ->
  nonneg_finite (Prim2SF (py_round2 x)) = true
  /\ fvalue (py_round2 x) = round2_value (fvalue x).
Proof.
  intros Nx. pose proof (Prim2SF_valid x) as Vx. unfold py_round2, fvalue at 2.
  destruct (Prim2SF x) as [s|s| |s m e] eqn:E; try discriminate Nx.
  - split; [now rewrite E|]. unfold fvalue. rewrite E. cbn [SFvalue]. now rewrite round2_value_0.
  - destruct s; [discriminate Nx|]. cbn [SFvalue].
    pose proof (valid_finite _ _ _ Vx) as (D & Ee & _).
    assert (PS : 0 < 2 ^ scale) by (apply Z.pow_pos_nonneg; lia).
    destruct (Z.leb_spec 0 e) as [He|He].
    + split; [now rewrite E|]. unfold fvalue. rewrite E. cbn [SFvalue].
      unfold round2_value.
      assert (Es : scaled (Zpos m) e = Zpos m * 2 ^ e * 2 ^ scale).
      { unfold scaled. rewrite Z.pow_add_r by lia. ring. }
      rewrite Es at 2. rewrite !Z.mul_assoc. rewrite round_half_even_exact by exact PS.
      rewrite <- Z.mul_assoc, <- Z.mul_assoc, (Z.mul_assoc (Zpos m)), <- Es.
      rewrite <- (Z.mul_1_r 100) at 2. rewrite nearest_frac_scale by lia.
      rewrite nearest_frac_1. symmetry. now apply nearest64_canon with false.
    + pose proof (round2_hundredths _ _ _ Vx He) as Hn.
      assert (En : round_half_even (100 * scaled (Zpos m) e) (2 ^ scale)
                   = round_half_even (100 * Zpos m) (2 ^ (- e))).
      { unfold scaled.
        rewrite <- (round_half_even_scale (2 ^ (e + scale)) (100 * Zpos m) (2 ^ (- e)));
          [|apply Z.pow_pos_nonneg; lia|apply Z.pow_pos_nonneg; lia].
        rewrite <- Z.pow_add_r by lia. replace (e + scale + - e) with scale by lia.
        f_equal. generalize (2 ^ (e + scale)). intros c. ring. }
      unfold round2_value. rewrite En.
      destruct (round_half_even (100 * Zpos m) (2 ^ (- e))) as [|p|p]; [| |lia].
      * cbn [dec2]. change (SF2Prim (S754_zero false)) with 0%float.
        split; [reflexivity|]. change (fvalue 0) with 0. symmetry.
        rewrite Z.mul_0_l. apply nearest_frac_0. lia.
      * destruct (dec2_spec p ltac:(lia)) as (V & N & S). cbv zeta in *.
        unfold fvalue. rewrite (Prim2SF_SF2Prim _ V). split; [exact N|exact S].
Qed.

Lemma round2_value_mono V V' : 0 <= V <= V' -> round2_value V <= round2_value V'.
Proof.
  intros H. unfold round2_value.
  assert (PS : 0 < 2 ^ scale) by (apply Z.pow_pos_nonneg; lia).
  generalize dependent (2 ^ scale). intros D PS.
  pose proof (round_half_even_bounds (100 * V) _ PS) as B.
  assert (0 <= 100 * V / D) by (apply Z.div_pos; lia).
  pose proof (round_half_even_mono (100 * V) (100 * V') _ PS ltac:(lia)) as M.
  apply nearest_frac_mono; [lia|]. split.
  - apply Z.mul_nonneg_nonneg; lia.
  - apply Z.mul_le_mono_nonneg_r; lia.
Qed.

Lemma fvalue_2p400 : fvalue 0x1p400 = value_bound.
Proof. vm_compute. reflexivity. Qed.

(** [round(x, 2)] is monotone on the non-negative doubles. *)
Lemma py_round2_mono x y : le64 x y -> le64 (py_round2 x) (py_round2 y).
Proof.
  intros ([Nx Sx] & [Ny Sy] & L).
  destruct (py_round2_value x Nx) as [N1 V1]. destruct (py_round2_value y Ny) as [N2 V2].
  assert (N3 : nonneg_finite (Prim2SF 0x1p400%float) = true) by reflexivity.
  destruct (py_round2_value 0x1p400%float N3) as [_ V3].
  replace (py_round2 0x1p400%float) with 0x1p400%float in V3 by (vm_compute; reflexivity).
  rewrite fvalue_2p400 in V3.
  pose proof (SFvalue_nonneg _ (Prim2SF_valid x)) as P. fold (fvalue x) in P.
  assert (L1 : fvalue (py_round2 x) <= fvalue (py_round2 y))
    by (rewrite V1, V2; apply round2_value_mono; split; [exact P|exact L]).
  assert (L2 : fvalue (py_round2 y) <= value_bound).
  { rewrite V2, V3. apply round2_value_mono. split; [|exact Sy].
    eapply Z.le_trans; eassumption. }
  split; [split; [exact N1|eapply Z.le_trans; eassumption]|].
  split; [split; [exact N2|exact L2]|exact L1].
Qed.

(** A double with at most two decimals bounds the rounding of what it
    bounds. *)
Lemma py_round2_cap t c : py_round2 c = c -> le64 t c -> le64 (py_round2 t) c.
Proof. intros E H. rewrite <- E. now apply py_round2_mono. Qed.

Lemma py_round2_floor t c : py_round2 c = c -> le64 c t -> le64 c (py_round2 t).
Proof. intros E H. rewrite <- E. now apply py_round2_mono. Qed.

(** ** Negative numbers *)

Lemma round_aux_opp s m e l :
  binary_round_aux prec emax (negb s) m e l = SFopp (binary_round_aux prec emax s m e l).
Proof.
  unfold binary_round_aux.
  destruct (shr_fexp prec emax m e l) as [mrs' e'].
  destruct (shr_fexp prec emax _ e' loc_Exact) as [mrs'' e''].
  destruct (shr_m mrs''); [reflexivity| |reflexivity].
  destruct (e'' <=? emax - prec); reflexivity.
Qed.

Lemma dec2_opp s n : dec2 (negb s) n = SFopp (dec2 s n).
Proof.
  destruct n as [|p|p]; cbn [dec2]; try reflexivity.
  unfold SFdiv. destruct (SFdiv_core_binary prec emax (Zpos p) 0 100 0) as [[mz ez] lz].
  rewrite !xorb_false_r. apply round_aux_opp.
Qed.

Lemma valid_opp y : valid_binary (SFopp y) = valid_binary y.
Proof. destruct y; reflexivity. Qed.

(** [round(-x, 2) = -round(x, 2)] *)
Lemma py_round2_opp x : py_round2 (- x) = (- py_round2 x)%float.
Proof.
  apply Prim2SF_inj. rewrite opp_spec. unfold py_round2. rewrite opp_spec.
  pose proof (Prim2SF_valid x) as Vx.
  destruct (Prim2SF x) as [s|s| |s m e] eqn:E; cbn [SFopp]; try (now rewrite opp_spec, E).
  destruct (Z.leb_spec 0 e) as [He|He]; [now rewrite opp_spec, E|].
  pose proof (round2_hundredths _ _ _ Vx He) as Hn.
  assert (V : valid_binary (dec2 false (round_half_even (100 * Zpos m) (2 ^ (- e)))) = true).
  { destruct (round_half_even (100 * Zpos m) (2 ^ (- e))) as [|p|p]; [reflexivity| |lia].
    destruct (dec2_spec p ltac:(lia)) as (V & _). exact V. }
  assert (V' : valid_binary (dec2 true (round_half_even (100 * Zpos m) (2 ^ (- e)))) = true).
  { change true with (negb false) at 1. now rewrite dec2_opp, valid_opp. }
  destruct s; cbn [negb]; rewrite !Prim2SF_SF2Prim by assumption.
  - change false with (negb true) at 1. rewrite dec2_opp. now destruct (dec2 true _).
  - change true with (negb false) at 1. now rewrite dec2_opp.
Qed.

Lemma SFmul_opp x y : SF64mul (SFopp x) y = SFopp (SF64mul x y).
Proof.
  unfold SF64mul, SFmul.
  destruct x as [sx|sx| |sx mx ex]; destruct y as [sy|sy| |sy my ey]; cbn [SFopp];
    try reflexivity; try (destruct sx, sy; reflexivity).
  rewrite <- round_aux_opp. now destruct sx, sy.
Qed.

Lemma fmul_opp x c : (- x * c = - (x * c))%float.
Proof. apply Prim2SF_inj. rewrite mul_spec, !opp_spec, mul_spec. apply SFmul_opp. Qed.

(** A negative double is the opposite of its absolute value. *)
Lemma negative_opp_abs f m e : Prim2SF f = S754_finite true m e ->
  f = (- abs f)%float /\ Prim2SF (abs f) = S754_finite false m e.
Proof.
  intros E. split; [apply Prim2SF_inj|]; rewrite ?opp_spec, abs_spec, E; reflexivity.
Qed.

(** Comparisons around zero. *)
Lemma leb_opp z c : le64 z c -> 0 < fvalue c ->
  (- c <=? - z)%float = true /\ (- z <=? c)%float = true /\ (- c <=? z)%float = true.
Proof.
  intros ([Nz Sz] & [Nc Sc] & L) Hpos. rewrite !leb_spec, !opp_spec. unfold fvalue in *.
  pose proof (Prim2SF_valid z) as Vz. pose proof (Prim2SF_valid c) as Vc.
  destruct (Prim2SF c) as [sc|sc| |sc mc ec]; try discriminate Nc.
  { cbn [SFvalue] in Hpos. lia. }
  destruct sc; [discriminate Nc|].
  destruct (Prim2SF z) as [sz|sz| |sz mz ez]; try discriminate Nz.
  - repeat split; reflexivity.
  - destruct sz; [discriminate Nz|]. cbn [SFopp negb]. rewrite SFleb_neg.
    rewrite SFleb_SFvalue by (auto; reflexivity). split; [now apply Z.leb_le|]. split; reflexivity.
Qed.

(** From a comparison with a negative constant to the absolute value. *)
Lemma leb_opp_inv c f m e : bounded64 c -> Prim2SF f = S754_finite true m e ->
  (- c <=? f)%float = true -> le64 (abs f) c.
Proof.
  intros Fc E H. pose proof Fc as [Nc Sc]. rewrite leb_spec, opp_spec, E in H.
  pose proof (Prim2SF_valid f) as Vf. pose proof (Prim2SF_valid c) as Vc. rewrite E in Vf.
  assert (Ea : Prim2SF (abs f) = S754_finite false m e) by (now rewrite abs_spec, E).
  assert (L : fvalue (abs f) <= fvalue c).
  { unfold fvalue. rewrite Ea.
    destruct (Prim2SF c) as [sc|sc| |sc mc ec] eqn:Ec; try discriminate Nc; [discriminate H|].
    destruct sc; [discriminate Nc|]. cbn [SFopp negb] in H. rewrite SFleb_neg in H.
    rewrite SFleb_SFvalue in H by (auto; reflexivity). now apply Z.leb_le in H. }
  split; [split; [now rewrite Ea|eapply Z.le_trans; eassumption]|].
  split; [exact Fc|exact L].
Qed.

(** * The order of floats *)

Lemma SFleb_rank x y : valid_binary x = true -> valid_binary y = true ->
  x <> S754_nan -> y <> S754_nan ->
  (SFleb x y = true <-> rank_le (float_rank x) (float_rank y)).
Proof.
  intros Vx Vy Nx Ny. unfold rank_le.
  assert (P : forall s m e, valid_binary (S754_finite s m e) = true -> 0 < scaled (Zpos m) e).
  { intros s m e V. apply valid_finite in V. apply scaled_pos. lia. }
  destruct x as [sx|[|]| |[|] mx ex]; try contradiction;
    destruct y as [sy|[|]| |[|] my ey]; try contradiction; cbn [float_rank fst snd];
    try (split; [intros _; lia|reflexivity]);
    try (split; [discriminate|lia]);
    try pose proof (P _ _ _ Vx) as Px; try pose proof (P _ _ _ Vy) as Py;
    try (split; [intros _; lia|reflexivity]);
    try (split; [discriminate|lia]).
  - rewrite SFleb_neg. rewrite SFleb_SFvalue by (auto; reflexivity). cbn [SFvalue].
    rewrite Z.leb_le. lia.
  - rewrite SFleb_SFvalue by (auto; reflexivity). cbn [SFvalue]. rewrite Z.leb_le. lia.
Qed.

(** The comparison of floats is transitive. *)
Lemma leb_trans f g h :
  (f <=? g)%float = true -> (g <=? h)%float = true -> (f <=? h)%float = true.
Proof.
  intros H1 H2. rewrite leb_spec in *.
  pose proof (Prim2SF_valid f) as Vf. pose proof (Prim2SF_valid g) as Vg.
  pose proof (Prim2SF_valid h) as Vh.
  assert (Nf : Prim2SF f <> S754_nan) by (intros E; rewrite E in H1; discriminate H1).
  assert (Ng : Prim2SF g <> S754_nan).
  { intros E; rewrite E in H2; discriminate H2. }
  assert (Nh : Prim2SF h <> S754_nan).
  { intros E; rewrite E in H2. unfold SFleb, SFcompare in H2.
    destruct (Prim2SF g); discriminate H2. }
  rewrite SFleb_rank in * by assumption. unfold rank_le in *.
  destruct (float_rank (Prim2SF f)), (float_rank (Prim2SF g)), (float_rank (Prim2SF h)).
  cbn [fst snd] in *. lia.
Qed.

(** * Differences and weighted sums *)

Lemma le64_l x y : le64 x y -> bounded64 x.
Proof. intros [H _]. exact H. Qed.

Lemma le64_r x y : le64 x y -> bounded64 y.
Proof. intros (_ & H & _). exact H. Qed.

(** A float between [-lo] and [hi] is non-negative and at most [hi], or
    negative with an absolute value of at most [lo]. *)
Lemma range_cases f lo hi : bounded64 lo -> bounded64 hi ->
  (- lo <=? f)%float = true -> (f <=? hi)%float = true ->
  le64 f hi
  \/ exists m e, Prim2SF f = S754_finite true m e /\ le64 (abs f) lo.
Proof.
  intros Flo Fhi Hlo Hhi.
  destruct (Prim2SF f) as [s|s| |s m e] eqn:Ef.
  - left. apply le64_intro; [|exact Hhi|exact Fhi]. rewrite leb_spec, Ef. reflexivity.
  - exfalso. rewrite leb_spec, opp_spec, Ef in Hlo. rewrite leb_spec, Ef in Hhi.
    destruct s.
    + destruct Flo as [N _]. destruct (Prim2SF lo) as [sl|sl| |[|] ml el]; discriminate.
    + destruct Fhi as [N _]. destruct (Prim2SF hi) as [sl|sl| |[|] ml el]; discriminate.
  - exfalso. rewrite leb_spec, Ef in Hhi. discriminate.
  - destruct s.
    + right. exists m, e. split; [reflexivity|]. now apply leb_opp_inv with m e.
    + left. apply le64_intro; [|exact Hhi|exact Fhi]. rewrite leb_spec, Ef. reflexivity.
Qed.

(** Subtraction from a constant is antitone. *)
Lemma fsub_anti c y y' : le64 y y' -> le64 y' c -> le64 (c - y') (c - y).
Proof.
  intros ([Ny Sy] & [Ny' Sy'] & L) (_ & [Nc Sc] & L').
  destruct (SFsub_spec (Prim2SF c) (Prim2SF y)) as [N1 V1]; auto using Prim2SF_valid.
  { unfold fvalue in *. eapply Z.le_trans; eassumption. }
  destruct (SFsub_spec (Prim2SF c) (Prim2SF y')) as [N2 V2]; auto using Prim2SF_valid.
  rewrite <- sub_spec in N1, V1, N2, V2.
  fold (fvalue (c - y)) in V1. fold (fvalue (c - y')) in V2.
  fold (fvalue c) in V1, V2. fold (fvalue y) in V1. fold (fvalue y') in V2.
  pose proof (SFvalue_nonneg _ (Prim2SF_valid y)) as P. fold (fvalue y) in P.
  assert (A : fvalue (c - y') <= fvalue (c - y)).
  { rewrite V1, V2. apply nearest64_mono. split; [apply Zle_minus_le_0; exact L'|].
    apply Z.sub_le_mono_l. exact L. }
  assert (B : fvalue (c - y) <= fvalue c).
  { rewrite V1. unfold fvalue at 3.
    rewrite <- (nearest64_SFvalue (Prim2SF c)) by apply Prim2SF_valid.
    apply nearest64_mono. fold (fvalue c). split.
    - apply Zle_minus_le_0. eapply Z.le_trans; eassumption.
    - apply Z.le_sub_nonneg. exact P. }
  assert (Fy : bounded64 (c - y)).
  { split; [exact N1|]. apply Z.le_trans with (fvalue c); assumption. }
  split; [split; [exact N2|]|split; [exact Fy|exact A]].
  destruct Fy as [_ S]. eapply Z.le_trans; eassumption.
Qed.

Lemma le64_add_nonneg c z : bounded64 c -> bounded64 z -> bounded64 (c + z) -> le64 c (c + z).
Proof.
  intros Fc Fz F. pose proof Fc as [Nc Sc]. pose proof Fz as [Nz Sz].
  destruct (SFadd_spec (Prim2SF c) (Prim2SF z)) as [N V]; auto using Prim2SF_valid.
  rewrite <- add_spec in N, V.
  fold (fvalue (c + z)) in V. fold (fvalue c) in V. fold (fvalue z) in V.
  pose proof (SFvalue_nonneg _ (Prim2SF_valid c)) as Pc. fold (fvalue c) in Pc.
  pose proof (SFvalue_nonneg _ (Prim2SF_valid z)) as Pz. fold (fvalue z) in Pz.
  split; [exact Fc|split; [exact F|]]. rewrite V.
  unfold fvalue at 1. rewrite <- (nearest64_SFvalue (Prim2SF c)) by apply Prim2SF_valid.
  apply nearest64_mono. fold (fvalue c). split; [exact Pc|]. apply Z.le_sub_le_add_l.
  now rewrite Z.sub_diag.
Qed.

Lemma le64_add_r c z z' : bounded64 c -> le64 z z' -> bounded64 (c + z') ->
  le64 (c + z) (c + z').
Proof. intros Fc H F. apply fadd_mono; [now apply le64_refl|exact H|exact F]. Qed.

(** [100 - f] for [-100 <= f <= 100] *)
Lemma penalty_range f :
  (-100 <=? f)%float = true -> (f <=? 100)%float = true -> le64 (100 - f) 200.
Proof.
  intros Hlo Hhi.
  assert (F100 : bounded64 100) by bounded64_const.
  destruct (range_cases f 100 100 F100 F100 Hlo Hhi) as [H|(m & e & E & H)].
  - apply le64_trans with 100%float; [now apply fsub_le|le64_const].
  - destruct (fsub_neg 100 f m e F100 E) as [-> _].
    change 200%float with (100 + 100)%float. apply le64_add_r; [exact F100|exact H|bounded64_const].
Qed.

(** [100 - f] is antitone in [f] between -100 and 100. *)
Lemma penalty_anti f f' :
  (-100 <=? f)%float = true -> (f <=? f')%float = true -> (f' <=? 100)%float = true ->
  le64 (100 - f') (100 - f).
Proof.
  intros Hlo Hle Hhi.
  assert (F100 : bounded64 100) by bounded64_const.
  assert (F200 : bounded64 (100 + 100)) by bounded64_const.
  assert (Neg : forall g m e, Prim2SF g = S754_finite true m e -> (-100 <=? g)%float = true ->
                  (100 - g = 100 + abs g)%float /\ le64 (100 + abs g) (100 + 100)).
  { intros g m e E H. destruct (fsub_neg 100 g m e F100 E) as [-> _]. split; [reflexivity|].
    apply le64_add_r; [exact F100| |exact F200]. now apply leb_opp_inv with m e. }
  pose proof (Prim2SF_valid f) as Vf. pose proof (Prim2SF_valid f') as Vf'.
  pose proof Hlo as Hlo'. pose proof Hle as Hle'. pose proof Hhi as Hhi'.
  rewrite leb_spec in Hlo', Hle', Hhi'.
  change (Prim2SF 100) with (S754_finite false 7036874417766400 (-46)) in Hhi'.
  change (Prim2SF (-100)) with (S754_finite true 7036874417766400 (-46)) in Hlo'.
  destruct (Prim2SF f') as [s'|s'| |s' m' e'] eqn:Ef'; try discriminate Hhi'.
  - (* f' is a zero *)
    assert (L' : le64 f' 100).
    { apply le64_intro; [|exact Hhi|exact F100]. rewrite leb_spec, Ef'. reflexivity. }
    destruct (Prim2SF f) as [s|[|]| |[|] m e] eqn:Ef; try discriminate Hlo'; try discriminate Hle'.
    + apply fsub_anti; [|exact L']. apply le64_intro; [|exact Hle|exact (le64_l _ _ L')].
      rewrite leb_spec, Ef. reflexivity.
    + destruct (Neg f m e Ef Hlo) as [-> B].
      apply le64_trans with 100%float; [now apply fsub_le|].
      apply le64_add_nonneg; [exact F100| |exact (le64_l _ _ B)].
      exact (le64_l _ _ (leb_opp_inv 100 f m e F100 Ef Hlo)).
  - (* f' is minus infinity *)
    destruct s'; [|discriminate Hhi'].
    destruct (Prim2SF f) as [s|[|]| |[|] m e]; discriminate.
  - destruct s'.
    + (* f' is negative *)
      destruct (Prim2SF f) as [s|[|]| |[|] m e] eqn:Ef;
        try discriminate Hlo'; try discriminate Hle'.
      destruct (Neg f m e Ef Hlo) as [-> B].
      assert (Hlo2 : (-100 <=? f')%float = true).
      { rewrite leb_spec, Ef'.
        change (Prim2SF (-100)) with (S754_finite true 7036874417766400 (-46)).
        rewrite SFleb_neg in Hlo' |- *. rewrite SFleb_neg in Hle'.
        rewrite SFleb_SFvalue in Hlo', Hle' |- * by (auto; reflexivity).
        apply Z.leb_le in Hlo', Hle'. apply Z.leb_le. eapply Z.le_trans; eassumption. }
      destruct (Neg f' m' e' Ef' Hlo2) as [-> B'].
      apply le64_add_r; [exact F100| |exact (le64_l _ _ B)].
      pose proof (leb_opp_inv 100 f m e F100 Ef Hlo) as (Fa & _ & _).
      pose proof (leb_opp_inv 100 f' m' e' F100 Ef' Hlo2) as (Fa' & _ & _).
      split; [exact Fa'|split; [exact Fa|]]. unfold fvalue. rewrite !abs_spec, Ef, Ef'.
      cbn [SFabs]. rewrite SFleb_neg in Hle'.
      rewrite SFleb_SFvalue in Hle' by (auto; reflexivity). now apply Z.leb_le in Hle'.
    + (* f' is positive *)
      assert (L' : le64 f' 100).
      { apply le64_intro; [|exact Hhi|exact F100]. rewrite leb_spec, Ef'. reflexivity. }
      destruct (Prim2SF f) as [s|[|]| |[|] m e] eqn:Ef;
        try discriminate Hlo'; try discriminate Hle'.
      * apply fsub_anti; [|exact L']. apply le64_intro; [|exact Hle|exact (le64_l _ _ L')].
        rewrite leb_spec, Ef. reflexivity.
      * destruct (Neg f m e Ef Hlo) as [-> B].
        apply le64_trans with 100%float; [now apply fsub_le|].
        apply le64_add_nonneg; [exact F100| |exact (le64_l _ _ B)].
        exact (le64_l _ _ (leb_opp_inv 100 f m e F100 Ef Hlo)).
      * apply fsub_anti; [|exact L']. apply le64_intro; [|exact Hle|exact (le64_l _ _ L')].
        rewrite leb_spec, Ef. reflexivity.
Qed.

(** ** The weighted sums are monotone *)

Lemma Z2float_le r r' : 0 <= r <= r' -> r' <= 40 ->
  le64 (Z2float r) (Z2float r') /\ le64 (Z2float r') 40.
Proof.
  intros H H'. split.
  - apply Z2float_mono; [lia|lia|].
    apply le64_l with (Z2float 40). apply Z2float_mono; [lia|lia|bounded64_const].
  - change 40%float with (Z2float 40). apply Z2float_mono; [lia|lia|bounded64_const].
Qed.

Lemma full_mode_mono a a' r r' s s' :
  le64 a a' -> le64 a' 100 -> 0 <= r <= r' -> r' <= 40 -> le64 s s' -> le64 s' 200 ->
  le64 (a * 0.45 + Z2float r * 0.25 + s * 0.30) (a' * 0.45 + Z2float r' * 0.25 + s' * 0.30)
  /\ le64 (a' * 0.45 + Z2float r' * 0.25 + s' * 0.30) 115.
Proof.
  intros Ha Ha' Hr Hr' Hs Hs'. destruct (Z2float_le r r' Hr Hr') as [Hz Hz'].
  assert (A1 : le64 (a' * 0.45) (100 * 0.45))
    by (apply fmul_mono; [exact Ha'|bounded64_const|bounded64_const]).
  assert (A2 : le64 (Z2float r' * 0.25) (40 * 0.25))
    by (apply fmul_mono; [exact Hz'|bounded64_const|bounded64_const]).
  assert (A3 : le64 (s' * 0.30) (200 * 0.30))
    by (apply fmul_mono; [exact Hs'|bounded64_const|bounded64_const]).
  assert (A4 : le64 (a' * 0.45 + Z2float r' * 0.25) (100 * 0.45 + 40 * 0.25))
    by (apply fadd_mono; [exact A1|exact A2|bounded64_const]).
  assert (A5 : le64 (a' * 0.45 + Z2float r' * 0.25 + s' * 0.30)
                    (100 * 0.45 + 40 * 0.25 + 200 * 0.30))
    by (apply fadd_mono; [exact A4|exact A3|bounded64_const]).
  split; [|exact A5].
  apply fadd_mono; [apply fadd_mono| |exact (le64_l _ _ A5)].
  - apply fmul_mono; [exact Ha|bounded64_const|exact (le64_l _ _ A1)].
  - apply fmul_mono; [exact Hz|bounded64_const|exact (le64_l _ _ A2)].
  - exact (le64_l _ _ A4).
  - apply fmul_mono; [exact Hs|bounded64_const|exact (le64_l _ _ A3)].
Qed.

Lemma degraded_mode_mono a a' r r' :
  le64 a a' -> le64 a' 100 -> 0 <= r <= r' -> r' <= 40 ->
  le64 (a * 0.60 + Z2float r * 0.40) (a' * 0.60 + Z2float r' * 0.40)
  /\ le64 (a' * 0.60 + Z2float r' * 0.40) 76.
Proof.
  intros Ha Ha' Hr Hr'. destruct (Z2float_le r r' Hr Hr') as [Hz Hz'].
  assert (A1 : le64 (a' * 0.60) (100 * 0.60))
    by (apply fmul_mono; [exact Ha'|bounded64_const|bounded64_const]).
  assert (A2 : le64 (Z2float r' * 0.40) (40 * 0.40))
    by (apply fmul_mono; [exact Hz'|bounded64_const|bounded64_const]).
  assert (A4 : le64 (a' * 0.60 + Z2float r' * 0.40) (100 * 0.60 + 40 * 0.40))
    by (apply fadd_mono; [exact A1|exact A2|bounded64_const]).
  split; [|exact A4].
  apply fadd_mono; [| |exact (le64_l _ _ A4)].
  - apply fmul_mono; [exact Ha|bounded64_const|exact (le64_l _ _ A1)].
  - apply fmul_mono; [exact Hz|bounded64_const|exact (le64_l _ _ A2)].
Qed.

(** The similarity term of the full-data mode. *)
Lemma penalty_bounded sim_score : sim_bounded sim_score ->
  le64 (to_float (int_sub 100 sim_score)) 200.
Proof.
  destruct sim_score as [z|f]; cbn [sim_bounded int_sub to_float].
  - intros Hz. change 200%float with (Z2float 200).
    apply Z2float_mono; [lia|lia|bounded64_const].
  - intros [H0 H1]. change (Z2float 100) with 100%float. now apply penalty_range.
Qed.

Lemma le64_of_leb a a' c : bounded64 c ->
  (0 <=? a)%float = true -> (a <=? a')%float = true -> (a' <=? c)%float = true ->
  le64 a a' /\ le64 a' c.
Proof.
  intros Fc H0 H1 H2.
  assert (P : (0 <=? a')%float = true).
  { rewrite leb_spec in *. change (Prim2SF 0) with (S754_zero false) in *.
    destruct (Prim2SF a) as [s|[|]| |[|] m e]; try discriminate H0;
      destruct (Prim2SF a') as [s'|[|]| |[|] m' e']; try discriminate H1; reflexivity. }
  assert (L : le64 a' c) by (apply le64_intro; assumption).
  split; [|exact L]. apply le64_intro; [exact H0|exact H1|exact (le64_l _ _ L)].
Qed.

Lemma fusion_le a a' r r' s s' u :
  le64 a a' -> le64 a' 100 -> 0 <= r <= r' -> r' <= 40 ->
  le64 (to_float (int_sub 100 s)) (to_float (int_sub 100 s')) ->
  le64 (to_float (int_sub 100 s')) 200 ->
  le64 (fusion a r s u) (fusion a' r' s' u)
  /\ le64 (fusion a' r' s' u) (if u then 115 else 76).
Proof.
  intros Ha Ha' Hr Hr' Hs Hs'. unfold fusion. destruct u.
  - destruct (full_mode_mono a a' r r' _ _ Ha Ha' Hr Hr' Hs Hs') as [M B].
    split; [now apply py_round2_mono|]. apply py_round2_cap; [vm_compute; reflexivity|exact B].
  - destruct (degraded_mode_mono a a' r r' Ha Ha' Hr Hr') as [M B].
    split; [now apply py_round2_mono|]. apply py_round2_cap; [vm_compute; reflexivity|exact B].
Qed.

(** * Levels and flag *)

Lemma risk_level_inv f :
  (risk_level f = py "Very High" <-> (75 <=? f)%float = true)
  /\ (risk_level f = py "High" <-> (75 <=? f)%float = false /\ (60 <=? f)%float = true)
  /\ (risk_level f = py "Medium" <->
        (75 <=? f)%float = false /\ (60 <=? f)%float = false /\ (45 <=? f)%float = true)
  /\ (risk_level f = py "Low" <->
        (75 <=? f)%float = false /\ (60 <=? f)%float = false /\ (45 <=? f)%float = false).
Proof.
  unfold risk_level.
  destruct (75 <=? f)%float; [|destruct (60 <=? f)%float; [|destruct (45 <=? f)%float]];
    (split; [|split; [|split]]); (split; intros H);
    try (vm_compute in H; discriminate H); try reflexivity; try (repeat split; reflexivity);
    decompose [and] H; discriminate.
Qed.

(** X15: the flag never contradicts the level: a score rated "High" or "Very
    High" is flagged, a score rated "Low" is not; only "Medium" scores fall
    on both sides.  This holds for every float, and so for every reply. *)
Theorem risk_level_agrees_with_flag :
  (forall final : float,
      (risk_level final = py "Very High" \/ risk_level final = py "High" ->
       (55 <=? final)%float = true)
      /\ (risk_level final = py "Low" -> (55 <=? final)%float = false))
  /\ (forall U W data r,
        value (predict U W data) = Success r ->
        (Response.risk_level r = py "Very High" \/ Response.risk_level r = py "High" ->
         Response.clickbait r = true)
        /\ (Response.risk_level r = py "Low" -> Response.clickbait r = false))
  /\ (risk_level 50 = py "Medium" /\ (55 <=? 50)%float = false)
  /\ (risk_level 57 = py "Medium" /\ (55 <=? 57)%float = true).
Proof.
  assert (A : forall final : float,
             (risk_level final = py "Very High" \/ risk_level final = py "High" ->
              (55 <=? final)%float = true)
             /\ (risk_level final = py "Low" -> (55 <=? final)%float = false)).
  { intros final. destruct (risk_level_inv final) as (I1 & I2 & _ & I4). split.
    - intros [H|H].
      + apply I1 in H. exact (leb_trans 55 75 final eq_refl H).
      + apply I2 in H. destruct H as [_ H]. exact (leb_trans 55 60 final eq_refl H).
    - intros H. apply I4 in H. destruct H as (_ & _ & H).
      destruct (55 <=? final)%float eqn:E; [|reflexivity].
      rewrite (leb_trans 45 55 final eq_refl E) in H. discriminate H. }
  split; [exact A|]. split; [|split; split; vm_compute; reflexivity].
  intros U W data r H. apply predict_success in H.
  destruct H as (video_id & title & desc & transcript & _ & _ & _ & _ & ->).
  cbn [Response.risk_level Response.clickbait]. apply A.
Qed.

(** X16: a higher final score never gets a lower level and never loses the
    flag. *)
Theorem risk_level_monotone (f g : float) :
  (f <=? g)%float = true ->
  (risk_level f = py "Very High" -> risk_level g = py "Very High")
  /\ (risk_level f = py "High" -> risk_level g = py "High" \/ risk_level g = py "Very High")
  /\ (risk_level g = py "Low" -> risk_level f = py "Low")
  /\ ((55 <=? f)%float = true -> (55 <=? g)%float = true).
Proof.
  intros Hfg.
  assert (M : forall c, (c <=? f)%float = true -> (c <=? g)%float = true).
  { intros c H. exact (leb_trans c f g H Hfg). }
  pose proof (M 45%float) as M45. pose proof (M 60%float) as M60.
  pose proof (M 75%float) as M75. pose proof (M 55%float) as M55.
  destruct (risk_level_inv f) as (I1 & I2 & I3 & I4).
  destruct (risk_level_inv g) as (J1 & J2 & J3 & J4).
  split; [|split; [|split]].
  - intros H. apply J1, M75, I1, H.
  - intros H. apply I2 in H. destruct H as [_ H]. apply M60 in H.
    destruct (75 <=? g)%float eqn:E; [right; now apply J1|left; now apply J2].
  - intros H. apply J4 in H. destruct H as (H1 & H2 & H3). apply I4.
    destruct (75 <=? f)%float; [rewrite M75 in H1 by reflexivity; discriminate H1|].
    destruct (60 <=? f)%float; [rewrite M60 in H2 by reflexivity; discriminate H2|].
    destruct (45 <=? f)%float; [rewrite M45 in H3 by reflexivity; discriminate H3|].
    repeat split.
  - exact M55.
Qed.

Lemma risk_level_monotone_witness :
  (risk_level 61.5 = py "High" -> risk_level 80 = py "High" \/ risk_level 80 = py "Very High")
  /\ ((55 <=? 61.5)%float = true -> (55 <=? 80)%float = true).
Proof.
  assert (H : (61.5 <=? 80)%float = true) by reflexivity.
  destruct (risk_level_monotone 61.5 80 H) as (_ & H2 & _ & H4). split; assumption.
Defined.

(** * Ranges of the scores *)

Lemma rule_score_range U title : 0 <= lexical_rule_score U title <= 40.
Proof.
  rewrite rule_score_sum.
  pose proof (count_nonneg bang title) as Hb. pose proof (count_nonneg qmark title) as Hq.
  destruct (isupper U title && (10 <? len title)); destruct (existsb (is_decimal U) title); lia.
Qed.

(** A probability times 100, rounded. *)
Lemma percent_range p : (0 <=? p)%float = true -> (p <=? 1)%float = true ->
  le64 (py_round2 (p * 100)) 100.
Proof.
  intros H0 H1.
  assert (L : le64 p 1) by (apply le64_intro; [exact H0|exact H1|bounded64_const]).
  apply py_round2_cap; [vm_compute; reflexivity|].
  change 100%float with (1 * 100)%float at 2.
  apply fmul_mono; [exact L|bounded64_const|bounded64_const].
Qed.

(** A cosine times 100, rounded. *)
Lemma cosine_range c : (-1 <=? c)%float = true -> (c <=? 1)%float = true ->
  sim_bounded (PyFloat (py_round2 (c * 100))).
Proof.
  intros Hlo Hhi. cbn [sim_bounded].
  assert (F1 : bounded64 1) by bounded64_const.
  assert (P : 0 < fvalue 100) by (vm_compute; reflexivity).
  assert (S : forall a, le64 a 1 -> le64 (py_round2 (a * 100)) 100).
  { intros a L. apply py_round2_cap; [vm_compute; reflexivity|].
    change 100%float with (1 * 100)%float at 2.
    apply fmul_mono; [exact L|bounded64_const|bounded64_const]. }
  destruct (range_cases c 1 1 F1 F1 Hlo Hhi) as [L|(m & e & E & L)].
  - destruct (leb_opp _ _ (S c L) P) as (_ & _ & H). split; [exact H|apply le64_leb, S, L].
  - destruct (negative_opp_abs c m e E) as [-> _].
    rewrite fmul_opp, py_round2_opp.
    destruct (leb_opp _ _ (S _ L) P) as (H1 & H2 & _). split; assumption.
Qed.

Lemma sim_bounded_score W title content :
  (forall a b, (-1 <=? cos_sim W a b)%float = true /\ (cos_sim W a b <=? 1)%float = true) ->
  sim_bounded (value (similarity_score W title content)).
Proof.
  intros H. destruct (forallb is_space content) eqn:B.
  - unfold similarity_score. destruct content as [|c content]; [cbn; lia|].
    rewrite (strip_blank _ B). cbn. lia.
  - rewrite (similarity_nonblank _ _ _ B). cbn [value fst].
    destruct (H (encode W title) (encode W (firstn 3000 content))) as [H1 H2].
    exact (cosine_range _ H1 H2).
Qed.

(** X17: with cosines between -1 and 1 the similarity score is the integer 0 or
    a float between -100 and 100. *)
Theorem similarity_score_range (W : World) (title content : str) :
  (forall a b, (-1 <=? cos_sim W a b)%float = true /\ (cos_sim W a b <=? 1)%float = true) ->
  match value (similarity_score W title content) with
  | PyInt z => z = 0
  | PyFloat f => (-100 <=? f)%float = true /\ (f <=? 100)%float = true
  end.
Proof.
  intros H. pose proof (sim_bounded_score W title content H) as S.
  destruct (forallb is_space content) eqn:B.
  - unfold similarity_score. destruct content as [|c content]; [reflexivity|].
    now rewrite (strip_blank _ B).
  - rewrite (similarity_nonblank _ _ _ B) in S |- *. exact S.
Qed.

Lemma similarity_score_range_witness :
  match value (similarity_score opposite_world (py "title") (py "content")) with
  | PyInt z => z = 0
  | PyFloat f => (-100 <=? f)%float = true /\ (f <=? 100)%float = true
  end.
Proof.
  apply similarity_score_range. intros a b. split; reflexivity.
Defined.

(** X18: when the classifier returns probabilities and the embedder cosines, the
    scores of every reply are in range: the AI score in [0, 100], the rule
    score in [0, 40], the similarity in [-100, 100], and the final score in
    [0, 115], or in [0, 76] when no transcript was used. *)
Theorem reply_score_ranges (U : Unicode) (W : World) (data : VideoData) (r : Response.t) :
  (forall text, (0 <=? classifier_score W text)%float = true
                /\ (classifier_score W text <=? 1)%float = true) ->
  (forall a b, (-1 <=? cos_sim W a b)%float = true /\ (cos_sim W a b <=? 1)%float = true) ->
  value (predict U W data) = Success r ->
  ((0 <=? Response.ai_score r)%float = true /\ (Response.ai_score r <=? 100)%float = true)
  /\ 0 <= Response.rule_score r <= 40
  /\ sim_bounded (Response.similarity_score r)
  /\ ((0 <=? Response.final_score r)%float = true
      /\ (Response.final_score r <=? 115)%float = true)
  /\ (Response.transcript_used r = false -> (Response.final_score r <=? 76)%float = true).
Proof.
  intros Hc Hs H. apply predict_success in H.
  destruct H as (video_id & title & desc & transcript & _ & _ & _ & _ & ->).
  cbn [Response.ai_score Response.rule_score Response.similarity_score Response.final_score
       Response.transcript_used].
  destruct (Hc title) as [C0 C1]. pose proof (percent_range _ C0 C1) as A.
  pose proof (rule_score_range U title) as R.
  pose proof (sim_bounded_score W title (or_empty desc ++ py " " ++ or_empty transcript) Hs) as S.
  pose proof (penalty_bounded _ S) as Pn.
  split; [split; [apply bounded64_zero_le, (le64_l _ _ A)|now apply le64_leb]|].
  split; [exact R|]. split; [exact S|].
  set (used := match transcript with Some _ => true | None => false end).
  destruct (fusion_le _ _ (lexical_rule_score U title) (lexical_rule_score U title) _ _ used
              (le64_refl _ (le64_l _ _ A)) A ltac:(lia) ltac:(lia)
              (le64_refl _ (le64_l _ _ Pn)) Pn) as [_ B].
  split; [split|].
  - apply bounded64_zero_le, (le64_l _ _ B).
  - apply le64_leb. apply le64_trans with (if used then 115 else 76)%float; [exact B|].
    destruct used; le64_const.
  - intros E. rewrite E in B |- *. apply le64_leb. exact B.
Qed.

Lemma reply_score_ranges_witness :
  ((0 <=? Response.ai_score opposite_response)%float = true
   /\ (Response.ai_score opposite_response <=? 100)%float = true)
  /\ 0 <= Response.rule_score opposite_response <= 40
  /\ sim_bounded (Response.similarity_score opposite_response)
  /\ ((0 <=? Response.final_score opposite_response)%float = true
      /\ (Response.final_score opposite_response <=? 115)%float = true)
  /\ (Response.transcript_used opposite_response = false ->
      (Response.final_score opposite_response <=? 76)%float = true).
Proof.
  apply (reply_score_ranges ascii_tables opposite_world sample_url).
  - intros text. split; reflexivity.
  - intros a b. split; reflexivity.
  - vm_compute. reflexivity.
Defined.

(** * Monotonicity of the fusion *)

(** X19: a higher AI score or a higher rule score never lowers the final
    score, in either mode. *)
Theorem fusion_monotone (ai_score ai_score' : float) (rule_score rule_score' : Z)
    (sim_score : pynum) (used_transcript : bool) :
  (0 <=? ai_score)%float = true -> (ai_score <=? ai_score')%float = true ->
  (ai_score' <=? 100)%float = true ->
  0 <= rule_score <= rule_score' -> rule_score' <= 40 ->
  sim_bounded sim_score ->
  (fusion ai_score rule_score sim_score used_transcript
   <=? fusion ai_score' rule_score' sim_score used_transcript)%float = true.
Proof.
  intros A0 A1 A2 Hr Hr' Hs.
  destruct (le64_of_leb ai_score ai_score' 100 ltac:(bounded64_const) A0 A1 A2) as [La La'].
  pose proof (penalty_bounded _ Hs) as Pn.
  apply le64_leb.
  exact (proj1 (fusion_le _ _ _ _ _ _ used_transcript La La' Hr Hr'
                  (le64_refl _ (le64_l _ _ Pn)) Pn)).
Qed.

Lemma fusion_monotone_witness :
  (fusion 20 8 (PyFloat 25) true <=? fusion 80.5 18 (PyFloat 25) true)%float = true.
Proof.
  apply fusion_monotone; try reflexivity; try lia. split; reflexivity.
Defined.

(** X20: in the full-data mode a higher similarity never raises the final
    score. *)
Theorem fusion_antitone_in_similarity (ai_score : float) (rule_score : Z) (sim sim' : float) :
  (0 <=? ai_score)%float = true -> (ai_score <=? 100)%float = true ->
  0 <= rule_score <= 40 ->
  (-100 <=? sim)%float = true -> (sim <=? sim')%float = true -> (sim' <=? 100)%float = true ->
  (fusion ai_score rule_score (PyFloat sim') true
   <=? fusion ai_score rule_score (PyFloat sim) true)%float = true.
Proof.
  intros A0 A1 Hr S0 S1 S2.
  assert (La : le64 ai_score 100) by (apply le64_intro; [exact A0|exact A1|bounded64_const]).
  pose proof (penalty_anti sim sim' S0 S1 S2) as Pa.
  assert (S3 : (sim <=? 100)%float = true).
  { rewrite leb_spec in *.
    change (Prim2SF 100) with (S754_finite false 7036874417766400 (-46)) in *.
    change (Prim2SF (-100)) with (S754_finite true 7036874417766400 (-46)) in *.
    pose proof (Prim2SF_valid sim) as V. pose proof (Prim2SF_valid sim') as V'.
    destruct (Prim2SF sim) as [s|[|]| |[|] m e] eqn:E; try discriminate S0; try reflexivity;
      (destruct (Prim2SF sim') as [s'|[|]| |[|] m' e'] eqn:E';
       try discriminate S1; try discriminate S2).
    rewrite SFleb_SFvalue in S1 by (auto; reflexivity).
    rewrite SFleb_SFvalue in S2 by (auto; reflexivity).
    rewrite SFleb_SFvalue by (auto; reflexivity).
    apply Z.leb_le in S1, S2. apply Z.leb_le. eapply Z.le_trans; eassumption. }
  pose proof (penalty_range sim S0 S3) as Pn.
  apply le64_leb.
  exact (proj1 (fusion_le _ _ _ _ (PyFloat sim') (PyFloat sim) true
                  (le64_refl _ (le64_l _ _ La)) La (conj (proj1 Hr) (Z.le_refl _)) (proj2 Hr)
                  Pa Pn)).
Qed.

Lemma fusion_antitone_in_similarity_witness :
  (fusion 80 40 (PyFloat 90.5) true <=? fusion 80 40 (PyFloat (-12.25)) true)%float = true.
Proof.
  apply fusion_antitone_in_similarity; try reflexivity; lia.
Defined.

(** X21: with a similarity of 0, which is what a blank text gives, the full-data
    score is at least 30 and at most 85. *)
Theorem zero_similarity_floor (ai_score : float) (rule_score : Z) :
  (0 <=? ai_score)%float = true -> (ai_score <=? 100)%float = true ->
  0 <= rule_score <= 40 ->
  (30 <=? fusion ai_score rule_score (PyInt 0) true)%float = true
  /\ (fusion ai_score rule_score (PyInt 0) true <=? 85)%float = true.
Proof.
  intros A0 A1 Hr.
  assert (F100 : bounded64 100) by bounded64_const.
  assert (L0 : le64 0 ai_score).
  { apply le64_intro; [reflexivity|exact A0|]. apply bounded64_leb; [exact A0|].
    apply le64_leb. apply le64_trans with 100%float; [|le64_const].
    apply le64_intro; [exact A0|exact A1|exact F100]. }
  assert (La : le64 ai_score 100) by (apply le64_intro; [exact A0|exact A1|exact F100]).
  assert (Pn : le64 (to_float (int_sub 100 (PyInt 0))) 200) by (apply penalty_bounded; cbn; lia).
  pose proof (le64_refl _ (le64_l _ _ Pn)) as Pr.
  destruct (fusion_le 0 ai_score 0 rule_score (PyInt 0) (PyInt 0) true L0 La
              (conj (Z.le_refl 0) (proj1 Hr)) (proj2 Hr) Pr Pn) as [Lo _].
  destruct (fusion_le ai_score 100 rule_score 40 (PyInt 0) (PyInt 0) true La (le64_refl _ F100)
              Hr (Z.le_refl 40) Pr Pn) as [Hi _].
  replace (fusion 0 0 (PyInt 0) true) with 30%float in Lo by (vm_compute; reflexivity).
  replace (fusion 100 40 (PyInt 0) true) with 85%float in Hi by (vm_compute; reflexivity).
  split; now apply le64_leb.
Qed.

Lemma zero_similarity_floor_witness :
  (30 <=? fusion 12.5 0 (PyInt 0) true)%float = true
  /\ (fusion 12.5 0 (PyInt 0) true <=? 85)%float = true.
Proof.
  apply zero_similarity_floor; try reflexivity; lia.
Defined.

(** * Scores that are not numbers *)

Lemma nan_mul x c : Prim2SF x = S754_nan -> Prim2SF (x * c) = S754_nan.
Proof. intros E. rewrite mul_spec, E. reflexivity. Qed.

Lemma nan_add x y : Prim2SF x = S754_nan -> Prim2SF (x + y) = S754_nan.
Proof. intros E. rewrite add_spec, E. reflexivity. Qed.

Lemma nan_round2 x : Prim2SF x = S754_nan -> Prim2SF (py_round2 x) = S754_nan.
Proof. intros E. unfold py_round2. rewrite E. exact E. Qed.

Lemma nan_leb c x : Prim2SF x = S754_nan -> (c <=? x)%float = false.
Proof. intros E. rewrite leb_spec, E. unfold SFleb, SFcompare. now destruct (Prim2SF c). Qed.

(** X22: the endpoint does not check what the classifier returns: when its score
    is not a number, neither are the AI score and the final score of the
    reply, which is rated "Low" and not flagged. *)
Theorem nan_score_propagates (U : Unicode) (W : World) (data : VideoData) (r : Response.t) :
  value (predict U W data) = Success r ->
  Prim2SF (classifier_score W (Response.title r)) = S754_nan ->
  Prim2SF (Response.ai_score r) = S754_nan
  /\ Prim2SF (Response.final_score r) = S754_nan
  /\ Response.risk_level r = py "Low"
  /\ Response.clickbait r = false.
Proof.
  intros H. apply predict_success in H.
  destruct H as (video_id & title & desc & transcript & _ & _ & _ & _ & ->).
  cbn [Response.title Response.ai_score Response.final_score Response.risk_level
       Response.clickbait].
  intros E.
  assert (A : Prim2SF (py_round2 (classifier_score W title * 100)) = S754_nan)
    by (apply nan_round2, nan_mul, E).
  set (ai := py_round2 (classifier_score W title * 100)) in *.
  assert (F : forall r s u, Prim2SF (fusion ai r s u) = S754_nan).
  { intros r s u. unfold fusion. apply nan_round2.
    destruct u; [apply nan_add|]; apply nan_add, nan_mul, A. }
  split; [exact A|]. split; [apply F|].
  unfold risk_level. rewrite !nan_leb by apply F. split; reflexivity.
Qed.

Lemma nan_score_propagates_witness :
  exists r,
    value (predict ascii_tables
             (const_world (Some (py "A title")) None None nan 0.5%float) sample_url)
    = Success r
    /\ Prim2SF (Response.final_score r) = S754_nan
    /\ Response.risk_level r = py "Low"
    /\ Response.clickbait r = false.
Proof.
  eexists. split; [vm_compute; reflexivity|].
  refine (proj2 (nan_score_propagates ascii_tables
                   (const_world (Some (py "A title")) None None nan 0.5%float)
                   sample_url _ _ _)); vm_compute; reflexivity.
Defined.

(** * The envelope of the full-data score *)

(** X23: in the full-data mode the final score lies between the score of the
    weakest signals at the highest similarity and the score of the
    strongest signals at the lowest similarity; a similarity of 100 caps the
    final score at 55. *)
Theorem fusion_envelope (ai_score : float) (rule_score : Z) (sim lo hi : float) :
  (0 <=? ai_score)%float = true -> (ai_score <=? 100)%float = true ->
  0 <= rule_score <= 40 ->
  (-100 <=? lo)%float = true -> (lo <=? sim)%float = true ->
  (sim <=? hi)%float = true -> (hi <=? 100)%float = true ->
  (fusion 0 0 (PyFloat hi) true <=? fusion ai_score rule_score (PyFloat sim) true)%float = true
  /\ (fusion ai_score rule_score (PyFloat sim) true <=? fusion 100 40 (PyFloat lo) true)%float
     = true
  /\ fusion 100 40 (PyFloat 100) true = 55%float.
Proof.
  intros A0 A1 Hr S0 S1 S2 S3.
  assert (F100 : bounded64 100) by bounded64_const.
  assert (La : le64 ai_score 100) by (apply le64_intro; [exact A0|exact A1|exact F100]).
  assert (L0 : le64 0 ai_score).
  { apply le64_intro; [reflexivity|exact A0|exact (le64_l _ _ La)]. }
  pose proof (leb_trans _ _ _ S0 S1) as T1. pose proof (leb_trans _ _ _ S2 S3) as T2.
  pose proof (leb_trans _ _ _ S1 T2) as T3.
  pose proof (penalty_anti sim hi T1 S2 S3) as P1.
  pose proof (penalty_anti lo sim S0 S1 T2) as P2.
  pose proof (penalty_range sim T1 T2) as R1. pose proof (penalty_range lo S0 T3) as R2.
  split; [|split; [|vm_compute; reflexivity]]; apply le64_leb.
  - exact (proj1 (fusion_le 0 ai_score 0 rule_score (PyFloat hi) (PyFloat sim) true L0 La
                    (conj (Z.le_refl 0) (proj1 Hr)) (proj2 Hr) P1 R1)).
  - exact (proj1 (fusion_le ai_score 100 rule_score 40 (PyFloat sim) (PyFloat lo) true La
                    (le64_refl _ F100) Hr (Z.le_refl 40) P2 R2)).
Qed.

Lemma fusion_envelope_witness :
  (fusion 0 0 (PyFloat 100) true <=? fusion 98.77 40 (PyFloat 100) true)%float = true
  /\ (fusion 98.77 40 (PyFloat 100) true <=? fusion 100 40 (PyFloat 100) true)%float = true
  /\ fusion 100 40 (PyFloat 100) true = 55%float.
Proof.
  apply (fusion_envelope 98.77 40 100 100 100); try reflexivity. lia.
Defined.

(** * A more confident classifier *)

(** X24: when the classifier's scores go up, everything else being equal, the
    final score of the reply does not go down, a flagged video stays
    flagged and the risk level does not drop. *)
Theorem higher_confidence_keeps_verdict (U : Unicode) (W : World) (data : VideoData)
    (score score' : str -> float) (r r' : Response.t) :
  (forall text, (0 <=? score text)%float = true
                /\ (score text <=? score' text)%float = true
                /\ (score' text <=? 1)%float = true) ->
  (forall a b, (-1 <=? cos_sim W a b)%float = true /\ (cos_sim W a b <=? 1)%float = true) ->
  value (predict U (with_classifier W score) data) = Success r ->
  value (predict U (with_classifier W score') data) = Success r' ->
  (Response.final_score r <=? Response.final_score r')%float = true
  /\ (Response.clickbait r = true -> Response.clickbait r' = true)
  /\ (Response.risk_level r = py "Very High" -> Response.risk_level r' = py "Very High")
  /\ (Response.risk_level r' = py "Low" -> Response.risk_level r = py "Low").
Proof.
  intros Hc Hs H H'. apply predict_success in H, H'.
  destruct H as (video_id & title & desc & transcript & Eid & Einfo & _ & Etr & ->).
  destruct H' as (video_id' & title' & desc' & transcript' & Eid' & Einfo' & _ & Etr' & ->).
  rewrite Eid in Eid'. injection Eid' as <-.
  change (get_video_info (with_classifier W score') (url data))
    with (get_video_info (with_classifier W score) (url data)) in Einfo'.
  rewrite Einfo in Einfo'. injection Einfo' as <- <-.
  change (get_transcript (with_classifier W score') video_id)
    with (get_transcript (with_classifier W score) video_id) in Etr'.
  rewrite Etr in Etr'. subst transcript'.
  cbn [Response.final_score Response.clickbait Response.risk_level classifier_score
       with_classifier].
  change (similarity_score (with_classifier W score')) with (similarity_score W).
  change (similarity_score (with_classifier W score)) with (similarity_score W).
  set (sim := value (similarity_score W title (or_empty desc ++ py " " ++ or_empty transcript))).
  set (used := match transcript with Some _ => true | None => false end).
  destruct (Hc title) as (C0 & C1 & C2).
  destruct (le64_of_leb _ _ 1 ltac:(bounded64_const) C0 C1 C2) as [L L'].
  assert (A' : le64 (py_round2 (score' title * 100)) 100).
  { apply py_round2_cap; [vm_compute; reflexivity|].
    change 100%float with (1 * 100)%float at 2.
    apply fmul_mono; [exact L'|bounded64_const|bounded64_const]. }
  assert (A : le64 (py_round2 (score title * 100)) (py_round2 (score' title * 100))).
  { apply py_round2_mono. apply fmul_mono; [exact L|bounded64_const|].
    apply le64_l with (1 * 100)%float.
    apply fmul_mono; [exact L'|bounded64_const|bounded64_const]. }
  pose proof (rule_score_range U title) as R.
  assert (Pn : le64 (to_float (int_sub 100 sim)) 200)
    by (apply penalty_bounded, sim_bounded_score, Hs).
  destruct (fusion_le _ _ _ _ _ _ used A A' (conj (proj1 R) (Z.le_refl _)) (proj2 R)
              (le64_refl _ (le64_l _ _ Pn)) Pn) as [M _].
  apply le64_leb in M.
  set (f := fusion (py_round2 (score title * 100)) (lexical_rule_score U title) sim used) in *.
  set (g := fusion (py_round2 (score' title * 100)) (lexical_rule_score U title) sim used) in *.
  destruct (risk_level_inv f) as (I1 & _ & _ & I4).
  destruct (risk_level_inv g) as (J1 & _ & _ & J4).
  split; [exact M|]. split; [|split].
  - intros H. exact (leb_trans _ _ _ H M).
  - intros H. apply J1. apply I1 in H. exact (leb_trans _ _ _ H M).
  - intros H. apply J4 in H. destruct H as (H1 & H2 & H3). apply I4.
    destruct (75 <=? f)%float eqn:E1;
      [rewrite (leb_trans _ _ _ E1 M) in H1; discriminate H1|].
    destruct (60 <=? f)%float eqn:E2;
      [rewrite (leb_trans _ _ _ E2 M) in H2; discriminate H2|].
    destruct (45 <=? f)%float eqn:E3;
      [rewrite (leb_trans _ _ _ E3 M) in H3; discriminate H3|].
    repeat split.
Qed.

Lemma higher_confidence_keeps_verdict_witness :
  exists r r',
    value (predict ascii_tables (with_classifier sample_world (fun _ => 0.25%float)) sample_url)
    = Success r
    /\ value (predict ascii_tables (with_classifier sample_world (fun _ => 0.75%float)) sample_url)
       = Success r'
    /\ (Response.final_score r <=? Response.final_score r')%float = true.
Proof.
  assert (H : exists r, value (predict ascii_tables
                                 (with_classifier sample_world (fun _ => 0.25%float)) sample_url)
                        = Success r) by (eexists; vm_compute; reflexivity).
  assert (H' : exists r, value (predict ascii_tables
                                  (with_classifier sample_world (fun _ => 0.75%float)) sample_url)
                         = Success r) by (eexists; vm_compute; reflexivity).
  destruct H as [r H]. destruct H' as [r' H']. exists r, r'.
  split; [exact H|]. split; [exact H'|].
  refine (proj1 (higher_confidence_keeps_verdict ascii_tables sample_world sample_url
                   (fun _ => 0.25%float) (fun _ => 0.75%float) r r' _ _ H H')).
  - intros text. repeat split; reflexivity.
  - intros a b. split; reflexivity.
Defined.
